(** * MiGo intermediate representation: construction, analysis, rendering

    A shallow embedding of [migo.go] (package [migo]) and of
    [migoutil/simplify.go] (package [migoutil]).

    Go strings are byte sequences and are modelled by [string] (a list of
    [ascii] bytes).  [*Function] values are modelled by addresses into a
    store of [Function] records, so that the in-place updates made through
    one pointer are seen through every alias of it.  Go [int] and [int64]
    values are modelled by [Z]. *)

From Stdlib Require Import Ascii.
From stdpp Require Import gmap strings list pretty.

Set Warnings "-register-all,-clear-no-such-hyp".

Open Scope string_scope.
Open Scope Z_scope.
Open Scope list_scope.

(** ** Characters that cannot be written inside a literal *)

Definition dquote : ascii := "034"%char.
Definition newline : ascii := "010"%char.
Definition nl : string := String newline EmptyString.

(** ** token.Position *)

Record Position := mkPosition {
  Filename : string;
  Offset : Z;
  Line : Z;
  Column : Z
}.

(** [noPosition = token.Position{Line: 0}]. *)
Definition noPosition : Position :=
  {| Filename := EmptyString; Offset := 0; Line := 0; Column := 0 |}.

(** ** NamedVar and Parameter *)

(** The interface [NamedVar] has the two methods [Name()] and [String()];
    a value of it is modelled by what the two methods return. *)
Record NamedVar := mkNamedVar {
  nv_Name : string;
  nv_String : string
}.

Record Parameter_ := mkParameter {
  Caller : NamedVar;
  Callee : NamedVar
}.

(** ** Statements *)

Inductive Statement :=
| CallStatement (name : string) (params : list Parameter_) (pos : Position)
| SpawnStatement (name : string) (params : list Parameter_) (pos : Position)
| NewChanStatement (name : NamedVar) (chan : string) (size : Z) (pos : Position)
| CloseStatement (chan : string) (pos : Position)
| SendStatement (chan : string) (pos : Position)
| RecvStatement (chan : string) (pos : Position)
| SelectStatement (cases : list (list Statement)) (pos : Position)
| IfStatement (thn els : list Statement)
| IfForStatement (forCond : string) (thn els : list Statement)
| TauStatement
| NewMem (name : NamedVar) (pos : Position)
| MemRead (name : string) (pos : Position)
| MemWrite (name : string) (pos : Position)
| NewSyncMutex (name : NamedVar) (pos : Position)
| SyncMutexLock (name : string) (pos : Position)
| SyncMutexUnlock (name : string) (pos : Position)
| NewSyncRWMutex (name : NamedVar) (pos : Position)
| SyncRWMutexRLock (name : string) (pos : Position)
| SyncRWMutexRUnlock (name : string) (pos : Position).

(** [Statement.Position()]. *)
Definition Statement_Position (s : Statement) : Position :=
  match s with
  | CallStatement _ _ pos | SpawnStatement _ _ pos
  | NewChanStatement _ _ _ pos | CloseStatement _ pos
  | SendStatement _ pos | RecvStatement _ pos
  | SelectStatement _ pos
  | NewMem _ pos | MemRead _ pos | MemWrite _ pos
  | NewSyncMutex _ pos | SyncMutexLock _ pos | SyncMutexUnlock _ pos
  | NewSyncRWMutex _ pos | SyncRWMutexRLock _ pos
  | SyncRWMutexRUnlock _ pos => pos
  | IfStatement _ _ | IfForStatement _ _ _ | TauStatement => noPosition
  end.

(** ** Functions and programs *)

Record Function := mkFunction {
  Name : string;
  Params : list Parameter_;
  Stmts : list Statement;
  HasComm : bool;
  stack : list (list Statement);
  Pos : Position;
  varIdx : Z
}.

(** [NewFunction(name, pos)]. *)
Definition NewFunction (name : string) (pos : Position) : Function :=
  {| Name := name; Params := []; Stmts := []; HasComm := false;
     stack := []; Pos := pos; varIdx := 0 |}.

Definition set_Stmts (f : Function) (ss : list Statement) : Function :=
  {| Name := Name f; Params := Params f; Stmts := ss; HasComm := HasComm f;
     stack := stack f; Pos := Pos f; varIdx := varIdx f |}.

Definition set_HasComm (f : Function) (b : bool) : Function :=
  {| Name := Name f; Params := Params f; Stmts := Stmts f; HasComm := b;
     stack := stack f; Pos := Pos f; varIdx := varIdx f |}.

Definition set_stack (f : Function) (st : list (list Statement)) : Function :=
  {| Name := Name f; Params := Params f; Stmts := Stmts f;
     HasComm := HasComm f; stack := st; Pos := Pos f; varIdx := varIdx f |}.

(** A [*Function] is an address; the store maps every address to the record
    it points to. *)
Definition ptr := nat.
Definition heap := ptr -> Function.

Definition upd (h : heap) (a : ptr) (f : Function) : heap :=
  fun b => if Nat.eqb b a then f else h b.

(** [Program.Funcs] is a slice of pointers (the field [visited] is never
    read or written by the code and is left out). *)
Record Program := mkProgram {
  Funcs : list ptr
}.

Definition NewProgram : Program := {| Funcs := [] |}.

(** ** The name filter

    [nameFilter] is a [strings.NewReplacer] built from six pairs of an old
    and a new string: left parenthesis, right parenthesis, asterisk, double
    quote and hyphen are each replaced by the empty string, and the slash
    by an underscore.  Every old string is one byte long, so the replacer
    rewrites its input byte by byte. *)
Definition nameFilter_byte (c : ascii) : string :=
  if Ascii.eqb c "("%char then EmptyString
  else if Ascii.eqb c ")"%char then EmptyString
  else if Ascii.eqb c "*"%char then EmptyString
  else if Ascii.eqb c "/"%char then "_"
  else if Ascii.eqb c dquote then EmptyString
  else if Ascii.eqb c "-"%char then EmptyString
  else String c EmptyString.

Fixpoint nameFilter (s : string) : string :=
  match s with
  | EmptyString => EmptyString
  | String c r => nameFilter_byte c +:+ nameFilter r
  end.

(** [Function.SimpleName]. *)
Definition SimpleName (f : Function) : string := nameFilter (Name f).

(** ** Program.AddFunction and Program.Function *)

(** The loop of [AddFunction]: is there a registered function with the name
    of [f]? *)
Fixpoint name_registered (h : heap) (fs : list ptr) (name : string) : bool :=
  match fs with
  | [] => false
  | fun_ :: rest =>
      if String.eqb (Name (h fun_)) name then true
      else name_registered h rest name
  end.

Definition AddFunction (h : heap) (p : Program) (f : ptr) : Program :=
  if name_registered h (Funcs p) (Name (h f)) then p
  else {| Funcs := Funcs p ++ [f] |}.

(** [Program.Function(name)]: [None] is the result [(nil, false)]. *)
Fixpoint lookup_func (h : heap) (fs : list ptr) (name : string) : option ptr :=
  match fs with
  | [] => None
  | f :: rest =>
      if String.eqb (Name (h f)) name then Some f
      else lookup_func h rest name
  end.

Definition Program_Function (h : heap) (p : Program) (name : string)
  : option ptr :=
  lookup_func h (Funcs p) name.

(** ** Function.AddStmts and hasComm *)

Definition is_Tau (s : Statement) : bool :=
  match s with TauStatement => true | _ => false end.

(** One iteration of the loop of [hasComm]: [Some b] when the statement makes
    the function return [b], [None] when the loop goes on. *)
Fixpoint hasComm_stmt (s : Statement) : option bool :=
  let fix scan (l : list Statement) : bool :=
    match l with
    | [] => false
    | x :: r => match hasComm_stmt x with Some b => b | None => scan r end
    end in
  match s with
  | SendStatement _ _ | RecvStatement _ _ | CloseStatement _ _
  | SelectStatement _ _ | NewChanStatement _ _ _ _ => Some true
  | IfStatement thn els => Some (scan thn || scan els)
  | IfForStatement _ thn els => Some (scan thn || scan els)
  | CallStatement _ params _ => Some (0 <? Z.of_nat (length params))
  | SpawnStatement _ params _ => Some (0 <? Z.of_nat (length params))
  | _ => None
  end.

Fixpoint hasComm (stmts : list Statement) : bool :=
  match stmts with
  | [] => false
  | s :: r => match hasComm_stmt s with Some b => b | None => hasComm r end
  end.

Definition AddStmts (f : Function) (stmts : list Statement) : Function :=
  let numStmts := length (Stmts f) in
  if (1 <? numStmts)%nat && is_Tau (nth (numStmts - 1) (Stmts f) TauStatement)
  then set_Stmts f (take numStmts (Stmts f) ++ stmts)
  else
    let f1 := if negb (HasComm f) && hasComm stmts
              then set_HasComm f true else f in
    set_Stmts f1 (Stmts f1 ++ stmts).

(** [Function.IsEmpty]. *)
Definition IsEmpty (f : Function) : bool :=
  (length (Stmts f) =? 0)%nat.

(** Modelled from the spec: the type [StmtsStack] of the field [stack] is
    missing from the sources; the specification describes a stack of
    statement sequences, here a list with its top at the head.
    [Function.PutAway] pushes the current statements and starts afresh. *)
Definition PutAway (f : Function) : Function :=
  set_Stmts (set_stack f (Stmts f :: stack f)) [].

(** ** Communication-reachability analysis

    [findEmptyFunc] updates three things in place: the functions (through
    their pointers), the memo map [known], and, in the model only, the list
    of the functions whose body the traversal entered, most recent first. *)

Record astate := mkAstate {
  st_heap : heap;
  st_known : gmap string bool;
  st_entered : list ptr
}.

(** [f.HasComm = f.HasComm || b; known[f.Name] = f.HasComm]. *)
Definition absorb (f : ptr) (b : bool) (st : astate) : astate :=
  let h := upd (st_heap st) f
             (set_HasComm (st_heap st f) (HasComm (st_heap st f) || b)) in
  {| st_heap := h;
     st_known := <[Name (h f) := HasComm (h f)]> (st_known st);
     st_entered := st_entered st |}.

(** The target of a call edge: the name of a [CallStatement] or of a
    [SpawnStatement]; the other statements are no edges. *)
Definition callee_name (s : Statement) : option string :=
  match s with
  | CallStatement name _ _ | SpawnStatement name _ _ => Some name
  | _ => None
  end.

(** The body of the [for] loop of [findEmptyFunc], for one statement; [rec]
    is the recursive call. *)
Definition visitStmt (rec : ptr -> astate -> option astate)
    (p : Program) (f : ptr) (stmt : Statement) (st : astate) : option astate :=
  match callee_name stmt with
  | Some name =>
      match Program_Function (st_heap st) p name with
      | Some child =>
          match st_known st !! Name (st_heap st child) with
          | Some hasComm => Some (absorb f hasComm st)
          | None =>
              match rec child st with
              | Some st' => Some (absorb f (HasComm (st_heap st' child)) st')
              | None => None
              end
          end
      | None => Some st
      end
  | None => Some st
  end.

Fixpoint visitStmts (rec : ptr -> astate -> option astate)
    (p : Program) (f : ptr) (stmts : list Statement) (st : astate)
  : option astate :=
  match stmts with
  | [] => Some st
  | stmt :: rest =>
      match visitStmt rec p f stmt st with
      | Some st' => visitStmts rec p f rest st'
      | None => None
      end
  end.

(** [Program.findEmptyFunc].  Go's recursion is unbounded; the model counts
    the nesting depth down from [fuel] and answers [None] when it is used up. *)
Fixpoint findEmptyFunc (fuel : nat) (p : Program) (f : ptr) (st : astate)
  : option astate :=
  match fuel with
  | O => None
  | S fuel' =>
      let h := st_heap st in
      match st_known st !! Name (h f) with
      | Some _ => Some st
      | None =>
          let st1 := {| st_heap := h;
                        st_known := <[Name (h f) := HasComm (h f)]> (st_known st);
                        st_entered := f :: st_entered st |} in
          visitStmts (findEmptyFunc fuel' p) p f (Stmts (h f)) st1
      end
  end.

(** [Program.findEmptyFuncMain]: a fresh memo map, the traversal, and then
    [f.HasComm = true]. *)
Definition findEmptyFuncMain (fuel : nat) (h : heap) (p : Program) (f : ptr)
  : option astate :=
  match findEmptyFunc fuel p f
          {| st_heap := h; st_known := ∅; st_entered := [] |} with
  | Some st =>
      Some {| st_heap := upd (st_heap st) f (set_HasComm (st_heap st f) true);
              st_known := st_known st;
              st_entered := st_entered st |}
  | None => None
  end.

(** The fuel that always suffices: the nesting depth is bounded by the number
    of registered functions, plus the root and the call that finds a name in
    the memo map. *)
Definition enough_fuel (p : Program) : nat := (length (Funcs p) + 2)%nat.

(** The edges that [findEmptyFunc] follows.  There is an edge from [a] to
    [b] when a call or spawn statement that is itself an element of the
    statement list of [a] names a function that the program finds, and [b]
    is the function found.  The loop of [findEmptyFunc] ranges over [f.Stmts]
    only: a call or spawn inside a branch of an [if], an [ifFor] or a
    [select] is not looked at, and is no edge.  [reaches] is the reflexive
    and transitive closure of these edges. *)
Definition call_edge (h : heap) (p : Program) (a b : ptr) : Prop :=
  ∃ s name, s ∈ Stmts (h a) ∧ callee_name s = Some name ∧
            Program_Function h p name = Some b.

Inductive reaches (h : heap) (p : Program) : ptr -> ptr -> Prop :=
| reaches_refl a : reaches h p a a
| reaches_step a b c : call_edge h p a b -> reaches h p b c -> reaches h p a c.

(** ** Rendering of statements *)

(** The loop shared by [CalleeParameterString] and [CallerParameterString]:
    the first name as it is, every later one after a comma and a space. *)
Fixpoint paramString_from (proj : Parameter_ -> string) (i : nat)
    (params : list Parameter_) : string :=
  match params with
  | [] => EmptyString
  | p :: rest =>
      (if (i =? 0)%nat then proj p else ", " +:+ proj p)
        +:+ paramString_from proj (S i) rest
  end.

Definition CalleeParameterString (params : list Parameter_) : string :=
  paramString_from (fun p => nv_Name (Callee p)) 0 params.

Definition CallerParameterString (params : list Parameter_) : string :=
  paramString_from (fun p => nv_Name (Caller p)) 0 params.

(** [Statement.String()], one case per variant. *)
Fixpoint Statement_String (s : Statement) : string :=
  let fix branch (l : list Statement) : string :=
    match l with
    | [] => EmptyString
    | x :: r => (Statement_String x +:+ "; ") +:+ branch r
    end in
  let fix case_body (l : list Statement) : string :=
    match l with
    | [] => EmptyString
    | x :: r => (" " +:+ Statement_String x +:+ ";") +:+ case_body r
    end in
  let fix select_cases (cs : list (list Statement)) : string :=
    match cs with
    | [] => EmptyString
    | c :: r => (nl +:+ "      case" +:+ case_body c) +:+ select_cases r
    end in
  match s with
  | CallStatement name params _ =>
      "call " +:+ nameFilter name +:+ "(" +:+ CallerParameterString params +:+ ")"
  | SpawnStatement name params _ =>
      "spawn " +:+ nameFilter name +:+ "(" +:+ CallerParameterString params +:+ ")"
  | NewChanStatement name chan size _ =>
      "let " +:+ nv_Name name +:+ " = newchan " +:+ nameFilter chan +:+ ", "
        +:+ pretty size
  | CloseStatement chan _ => "close " +:+ chan
  | SendStatement chan _ => "send " +:+ chan
  | RecvStatement chan _ => "recv " +:+ chan
  | SelectStatement cases _ =>
      "select" +:+ select_cases cases +:+ nl +:+ "    endselect"
  | IfStatement thn els =>
      "if " +:+ branch thn +:+ "else " +:+ branch els +:+ "endif"
  | IfForStatement forCond thn els =>
      "ifFor (int " +:+ forCond +:+ ") then " +:+ branch thn +:+ "else "
        +:+ branch els +:+ "endif"
  | TauStatement => "tau"
  | NewMem name _ => "letmem " +:+ nv_Name name
  | MemRead name _ => "read " +:+ nameFilter name
  | MemWrite name _ => "write " +:+ nameFilter name
  | NewSyncMutex name _ => "letsync " +:+ nv_Name name +:+ " mutex"
  | SyncMutexLock name _ => "lock " +:+ nameFilter name
  | SyncMutexUnlock name _ => "unlock " +:+ nameFilter name
  | NewSyncRWMutex name _ => "letsync " +:+ nv_Name name +:+ " rwmutex"
  | SyncRWMutexRLock name _ => "rlock " +:+ nameFilter name
  | SyncRWMutexRUnlock name _ => "runlock " +:+ nameFilter name
  end.

(** ** Plain rendering *)

(** The header line [def name(params):]. *)
Definition header (f : Function) : string :=
  "def " +:+ SimpleName f +:+ "(" +:+ CalleeParameterString (Params f)
    +:+ "):" +:+ nl.

(** The step shared by both renderers: an empty body gets a [TauStatement]
    through [AddStmts]. *)
Definition materialize (f : Function) : Function :=
  if (length (Stmts f) =? 0)%nat then AddStmts f [TauStatement] else f.

Fixpoint body_lines (stmts : list Statement) : string :=
  match stmts with
  | [] => EmptyString
  | stmt :: rest =>
      ("    " +:+ Statement_String stmt +:+ ";" +:+ nl) +:+ body_lines rest
  end.

(** [Function.String()]: the text, and the function as the call leaves it. *)
Definition Function_String (f : Function) : string * Function :=
  let f' := materialize f in
  (header f +:+ body_lines (Stmts f'), f').

(** [Program.String()]: the functions in registration order, the empty ones
    left out. *)
Fixpoint Program_String_loop (h : heap) (fs : list ptr) : string * heap :=
  match fs with
  | [] => (EmptyString, h)
  | f :: rest =>
      if negb (IsEmpty (h f)) then
        let '(text, f') := Function_String (h f) in
        let '(more, h') := Program_String_loop (upd h f f') rest in
        (text +:+ more, h')
      else Program_String_loop h rest
  end.

Definition Program_String (h : heap) (p : Program) : string * heap :=
  Program_String_loop h (Funcs p).

(** ** The annotation registry

    [Properties] is a Go map from line numbers to lists of comments. *)
Abbreviation Properties := (gmap Z (list string)).

(** [ps[line] = append(ps[line], prop...)]. *)
Definition AddProperties (ps : Properties) (prop : list string) (line : Z)
  : Properties :=
  <[line := (default [] (ps !! line) ++ prop)%list]> ps.

(** [GetProperties] returns the comments of the line of the position and
    deletes the line from the registry. *)
Definition GetProperties (ps : Properties) (position : Position)
  : list string * Properties :=
  (default [] (ps !! Line position), delete (Line position) ps).

(** [Values] appends the lists of all lines, in the order in which the
    [range] loop visits the lines.  Go leaves that order open and it differs
    from run to run, so the order is an argument of the model: [range] is the
    list of the lines as the loop visits them. *)
Definition Values (range : list Z) (ps : Properties) : list string :=
  flat_map (fun line => default [] (ps !! line)) range.

(** The orders in which a [range] loop can visit a registry: every line of
    it once. *)
Definition range_of (ps : Properties) (range : list Z) : Prop :=
  range ≡ₚ (map_to_list ps).*1.

Definition Properties_IsEmpty (ps : Properties) : bool :=
  (size ps =? 0)%nat.

(** ** Annotated rendering *)

(** How a call can end: it returns, it dereferences a nil pointer (a Go
    panic), or [log.Fatalf] prints a message and exits. *)
Inductive outcome (A : Type) :=
| Returned (a : A)
| Panic
| Fatal (msg : string).
Arguments Returned {A} a.
Arguments Panic {A}.
Arguments Fatal {A} msg.

(** The comments of one line, each on a line of its own after [indent]. *)
Fixpoint prop_lines (indent : string) (props : list string) : string :=
  match props with
  | [] => EmptyString
  | prop :: rest => (indent +:+ prop +:+ nl) +:+ prop_lines indent rest
  end.

Fixpoint annotated_lines (stmts : list Statement) (props : Properties)
  : string * Properties :=
  match stmts with
  | [] => (EmptyString, props)
  | stmt :: rest =>
      let '(found, props1) := GetProperties props (Statement_Position stmt) in
      let '(more, props2) := annotated_lines rest props1 in
      ((prop_lines "    " found +:+ "    " +:+ Statement_String stmt +:+ ";" +:+ nl)
         +:+ more, props2)
  end.

(** [Function.PrintWithProperties]: the text, the function and the registry
    as the call leaves them. *)
Definition Function_PrintWithProperties (f : Function) (props : Properties)
  : string * Function * Properties :=
  let '(found, props1) := GetProperties props (Pos f) in
  let f' := materialize f in
  let '(body, props2) := annotated_lines (Stmts f') props1 in
  (prop_lines EmptyString found +:+ header f +:+ body, f', props2).

(** The reserved name of the root, [dquote main dquote .main]. *)
Definition mainName : string :=
  String dquote ("main" +:+ String dquote ".main").

(** The condition of the loop of [Program.PrintWithProperties]. *)
Definition printed_in_loop (f : Function) : bool :=
  negb (String.eqb (SimpleName f) "main.main")
  && negb (String.prefix "os" (SimpleName f))
  && negb (String.prefix "syscall" (SimpleName f))
  && negb (String.prefix "internal_poll" (SimpleName f))
  && negb (String.prefix "sync.o" (SimpleName f)).

Fixpoint annotated_loop (h : heap) (fs : list ptr) (props : Properties)
  : string * heap * Properties :=
  match fs with
  | [] => (EmptyString, h, props)
  | f :: rest =>
      if printed_in_loop (h f) then
        let '(text, f', props1) := Function_PrintWithProperties (h f) props in
        let '(more, h', props2) := annotated_loop (upd h f f') rest props1 in
        (text +:+ more, h', props2)
      else annotated_loop h rest props
  end.

(** Everything [Program.PrintWithProperties] does up to its final test, for
    a root that was found. *)
Definition render_annotated (h : heap) (p : Program) (main : ptr)
    (props : Properties) : string * heap * Properties :=
  let '(text, f', props1) := Function_PrintWithProperties (h main) props in
  let '(more, h', props2) := annotated_loop (upd h main f') (Funcs p) props1 in
  (text +:+ more, h', props2).

(** The [%v] verb on a slice of strings. *)
Definition format_values (vals : list string) : string :=
  "[" +:+ String.concat " " vals +:+ "]".

Definition fatal_message (range : list Z) (props : Properties) : string :=
  "Unable to find target location of properties: "
    +:+ format_values (Values range props).

(** [Program.PrintWithProperties].  The flag of the lookup of the root is
    dropped, and the first thing done with the pointer is to read its
    [Pos].  [range] is the order in which [Values] visits the registry,
    should the call get there. *)
Definition Program_PrintWithProperties (range : list Z) (h : heap)
    (p : Program) (props : Properties) : outcome (string * heap * Properties) :=
  match Program_Function h p mainName with
  | None => Panic
  | Some main =>
      let '(text, h', props') := render_annotated h p main props in
      if negb (Properties_IsEmpty props') then
        Fatal (fatal_message range props')
      else Returned (text, h', props')
  end.

(** ** The simplification pipeline (package migoutil)

    The three passes live in packages of their own; [SimplifyProgram] only
    fixes which of them run, on what, and in which order.  A pass works in
    place on the program and on its functions. *)

Inductive strategy :=
| Remove
| RemoveExcept (f : ptr).

Section Simplify.
Variable taufunc_Find : heap * Program -> strategy -> heap * Program.
Variable unused_Remove : heap * Program -> ptr -> heap * Program.
Variable deadcall_Remove : heap * Program -> heap * Program.

Definition SimplifyProgram (prog : heap * Program) : heap * Program :=
  let prog1 :=
    match Program_Function (fst prog) (snd prog) mainName with
    | Some mainmain =>
        unused_Remove (taufunc_Find prog (RemoveExcept mainmain)) mainmain
    | None => taufunc_Find prog Remove
    end in
  deadcall_Remove prog1.
End Simplify.

(** ** Reference definitions, written from the wording of the specification

    They are what the code is compared with; none of them is used by the
    model of the code above. *)

Fixpoint string_filter (keep : ascii -> bool) (s : string) : string :=
  match s with
  | EmptyString => EmptyString
  | String c r =>
      if keep c then String c (string_filter keep r) else string_filter keep r
  end.

Fixpoint string_map (g : ascii -> ascii) (s : string) : string :=
  match s with
  | EmptyString => EmptyString
  | String c r => String (g c) (string_map g r)
  end.

Fixpoint string_mem (c : ascii) (s : string) : bool :=
  match s with
  | EmptyString => false
  | String d r => Ascii.eqb d c || string_mem c r
  end.

(** The characters the grammar does not admit in an identifier. *)
Definition excluded_chars : list ascii :=
  ["("%char; ")"%char; "*"%char; "/"%char; dquote; "-"%char].

Definition is_excluded (c : ascii) : bool :=
  existsb (Ascii.eqb c) excluded_chars.

(** The filter as the specification words it: every excluded character is
    stripped. *)
Definition strip_excluded (s : string) : string :=
  string_filter (fun c => negb (is_excluded c)) s.

(** The characters that the replacer deletes, and the one it rewrites. *)
Definition is_deleted (c : ascii) : bool :=
  existsb (Ascii.eqb c) ["("%char; ")"%char; "*"%char; dquote; "-"%char].

Definition slash_to_underscore (c : ascii) : ascii :=
  if Ascii.eqb c "/"%char then "_"%char else c.

(** Registering a sequence of functions, one [AddFunction] call each. *)
Definition AddFunctions (h : heap) (p : Program) (fs : list ptr) : Program :=
  foldl (AddFunction h) p fs.

(** The names of the registered functions, in registration order. *)
Definition names (h : heap) (fs : list ptr) : list string :=
  (fun f => Name (h f)) <$> fs.

(** ** Scenarios

    Concrete functions and programs on which the properties below are
    exercised. *)

(** A function holding a lock statement, and the same function with a
    trailing [Tau]; a send to append to either. *)
Definition lock_stmt : Statement := SyncMutexLock "mu" noPosition.
Definition send_stmt : Statement := SendStatement "ch" noPosition.
Definition fn_lock : Function :=
  AddStmts (NewFunction "f" noPosition) [lock_stmt].
Definition fn_lock_tau : Function := AddStmts fn_lock [TauStatement].


(** A store laid out from a list: the function at address [a] is the
    [a]-th of the list. *)
Definition heap_of (l : list Function) : heap :=
  fun a => nth a l (NewFunction EmptyString noPosition).

Definition at_line (n : Z) : Position :=
  {| Filename := "main.go"; Offset := 0; Line := n; Column := 1 |}.

(** Three functions, the third with the name of the first; a fourth with a
    name of its own. *)
Definition reg_heap : heap :=
  heap_of [ NewFunction "f" (at_line 1);
            NewFunction "g" (at_line 5);
            AddStmts (NewFunction "f" (at_line 9)) [send_stmt];
            NewFunction "k" (at_line 12) ].

Definition reg_prog : Program := {| Funcs := [0; 1]%nat |}.

(** The program of the simplification scenario: the root calls [helper],
    whose body is a single [Tau]; [orphan] is called by nobody and calls a
    function that does not exist. *)
Definition scn_main : Function :=
  AddStmts (NewFunction mainName (at_line 3))
    [CallStatement "helper" [] (at_line 10)].
Definition scn_helper : Function :=
  AddStmts (NewFunction "helper" (at_line 20)) [TauStatement].
Definition scn_orphan : Function :=
  AddStmts (NewFunction "orphan" (at_line 30))
    [CallStatement "missing" [] (at_line 31)].

Definition scn_heap : heap := heap_of [scn_main; scn_helper; scn_orphan].
Definition scn_prog : Program := {| Funcs := [0; 1; 2]%nat |}.

(** The same functions registered without the root. *)
Definition scn_prog_noroot : Program := {| Funcs := [1; 2]%nat |}.


(** A call graph with a cycle: [A] calls [B], [B] calls [A] and then [C],
    and [C] sends on a channel and calls [A].  All three are built through
    the construction API, so only [C] starts with [HasComm] set. *)
Definition cyc_A : Function :=
  AddStmts (NewFunction "A" (at_line 1)) [CallStatement "B" [] (at_line 2)].
Definition cyc_B : Function :=
  AddStmts
    (AddStmts (NewFunction "B" (at_line 4)) [CallStatement "A" [] (at_line 5)])
    [CallStatement "C" [] (at_line 6)].
Definition cyc_C : Function :=
  AddStmts
    (AddStmts (NewFunction "C" (at_line 8)) [SendStatement "ch" (at_line 9)])
    [CallStatement "A" [] (at_line 10)].

Definition cyc_heap : heap := heap_of [cyc_A; cyc_B; cyc_C].
Definition cyc_prog : Program :=
  AddFunctions cyc_heap NewProgram [0; 1; 2]%nat.


(** ** Vocabulary for the analysis

    What one run of the traversal may change: the names and the bodies stay,
    a set flag stays set, the memo map only gains names, and the functions
    entered on the way are new to the memo map and distinct by name. *)
Definition extends (st st' : astate) : Prop :=
  (forall q, Name (st_heap st' q) = Name (st_heap st q)) /\
  (forall q, Stmts (st_heap st' q) = Stmts (st_heap st q)) /\
  (forall q, HasComm (st_heap st q) = true -> HasComm (st_heap st' q) = true) /\
  dom (st_known st) ⊆ dom (st_known st') /\
  exists new,
    st_entered st' = new ++ st_entered st /\
    NoDup (names (st_heap st) new) /\
    forall q, q ∈ new ->
      (Name (st_heap st q) ∉ dom (st_known st)) /\
      (Name (st_heap st q) ∈ dom (st_known st')).

(** The registered names that the memo map does not hold yet; their number
    bounds the depth of the recursion. *)
Definition unvisited (p : Program) (st : astate) : gset string :=
  list_to_set (names (st_heap st) (Funcs p)) ∖ dom (st_known st).


(** The lines whose annotations a function consumes when it is rendered with
    annotations: its own, then those of its statements, in order. *)
Definition consumed_lines (f : Function) : list Z :=
  Line (Pos f) :: ((fun s => Line (Statement_Position s)) <$> Stmts (materialize f)).

(** Two registries for the scenario program: one annotates the call in the
    root, the other also a line that no function or statement carries. *)
Definition props_matching : Properties := {[ 10 := ["// reviewed"] ]}.
Definition props_stray : Properties :=
  <[ 99 := ["// lost"; "// too"] ]> props_matching.
(** A line registered with no comments at all. *)
Definition props_blank : Properties := AddProperties ∅ [] 99.


(** The annotated rendering of the scenario program under [props_matching]. *)
Definition scn_text : string :=
  "def main.main():" +:+ nl +:+
  "    // reviewed" +:+ nl +:+
  "    call helper();" +:+ nl +:+
  "def helper():" +:+ nl +:+
  "    tau;" +:+ nl +:+
  "def orphan():" +:+ nl +:+
  "    call missing();" +:+ nl.


(** ** The three passes, for the scenarios

    The passes are not part of the two packages embedded here.  The
    properties of [SimplifyProgram] hold for any three passes; the
    definitions below give the scenarios passes to run. *)

(** Every call and spawn whose target satisfies [gone] becomes a [Tau], at
    any depth of nesting. *)
Fixpoint neutralize (gone : string -> bool) (s : Statement) : Statement :=
  match s with
  | CallStatement name _ _ | SpawnStatement name _ _ =>
      if gone name then TauStatement else s
  | IfStatement thn els =>
      IfStatement (map (neutralize gone) thn) (map (neutralize gone) els)
  | IfForStatement c thn els =>
      IfForStatement c (map (neutralize gone) thn) (map (neutralize gone) els)
  | SelectStatement cases pos =>
      SelectStatement (map (map (neutralize gone)) cases) pos
  | _ => s
  end.

(** The call and spawn targets of a statement, at any depth of nesting. *)
Fixpoint targets (s : Statement) : list string :=
  match s with
  | CallStatement name _ _ | SpawnStatement name _ _ => [name]
  | IfStatement thn els | IfForStatement _ thn els =>
      flat_map targets thn ++ flat_map targets els
  | SelectStatement cases _ => flat_map (flat_map targets) cases
  | _ => []
  end.

Definition rewrite_bodies (gone : string -> bool) (h : heap) (fs : list ptr)
  : heap :=
  fun a =>
    if existsb (Nat.eqb a) fs
    then set_Stmts (h a) (map (neutralize gone) (Stmts (h a)))
    else h a.

Definition excluded_by (s : strategy) (f : ptr) : bool :=
  match s with
  | Remove => false
  | RemoveExcept g => Nat.eqb f g
  end.

(** Modelled from the spec: the pass [taufunc.Find] is missing from the
    sources.  A function whose statements are all [Tau] and that the strategy
    does not exclude is deleted, and the calls and spawns that target it
    become [Tau]. *)
Definition model_taufunc_Find (prog : heap * Program) (s : strategy)
  : heap * Program :=
  let '(h, p) := prog in
  let trivial f := forallb is_Tau (Stmts (h f)) && negb (excluded_by s f) in
  let gone name := existsb (fun f => trivial f && String.eqb (Name (h f)) name)
                     (Funcs p) in
  let kept := filter (fun f => trivial f = false) (Funcs p) in
  (rewrite_bodies gone h kept, {| Funcs := kept |}).

(** One round of the reachability computation: the functions that the
    functions in [seen] call or spawn join them. *)
Definition reach_round (h : heap) (p : Program) (seen : list ptr) : list ptr :=
  seen ++ omap (Program_Function h p)
            (flat_map (fun f => flat_map targets (Stmts (h f))) seen).

(** Modelled from the spec: the pass [unused.Remove] is missing from the
    sources.  The functions that the root does not reach over call and spawn
    edges are deleted. *)
Definition model_unused_Remove (prog : heap * Program) (root : ptr)
  : heap * Program :=
  let '(h, p) := prog in
  let reached := Nat.iter (length (Funcs p)) (reach_round h p) [root] in
  (h, {| Funcs := filter (fun f => existsb (Nat.eqb f) reached = true)
                    (Funcs p) |}).

(** Modelled from the spec: the pass [deadcall.Remove] is missing from the
    sources.  A call or spawn whose target is no function of the program
    becomes [Tau]. *)
Definition model_deadcall_Remove (prog : heap * Program) : heap * Program :=
  let '(h, p) := prog in
  (rewrite_bodies (fun name => negb (name_registered h (Funcs p) name)) h
     (Funcs p), p).

Definition model_Simplify : heap * Program -> heap * Program :=
  SimplifyProgram model_taufunc_Find model_unused_Remove model_deadcall_Remove.

(** A state of the analysis in which the memo map holds [A] with the value
    [false], as it does while [A] is in progress. *)
Definition cyc_memo : astate :=
  {| st_heap := cyc_heap; st_known := {[ "A" := false ]};
     st_entered := [0%nat] |}.


(** ** Vocabulary for the construction API *)

(** The statements that the loop of [hasComm] steps over: inaction, and the
    memory and lock statements. *)
Definition stepped_over (s : Statement) : bool :=
  match s with
  | TauStatement
  | NewMem _ _ | MemRead _ _ | MemWrite _ _
  | NewSyncMutex _ _ | SyncMutexLock _ _ | SyncMutexUnlock _ _
  | NewSyncRWMutex _ _ | SyncRWMutexRLock _ _ | SyncRWMutexRUnlock _ _ => true
  | _ => false
  end.

(** A sequence of [AddStmts] calls, one per batch. *)
Definition AddStmts_all (f : Function) (batches : list (list Statement))
  : Function :=
  foldl AddStmts f batches.

(** No [Tau] at the top level of a sequence. *)
Definition Tau_free (stmts : list Statement) : bool :=
  forallb (fun s => negb (is_Tau s)) stmts.


(** ** Vocabulary for the renderers *)

(** The text of one function with a body. *)
Definition function_text (f : Function) : string :=
  header f +:+ body_lines (Stmts f).

(** The texts of a list, one after the other. *)
Definition join_texts (texts : list string) : string :=
  foldr String.append EmptyString texts.


(** ** Parameters of a function and of a call

    The three [AddParams] methods share one loop: a parameter is appended
    unless a parameter already present clashes with it.  They differ in what
    a clash is, and each compares with Go's [==]: on the [NamedVar] values of
    the two sides for a function, on the [*Parameter] pointers for a call or
    a spawn.  The comparison is a parameter of the model. *)

Section AddParams.
Context {P : Type}.
Variable clash : P -> P -> bool.

(** The inner loop: [found] ends up true when some parameter present
    clashes with [param]. *)
Definition found_in (present : list P) (param : P) : bool :=
  existsb (fun p => clash p param) present.

Fixpoint AddParams_loop (present params : list P) : list P :=
  match params with
  | [] => present
  | param :: rest =>
      AddParams_loop
        (if found_in present param then present else present ++ [param])
        rest
  end.

(** No parameter clashes with a later one. *)
Definition clash_free (l : list P) : Prop :=
  forall (i j : nat) (p q : P),
    (i < j)%nat -> l !! i = Some p -> l !! j = Some q -> clash p q = false.
End AddParams.

Section FunctionParams.
(** [==] on two [NamedVar] values. *)
Variable eqv : NamedVar -> NamedVar -> bool.

(** [p.Callee == param.Callee || p.Caller == param.Caller]. *)
Definition sides_clash (p param : Parameter_) : bool :=
  eqv (Callee p) (Callee param) || eqv (Caller p) (Caller param).
End FunctionParams.

(** [CallStatement.AddParams] and [SpawnStatement.AddParams], on the
    parameter list of the statement; [same] is [==] on two [*Parameter]. *)
Definition Call_AddParams (same : Parameter_ -> Parameter_ -> bool)
    (present params : list Parameter_) : list Parameter_ :=
  AddParams_loop same present params.

(** Two variables and two bindings for the scenarios. *)
Definition var_x : NamedVar := {| nv_Name := "x"; nv_String := "x" |}.
Definition var_y : NamedVar := {| nv_Name := "y"; nv_String := "y" |}.
Definition var_z : NamedVar := {| nv_Name := "z"; nv_String := "z" |}.
Definition bind_xy : Parameter_ := {| Caller := var_x; Callee := var_y |}.
Definition bind_zy : Parameter_ := {| Caller := var_z; Callee := var_y |}.
Definition bind_zx : Parameter_ := {| Caller := var_z; Callee := var_x |}.

(** The comparison of two variables by what they print. *)
Definition eqv_names (a b : NamedVar) : bool :=
  String.eqb (nv_Name a) (nv_Name b) && String.eqb (nv_String a) (nv_String b).


(** ** Vocabulary for the traversal *)

(** [f] is the function that the program finds under the name of [f]. *)
Definition registered_first (h : heap) (p : Program) (f : ptr) : Prop :=
  Program_Function h p (Name (h f)) = Some f.

(** No other function is found under the name of [f]: [f] is the function
    registered under its name, or no function is. *)
Definition owns_name (h : heap) (p : Program) (f : ptr) : Prop :=
  forall c, Program_Function h p (Name (h f)) = Some c -> c = f.

(** The store of a state has the names and the bodies of [h0]. *)
Definition shaped (h0 : heap) (st : astate) : Prop :=
  forall q, Name (st_heap st q) = Name (h0 q) /\
            Stmts (st_heap st q) = Stmts (h0 q).

(** What a call of [findEmptyFunc] on [f] does besides what [extends] says:
    the functions it enters are reached from [f] and, [f] apart, found under
    their names; only they are written to; the memo map gains their names
    and changes at their names only; and every function that one of them
    calls or spawns has its name in the memo map at the end. *)
Definition traverses (h0 : heap) (p : Program) (f : ptr) (st st' : astate)
  : Prop :=
  exists new,
    st_entered st' = new ++ st_entered st /\
    (forall q, q ∈ new ->
       reaches h0 p f q /\ (q = f \/ registered_first h0 p q)) /\
    (forall q, q ∉ new -> st_heap st' q = st_heap st q) /\
    (forall n, n ∈ dom (st_known st') <->
               n ∈ dom (st_known st) \/ n ∈ names h0 new) /\
    (forall n, n ∉ names h0 new -> st_known st' !! n = st_known st !! n) /\
    (forall q c, q ∈ new -> call_edge h0 p q c ->
                 Name (h0 c) ∈ dom (st_known st')) /\
    Name (h0 f) ∈ dom (st_known st') /\
    (st_known st !! Name (h0 f) = None -> f ∈ new).

(** The same for the loop over the statements [stmts] of a function [f]
    that has been entered: [f] itself may be written to as well, and the
    targets of [stmts] are in the memo map at the end. *)
Definition loops_over (h0 : heap) (p : Program) (f : ptr)
    (stmts : list Statement) (st st' : astate) : Prop :=
  exists new,
    st_entered st' = new ++ st_entered st /\
    (forall q, q ∈ new -> reaches h0 p f q /\ registered_first h0 p q) /\
    (forall q, q ∉ new -> q <> f -> st_heap st' q = st_heap st q) /\
    (forall n, n ∈ dom (st_known st') <->
               n ∈ dom (st_known st) \/ n ∈ names h0 new) /\
    (forall n, n ∉ names h0 new -> n <> Name (h0 f) ->
               st_known st' !! n = st_known st !! n) /\
    (forall q c, q ∈ new -> call_edge h0 p q c ->
                 Name (h0 c) ∈ dom (st_known st')) /\
    (forall s name c, s ∈ stmts -> callee_name s = Some name ->
                      Program_Function h0 p name = Some c ->
                      Name (h0 c) ∈ dom (st_known st')).

(** The graph of the edges [call_edge] has no cycle. *)
Definition acyclic (h : heap) (p : Program) : Prop :=
  forall a b, call_edge h p a b -> ~ reaches h p b a.


(** Between two states the functions differ in [HasComm] at most. *)
Definition flag_only (st st' : astate) : Prop :=
  forall q,
    st_heap st' q = set_HasComm (st_heap st q) (HasComm (st_heap st' q)).


(** The functions that a run from [root] can enter: the root, and the
    functions found under their names. *)
Definition entrant (h : heap) (p : Program) (root q : ptr) : Prop :=
  q = root \/ registered_first h p q.

(** The state of a run in which the functions of [anc] are in progress: the
    memo map holds the names of the functions entered and no others; and for
    every function entered and no longer in progress, the memo map holds its
    flag, the functions that it calls or spawns are entered and no longer in
    progress either, and its flag is set when the flag of one of them is. *)
Definition settled (h0 : heap) (p : Program) (root : ptr) (anc : list ptr)
    (st : astate) : Prop :=
  (forall q, q ∈ st_entered st ->
     Name (h0 q) ∈ dom (st_known st) /\ entrant h0 p root q) /\
  (forall n, n ∈ dom (st_known st) ->
     exists q, q ∈ st_entered st /\ Name (h0 q) = n) /\
  (forall q, q ∈ st_entered st -> q ∉ anc ->
     st_known st !! Name (h0 q) = Some (HasComm (st_heap st q)) /\
     forall c, call_edge h0 p q c ->
       c ∈ st_entered st /\ (c ∉ anc) /\
       (HasComm (st_heap st c) = true -> HasComm (st_heap st q) = true)).

(** What the loop over the statements [stmts] of [f] has achieved for the
    functions that [stmts] call or spawn. *)
Definition absorbed (h0 : heap) (p : Program) (anc : list ptr) (f : ptr)
    (stmts : list Statement) (st : astate) : Prop :=
  st_known st !! Name (h0 f) = Some (HasComm (st_heap st f)) /\
  forall s name c, s ∈ stmts -> callee_name s = Some name ->
    Program_Function h0 p name = Some c ->
    c ∈ st_entered st /\ (c ∉ anc) /\
    (HasComm (st_heap st c) = true -> HasComm (st_heap st f) = true).


(** What a step of the run may touch while [f] is in progress: the functions
    it enters are new to the memo map, and apart from them only [f] and the
    entry of the memo map for [f] change. *)
Definition touches_only (h0 : heap) (f : ptr) (st st' : astate) : Prop :=
  exists new,
    st_entered st' = new ++ st_entered st /\
    (forall x, x ∈ new -> Name (h0 x) ∉ dom (st_known st)) /\
    (forall x, x ∉ new -> x <> f -> st_heap st' x = st_heap st x) /\
    (forall n, n ∉ names h0 new -> n <> Name (h0 f) ->
               st_known st' !! n = st_known st !! n).


(** A call graph without cycles: [R] calls [A] and [B], both call [C], and
    [C] sends on a channel. *)
Definition dag_R : Function :=
  AddStmts (NewFunction "R" (at_line 1))
    [CallStatement "A" [] (at_line 2); SpawnStatement "B" [] (at_line 3)].
Definition dag_A : Function :=
  AddStmts (NewFunction "A" (at_line 5)) [CallStatement "C" [] (at_line 6)].
Definition dag_B : Function :=
  AddStmts (NewFunction "B" (at_line 8)) [CallStatement "C" [] (at_line 9)].
Definition dag_C : Function :=
  AddStmts (NewFunction "C" (at_line 11)) [SendStatement "ch" (at_line 12)].

Definition dag_heap : heap := heap_of [dag_R; dag_A; dag_B; dag_C].
Definition dag_prog : Program :=
  AddFunctions dag_heap NewProgram [0; 1; 2; 3]%nat.

(** The height of a function of [dag_heap] above the leaves. *)
Definition dag_rank (a : ptr) : nat :=
  match a with
  | 0 => 3 | 1 => 2 | 2 => 2 | 3 => 1 | _ => 0
  end%nat.


(** [q] reaches a function whose flag is set in [h]. *)
Definition reaches_comm (h : heap) (p : Program) (q : ptr) : Prop :=
  exists c, reaches h p q c /\ HasComm (h c) = true.

(** Every flag that is set, in the store or in the memo map, is set for a
    reason: the function reaches one whose flag was set in [h0]. *)
Definition justified (h0 : heap) (p : Program) (st : astate) : Prop :=
  (forall q, HasComm (st_heap st q) = true -> reaches_comm h0 p q) /\
  (forall n c, st_known st !! n = Some true ->
               Program_Function h0 p n = Some c -> reaches_comm h0 p c).


(** The flags set in [h0] are known to the state: they are still set in the
    store, and the memo map holds [true] for the name of a function whose
    flag was set in [h0]. *)
Definition informed (h0 : heap) (p : Program) (st : astate) : Prop :=
  (forall q, HasComm (h0 q) = true -> HasComm (st_heap st q) = true) /\
  (forall n c b, st_known st !! n = Some b ->
                 Program_Function h0 p n = Some c ->
                 HasComm (h0 c) = true -> b = true).

(** The flag of [q] is set if [q] calls or spawns a function whose flag was
    set in [h0]. *)
Definition heeds (h0 : heap) (p : Program) (q : ptr) (st : astate) : Prop :=
  forall c, call_edge h0 p q c -> HasComm (h0 c) = true ->
            HasComm (st_heap st q) = true.


(** ** The annotated rendering as the specification words it

    Every annotation is printed once, immediately before the first function
    header or top-level statement that is rendered on its line.  The
    reference below looks the lines up in the registry as it was passed in
    and keeps a list of the lines that have been printed, where the code
    deletes from the registry as it goes. *)

(** The annotations to print on [line], when the lines [seen] have been
    printed already. *)
Definition annotations_at (props : Properties) (seen : list Z) (line : Z)
  : list string :=
  if bool_decide (line ∈ seen) then [] else default [] (props !! line).

Fixpoint expected_lines (props : Properties) (seen : list Z)
    (stmts : list Statement) : string :=
  match stmts with
  | [] => EmptyString
  | stmt :: rest =>
      let line := Line (Statement_Position stmt) in
      (prop_lines "    " (annotations_at props seen line)
         +:+ "    " +:+ Statement_String stmt +:+ ";" +:+ nl)
        +:+ expected_lines props (line :: seen) rest
  end.

(** The annotations of the line of the function, the header, and the
    statements, each after the annotations of its line; a function without
    statements is printed with a [tau]. *)
Definition expected_function_text (props : Properties) (seen : list Z)
    (f : Function) : string :=
  prop_lines EmptyString (annotations_at props seen (Line (Pos f)))
    +:+ header f
    +:+ expected_lines props (Line (Pos f) :: seen) (Stmts (materialize f)).

Fixpoint expected_text (props : Properties) (seen : list Z)
    (fs : list Function) : string :=
  match fs with
  | [] => EmptyString
  | f :: rest =>
      expected_function_text props seen f
        +:+ expected_text props (consumed_lines f ++ seen) rest
  end.

(** The functions of an annotated rendering, in the order in which they are
    printed: the root, then the registered functions that the loop does not
    pass over. *)
Definition rendered (h : heap) (p : Program) (main : ptr) : list ptr :=
  main :: filter (fun f => printed_in_loop (h f) = true) (Funcs p).

(** The lines of the functions printed and of their statements. *)
Definition lines_rendered (h : heap) (p : Program) (main : ptr) : list Z :=
  flat_map (fun f => consumed_lines (h f)) (rendered h p main).

(** The registry without the lines [seen]. *)
Definition left_over (props : Properties) (seen : list Z) : Properties :=
  foldl (fun acc line => delete line acc) props seen.

(** The registry differs from [props] in that the lines [seen] are gone. *)
Definition reads_off (props : Properties) (seen : list Z)
    (cur : Properties) : Prop :=
  forall line,
    cur !! line = if bool_decide (line ∈ seen) then None else props !! line.

(** A call inside a branch: [M] calls [R], and [R] calls [C], which sends on
    a channel, in the first branch of an [if] only. *)
Definition nest_M : Function :=
  AddStmts (NewFunction "M" (at_line 1)) [CallStatement "R" [] (at_line 2)].
Definition nest_R : Function :=
  AddStmts (NewFunction "R" (at_line 4))
    [IfStatement [CallStatement "C" [] (at_line 5)] []].
Definition nest_C : Function :=
  AddStmts (NewFunction "C" (at_line 7)) [SendStatement "ch" (at_line 8)].

Definition nest_heap : heap := heap_of [nest_M; nest_R; nest_C].
Definition nest_prog : Program :=
  AddFunctions nest_heap NewProgram [0; 1; 2]%nat.

(** * Properties *)

(** ** The construction API *)

Section AddStmts_facts.
Implicit Types (f : Function) (stmts : list Statement).

Lemma AddStmts_Name f stmts : Name (AddStmts f stmts) = Name f.
Proof. unfold AddStmts. repeat case_match; reflexivity. Qed.

Lemma AddStmts_Params f stmts : Params (AddStmts f stmts) = Params f.
Proof. unfold AddStmts. repeat case_match; reflexivity. Qed.

Lemma AddStmts_Stmts f stmts :
  Stmts (AddStmts f stmts) = (Stmts f ++ stmts)%list.
Proof.
  unfold AddStmts. repeat case_match; simpl; try reflexivity.
  by rewrite firstn_all.
Qed.

Lemma nth_last_Tau (l : list Statement) :
  last l = Some TauStatement ->
  is_Tau (nth (length l - 1) l TauStatement) = true.
Proof.
  induction l as [|x [|y l] IH]; simpl; intros H.
  - discriminate.
  - by inversion H.
  - simpl in IH. rewrite Nat.sub_0_r in IH. by apply IH.
Qed.

Lemma AddStmts_sticky f stmts :
  HasComm f = true -> HasComm (AddStmts f stmts) = true.
Proof.
  intros H. unfold AddStmts. repeat case_match; simpl; try done.
Qed.
End AddStmts_facts.

(** C1. When the function has more than one statement and the last one is
    [Tau], [AddStmts] appends the batch and leaves [HasComm] as it was,
    whatever the batch holds: a communicating [B] appended to a function
    whose flag is false leaves it false.  Appended to a function whose only
    statement is [A], the same [B] sets the flag. *)
Theorem AddStmts_trailing_tau (f g : Function) (stmts : list Statement)
    (A B : Statement) :
  ((1 < length (Stmts f))%nat -> last (Stmts f) = Some TauStatement ->
     HasComm (AddStmts f stmts) = HasComm f /\
     Stmts (AddStmts f stmts) = (Stmts f ++ stmts)%list) /\
  (Stmts g = [A] -> hasComm [B] = true -> HasComm (AddStmts g [B]) = true).
Proof.
  split.
  - intros Hlen Hlast. split; [|apply AddStmts_Stmts].
    unfold AddStmts.
    apply Nat.ltb_lt in Hlen. rewrite Hlen.
    by rewrite (nth_last_Tau _ Hlast).
  - intros Hg HB. unfold AddStmts. rewrite Hg. simpl length.
    change (1 <? 1)%nat with false. cbn [andb].
    rewrite HB. destruct (HasComm g) eqn:E; simpl; done.
Qed.

Lemma AddStmts_trailing_tau_witness :
  HasComm (AddStmts fn_lock_tau [send_stmt]) = false /\
  HasComm (AddStmts fn_lock [send_stmt]) = true.
Proof.
  destruct (AddStmts_trailing_tau fn_lock_tau fn_lock [send_stmt] lock_stmt send_stmt) as [H1 H2].
  split.
  - rewrite (proj1 (H1 ltac:(simpl; lia) eq_refl)). reflexivity.
  - apply H2; reflexivity.
Defined.

Lemma materialize_empty (f : Function) :
  Stmts f = [] -> materialize f = set_Stmts f [TauStatement].
Proof.
  intros H. unfold materialize, AddStmts. rewrite H. simpl.
  rewrite andb_false_r. by rewrite H.
Qed.

Lemma materialize_nonempty (f : Function) :
  Stmts f <> [] -> materialize f = f.
Proof.
  intros H. unfold materialize. destruct (Stmts f); [done|reflexivity].
Qed.

Lemma materialize_sticky (f : Function) :
  HasComm f = true -> HasComm (materialize f) = true.
Proof.
  intros H. unfold materialize. case_match; [by apply AddStmts_sticky|done].
Qed.

(** C8. The plain serializer of a function, called on a function with no
    statements, prints the header and one [tau] line, and leaves the function
    with the single statement [Tau], so that it is no longer empty.  For a
    function named [f] without parameters the text is the header [def f():]
    followed by the line of the [tau]. *)
Theorem Function_String_empty (f : Function) :
  Stmts f = [] ->
  Function_String f
    = (header f +:+ "    tau;" +:+ nl, set_Stmts f [TauStatement]) /\
  IsEmpty (snd (Function_String f)) = false /\
  (Name f = "f" -> Params f = [] ->
   fst (Function_String f) = "def f():" +:+ nl +:+ "    tau;" +:+ nl).
Proof.
  intros H. unfold Function_String. rewrite (materialize_empty _ H). simpl.
  split; [reflexivity|]. split; [reflexivity|].
  intros Hn Hp. unfold header, SimpleName. rewrite Hn, Hp. reflexivity.
Qed.

Lemma Function_String_empty_witness :
  Function_String (NewFunction "f" noPosition)
    = ("def f():" +:+ nl +:+ "    tau;" +:+ nl,
       set_Stmts (NewFunction "f" noPosition) [TauStatement]) /\
  IsEmpty (snd (Function_String (NewFunction "f" noPosition))) = false.
Proof.
  destruct (Function_String_empty (NewFunction "f" noPosition) eq_refl)
    as (H1 & H2 & H3).
  split; [|exact H2].
  rewrite H1. reflexivity.
Defined.

(** ** The name filter *)

Lemma string_mem_app (c : ascii) (s t : string) :
  string_mem c (s +:+ t) = string_mem c s || string_mem c t.
Proof.
  induction s as [|d s IH]; simpl; [done|]. by rewrite IH, orb_assoc.
Qed.

Lemma is_excluded_cases (c : ascii) :
  is_excluded c = true ->
  c = "("%char \/ c = ")"%char \/ c = "*"%char \/ c = "/"%char \/
  c = dquote \/ c = "-"%char.
Proof.
  unfold is_excluded, excluded_chars. simpl.
  rewrite !orb_true_iff, !Ascii.eqb_eq. intuition discriminate.
Qed.

Lemma nameFilter_byte_clean (a c : ascii) :
  is_excluded c = true -> string_mem c (nameFilter_byte a) = false.
Proof.
  intros Hc. unfold nameFilter_byte.
  destruct (Ascii.eqb a "(") eqn:E1; [done|].
  destruct (Ascii.eqb a ")") eqn:E2; [done|].
  destruct (Ascii.eqb a "*") eqn:E3; [done|].
  destruct (Ascii.eqb a "/") eqn:E4.
  { destruct (is_excluded_cases c Hc) as [->|[->|[->|[->|[->| ->]]]]];
      reflexivity. }
  destruct (Ascii.eqb a dquote) eqn:E5; [done|].
  destruct (Ascii.eqb a "-") eqn:E6; [done|].
  simpl. rewrite orb_false_r.
  destruct (is_excluded_cases c Hc) as [->|[->|[->|[->|[->| ->]]]]];
    assumption.
Qed.

Lemma nameFilter_clean (s : string) (c : ascii) :
  is_excluded c = true -> string_mem c (nameFilter s) = false.
Proof.
  intros Hc. induction s as [|a s IH]; simpl; [done|].
  by rewrite string_mem_app, IH, nameFilter_byte_clean.
Qed.

Lemma nameFilter_formula (s : string) :
  nameFilter s
  = string_map slash_to_underscore
      (string_filter (fun c => negb (is_deleted c)) s).
Proof.
  induction s as [|a s IH]; simpl; [done|].
  rewrite IH. unfold nameFilter_byte, is_deleted, slash_to_underscore.
  simpl existsb.
  destruct (Ascii.eqb a "(") eqn:E1; [done|].
  destruct (Ascii.eqb a ")") eqn:E2; [done|].
  destruct (Ascii.eqb a "*") eqn:E3; [done|].
  destruct (Ascii.eqb a "/") eqn:E4.
  { apply Ascii.eqb_eq in E4. subst a. reflexivity. }
  destruct (Ascii.eqb a dquote) eqn:E5; [done|].
  destruct (Ascii.eqb a "-") eqn:E6; [done|].
  simpl. by rewrite E4.
Qed.

(** C5, as the code has it.  The places in which a function name or a
    channel label is printed through the filter: the header of a function
    prints the filtered name of the function, a call and a spawn print the
    filtered name of their target, and a new channel prints its label
    filtered; the names of the memory and lock statements go through the
    filter as well.  A filtered name is the name with the parentheses,
    asterisks, double quotes and hyphens deleted and every slash replaced by
    an underscore; none of these six characters occurs in it. *)
Theorem SimpleName_filtered (f : Function) (s : string)
    (params : list Parameter_) (v : NamedVar) (size : Z) (pos : Position) :
  SimpleName f = nameFilter (Name f) /\
  header f
  = "def " +:+ nameFilter (Name f) +:+ "("
      +:+ CalleeParameterString (Params f) +:+ "):" +:+ nl /\
  Statement_String (CallStatement s params pos)
  = "call " +:+ nameFilter s +:+ "(" +:+ CallerParameterString params +:+ ")" /\
  Statement_String (SpawnStatement s params pos)
  = "spawn " +:+ nameFilter s +:+ "(" +:+ CallerParameterString params +:+ ")" /\
  Statement_String (NewChanStatement v s size pos)
  = "let " +:+ nv_Name v +:+ " = newchan " +:+ nameFilter s +:+ ", "
      +:+ pretty size /\
  Statement_String (MemRead s pos) = "read " +:+ nameFilter s /\
  Statement_String (MemWrite s pos) = "write " +:+ nameFilter s /\
  Statement_String (SyncMutexLock s pos) = "lock " +:+ nameFilter s /\
  Statement_String (SyncMutexUnlock s pos) = "unlock " +:+ nameFilter s /\
  Statement_String (SyncRWMutexRLock s pos) = "rlock " +:+ nameFilter s /\
  Statement_String (SyncRWMutexRUnlock s pos) = "runlock " +:+ nameFilter s /\
  nameFilter s
  = string_map slash_to_underscore
      (string_filter (fun c => negb (is_deleted c)) s) /\
  forallb (fun c => negb (string_mem c (nameFilter s))) excluded_chars = true.
Proof.
  do 11 (split; [reflexivity|]). split; [apply nameFilter_formula|].
  apply forallb_forall. intros c Hc.
  rewrite nameFilter_clean; [done|].
  unfold is_excluded. apply existsb_exists. exists c.
  split; [done|]. apply Ascii.eqb_refl.
Qed.

(** C5, as it is worded, fails: a path separator is not stripped, an
    underscore takes its place. *)
Lemma SimpleName_not_stripped :
  SimpleName (NewFunction "a/b" noPosition) = "a_b" /\
  SimpleName (NewFunction "a/b" noPosition)
    <> strip_excluded (Name (NewFunction "a/b" noPosition)).
Proof. split; [reflexivity|]. vm_compute. discriminate. Qed.

(** A channel name in a send, receive or close statement is printed as it
    is; the filter is not applied to it. *)
Example send_channel_unfiltered :
  Statement_String (SendStatement "a-b" noPosition) = "send a-b".
Proof. reflexivity. Qed.

(** ** Registration of functions *)

Section Registration.
Variable h : heap.
Implicit Types (p : Program) (f : ptr) (fs : list ptr) (name : string).

Lemma name_registered_lookup fs name :
  name_registered h fs name = bool_decide (is_Some (lookup_func h fs name)).
Proof.
  induction fs as [|g fs IH]; simpl; [done|].
  by destruct (String.eqb (Name (h g)) name).
Qed.

Lemma lookup_func_None fs name :
  lookup_func h fs name = None <-> name ∉ names h fs.
Proof.
  unfold names. induction fs as [|g fs IH]; simpl.
  - split; [intros _; apply not_elem_of_nil|done].
  - destruct (String.eqb (Name (h g)) name) eqn:E.
    + apply String.eqb_eq in E. split; [done|].
      intros Hn. exfalso. apply Hn. rewrite E. apply list_elem_of_here.
    + apply String.eqb_neq in E. rewrite IH, not_elem_of_cons.
      split; [intros H; split; [congruence|done]|by intros [_ H]].
Qed.

Lemma lookup_func_Some fs name g :
  lookup_func h fs name = Some g -> g ∈ fs /\ Name (h g) = name.
Proof.
  induction fs as [|g' fs IH]; simpl; [done|].
  destruct (String.eqb (Name (h g')) name) eqn:E.
  - intros [= ->]. apply String.eqb_eq in E. split; [left|done].
  - intros H. destruct (IH H). split; [by right|done].
Qed.

Lemma name_registered_true fs name :
  name_registered h fs name = true <-> name ∈ names h fs.
Proof.
  rewrite name_registered_lookup, bool_decide_eq_true.
  rewrite <- not_eq_None_Some, lookup_func_None.
  destruct (decide (name ∈ names h fs)); tauto.
Qed.

Lemma lookup_func_app fs gs name :
  lookup_func h (fs ++ gs) name
  = match lookup_func h fs name with
    | Some g => Some g
    | None => lookup_func h gs name
    end.
Proof.
  induction fs as [|g fs IH]; simpl; [done|].
  by destruct (String.eqb (Name (h g)) name).
Qed.

Lemma AddFunction_lookup p f name :
  lookup_func h (Funcs (AddFunction h p f)) name
  = lookup_func h (Funcs p ++ [f]) name.
Proof.
  unfold AddFunction.
  destruct (name_registered h (Funcs p) (Name (h f))) eqn:E; [|done].
  rewrite lookup_func_app. simpl.
  destruct (lookup_func h (Funcs p) name) eqn:L; [done|].
  destruct (String.eqb (Name (h f)) name) eqn:N; [|done].
  apply String.eqb_eq in N. subst name.
  rewrite name_registered_lookup, L in E.
  apply bool_decide_eq_true in E. by destruct E.
Qed.

Lemma AddFunction_prefix p f :
  Funcs p `prefix_of` Funcs (AddFunction h p f).
Proof.
  unfold AddFunction. case_match; [done|]. by apply prefix_app_r.
Qed.

Lemma AddFunction_sublist p f :
  Funcs (AddFunction h p f) `sublist_of` Funcs p ++ [f].
Proof.
  unfold AddFunction. case_match; [|done]. by apply sublist_inserts_r.
Qed.

Lemma AddFunction_NoDup p f :
  NoDup (names h (Funcs p)) -> NoDup (names h (Funcs (AddFunction h p f))).
Proof.
  intros H. unfold AddFunction.
  destruct (name_registered h (Funcs p) (Name (h f))) eqn:E; [done|].
  simpl. unfold names in *. rewrite fmap_app. simpl.
  apply NoDup_app. split; [done|]. split; [|apply NoDup_singleton].
  intros x Hx Hx'. apply list_elem_of_singleton in Hx'. subst x.
  apply name_registered_true in Hx. congruence.
Qed.

Lemma AddFunctions_lookup fs : forall p name,
  lookup_func h (Funcs (AddFunctions h p fs)) name
  = lookup_func h (Funcs p ++ fs) name.
Proof.
  induction fs as [|f fs IH]; intros p name; simpl.
  - by rewrite app_nil_r.
  - unfold AddFunctions in *. simpl. rewrite IH.
    rewrite (lookup_func_app _ fs), AddFunction_lookup.
    rewrite <- lookup_func_app. by rewrite <- app_assoc.
Qed.

Lemma AddFunctions_prefix fs : forall p,
  Funcs p `prefix_of` Funcs (AddFunctions h p fs).
Proof.
  induction fs as [|f fs IH]; intros p; simpl; [done|].
  etrans; [apply (AddFunction_prefix p f)|apply IH].
Qed.

Lemma AddFunctions_sublist fs : forall p,
  Funcs (AddFunctions h p fs) `sublist_of` Funcs p ++ fs.
Proof.
  induction fs as [|f fs IH]; intros p; simpl.
  - by rewrite app_nil_r.
  - etrans; [apply IH|].
    replace (Funcs p ++ f :: fs) with ((Funcs p ++ [f]) ++ fs)
      by (by rewrite <- app_assoc).
    apply sublist_app; [apply AddFunction_sublist|done].
Qed.

Lemma AddFunctions_NoDup fs : forall p,
  NoDup (names h (Funcs p)) -> NoDup (names h (Funcs (AddFunctions h p fs))).
Proof.
  induction fs as [|f fs IH]; intros p H; simpl; [done|].
  apply IH. by apply AddFunction_NoDup.
Qed.
End Registration.

(** C9. A function whose name is already registered is not added: the
    program stays as it is, so adding the same function twice is the same as
    adding it once.  A function with a new name goes to the end.  Over any
    sequence of [AddFunction] calls the functions registered before stay at
    the front in their order, the result keeps the order of the calls, the
    function found under a name is the first one that was offered with that
    name, and no name is registered twice. *)
Theorem AddFunction_first_wins (h : heap) (p : Program) (f : ptr)
    (fs : list ptr) :
  (Name (h f) ∈ names h (Funcs p) -> AddFunction h p f = p) /\
  (Name (h f) ∉ names h (Funcs p) ->
   Funcs (AddFunction h p f) = (Funcs p ++ [f])%list) /\
  AddFunction h (AddFunction h p f) f = AddFunction h p f /\
  Funcs p `prefix_of` Funcs (AddFunctions h p fs) /\
  Funcs (AddFunctions h p fs) `sublist_of` (Funcs p ++ fs)%list /\
  (forall name,
     Program_Function h (AddFunctions h p fs) name
     = lookup_func h (Funcs p ++ fs)%list name) /\
  (NoDup (names h (Funcs p)) ->
   NoDup (names h (Funcs (AddFunctions h p fs)))).
Proof.
  repeat split.
  - intros H. apply name_registered_true in H. unfold AddFunction. by rewrite H.
  - intros H. unfold AddFunction.
    destruct (name_registered h (Funcs p) (Name (h f))) eqn:E; [|done].
    apply name_registered_true in E. done.
  - unfold AddFunction at 1.
    destruct (name_registered h (Funcs (AddFunction h p f)) (Name (h f)))
      eqn:E; [done|].
    exfalso. rewrite name_registered_lookup, AddFunction_lookup in E.
    apply bool_decide_eq_false in E. apply E.
    rewrite lookup_func_app. destruct (lookup_func h (Funcs p) (Name (h f)));
      [by eexists|].
    simpl. rewrite String.eqb_refl. by eexists.
  - apply AddFunctions_prefix.
  - apply AddFunctions_sublist.
  - intros name. apply AddFunctions_lookup.
  - apply AddFunctions_NoDup.
Qed.

Lemma AddFunction_first_wins_witness :
  AddFunction reg_heap reg_prog 2%nat = reg_prog /\
  Funcs (AddFunction reg_heap reg_prog 3%nat) = [0; 1; 3]%nat /\
  Funcs (AddFunctions reg_heap NewProgram [0; 1; 2; 0; 3]%nat) = [0; 1; 3]%nat /\
  NoDup (names reg_heap
           (Funcs (AddFunctions reg_heap reg_prog [2; 3; 3]%nat))).
Proof.
  destruct (AddFunction_first_wins reg_heap reg_prog 2%nat [2; 3; 3]%nat)
    as (H1 & _ & _ & _ & _ & _ & H7).
  destruct (AddFunction_first_wins reg_heap reg_prog 3%nat [])
    as (_ & H2 & _).
  split; [|split; [|split]].
  - apply H1. apply (bool_decide_unpack _). vm_compute. exact I.
  - apply H2. apply (bool_decide_unpack _). vm_compute. exact I.
  - reflexivity.
  - apply H7. apply (bool_decide_unpack _). vm_compute. exact I.
Defined.

(** ** Annotated rendering and the root *)

(** C10. In a program with no function named [mainName] the annotated
    rendering dereferences the nil pointer that the lookup returned: it
    panics, whatever the registry holds.  With such a function registered it
    does not panic. *)
Theorem PrintWithProperties_needs_main (h : heap) (p : Program)
    (props : Properties) (range : list Z) :
  (mainName ∉ names h (Funcs p) ->
   Program_PrintWithProperties range h p props = Panic) /\
  (mainName ∈ names h (Funcs p) ->
   Program_PrintWithProperties range h p props <> Panic).
Proof.
  unfold Program_PrintWithProperties, Program_Function. split.
  - intros H. apply lookup_func_None in H. by rewrite H.
  - intros H.
    destruct (lookup_func h (Funcs p) mainName) as [main|] eqn:L.
    + destruct (render_annotated h p main props) as [[text h'] props'].
      by case_match.
    + apply lookup_func_None in L. done.
Qed.

Lemma PrintWithProperties_needs_main_witness :
  Program_PrintWithProperties [] scn_heap scn_prog_noroot ∅ = Panic /\
  Program_PrintWithProperties [] scn_heap scn_prog ∅ <> Panic.
Proof.
  split.
  - apply (proj1 (PrintWithProperties_needs_main scn_heap scn_prog_noroot ∅
                    [])).
    apply (bool_decide_unpack _). vm_compute. exact I.
  - apply (proj2 (PrintWithProperties_needs_main scn_heap scn_prog ∅ [])).
    apply (bool_decide_unpack _). vm_compute. exact I.
Defined.

(** ** The communication-reachability analysis *)

Section Analysis.
Variable p : Program.
Implicit Types (st : astate) (f q : ptr) (h : heap).

Lemma names_ext h h' (fs : list ptr) :
  (forall q, Name (h' q) = Name (h q)) -> names h' fs = names h fs.
Proof.
  intros H. unfold names. apply list_fmap_ext. intros i x _. apply H.
Qed.

Lemma lookup_func_ext h h' (fs : list ptr) name :
  (forall q, Name (h' q) = Name (h q)) ->
  lookup_func h' fs name = lookup_func h fs name.
Proof.
  intros H. induction fs as [|g fs IH]; simpl; [done|]. by rewrite H, IH.
Qed.

Lemma extends_refl st : extends st st.
Proof.
  repeat split; try done. exists []. repeat split; try done.
  - apply NoDup_nil_2.
  - by apply elem_of_nil in H.
  - by apply elem_of_nil in H.
Qed.

Lemma extends_trans st1 st2 st3 :
  extends st1 st2 -> extends st2 st3 -> extends st1 st3.
Proof.
  intros (N1 & S1 & C1 & D1 & new1 & E1 & U1 & F1)
         (N2 & S2 & C2 & D2 & new2 & E2 & U2 & F2).
  repeat split.
  - intros q. by rewrite N2.
  - intros q. by rewrite S2.
  - auto.
  - set_solver.
  - exists (new2 ++ new1). split; [by rewrite E2, E1, app_assoc|].
    rewrite (names_ext _ _ new2 N1) in U2.
    split.
    + unfold names in *. rewrite fmap_app. apply NoDup_app.
      split; [done|]. split; [|done].
      intros x Hx Hx'.
      apply list_elem_of_fmap in Hx as (q2 & -> & Hq2).
      apply list_elem_of_fmap in Hx' as (q1 & Hx' & Hq1).
      destruct (F2 _ Hq2) as [Hn _]. destruct (F1 _ Hq1) as [_ Hi].
      rewrite N1 in Hn. rewrite Hx' in Hn. done.
    + intros q Hq. apply elem_of_app in Hq as [Hq|Hq].
      * destruct (F2 _ Hq) as [Hn Hi]. rewrite N1 in Hn, Hi.
        split; [set_solver|done].
      * destruct (F1 _ Hq) as [Hn Hi]. split; [done|set_solver].
Qed.

Lemma upd_same h a g : upd h a g a = g.
Proof. unfold upd. by rewrite Nat.eqb_refl. Qed.

Lemma upd_other h a b g : b <> a -> upd h a g b = h b.
Proof. intros H. unfold upd. apply Nat.eqb_neq in H. by rewrite H. Qed.

Lemma extends_absorb f b st : extends st (absorb f b st).
Proof.
  unfold absorb. repeat split; simpl.
  - intros q. destruct (decide (q = f)) as [->|Hq];
      [by rewrite upd_same|by rewrite upd_other].
  - intros q. destruct (decide (q = f)) as [->|Hq];
      [by rewrite upd_same|by rewrite upd_other].
  - intros q Hq. destruct (decide (q = f)) as [->|Hne].
    + rewrite upd_same. simpl. by rewrite Hq.
    + by rewrite upd_other.
  - rewrite dom_insert. set_solver.
  - exists []. repeat split; try done.
    + apply NoDup_nil_2.
    + by apply elem_of_nil in H.
    + by apply elem_of_nil in H.
Qed.

Lemma absorb_HasComm f b st :
  HasComm (st_heap (absorb f b st) f) = HasComm (st_heap st f) || b.
Proof. unfold absorb. simpl. by rewrite upd_same. Qed.

Lemma visitStmt_extends rec f stmt st st' :
  (forall c s s', rec c s = Some s' -> extends s s') ->
  visitStmt rec p f stmt st = Some st' -> extends st st'.
Proof.
  intros Hrec. unfold visitStmt.
  destruct (callee_name stmt) as [name|];
    [|intros [= <-]; apply extends_refl].
  destruct (Program_Function (st_heap st) p name) as [child|];
    [|intros [= <-]; apply extends_refl].
  destruct (st_known st !! Name (st_heap st child)) as [b|].
  - intros [= <-]. apply extends_absorb.
  - destruct (rec child st) as [st1|] eqn:R; [|done].
    intros [= <-]. eapply extends_trans; [by eapply Hrec|].
    apply extends_absorb.
Qed.

Lemma visitStmts_extends rec f stmts : forall st st',
  (forall c s s', rec c s = Some s' -> extends s s') ->
  visitStmts rec p f stmts st = Some st' -> extends st st'.
Proof.
  induction stmts as [|stmt rest IH]; intros st st' Hrec; simpl.
  - intros [= <-]. apply extends_refl.
  - destruct (visitStmt rec p f stmt st) as [st1|] eqn:V; [|done].
    intros H. eapply extends_trans.
    + eapply visitStmt_extends; eauto.
    + eapply IH; eauto.
Qed.

Lemma findEmptyFunc_extends fuel : forall f st st',
  findEmptyFunc fuel p f st = Some st' -> extends st st'.
Proof.
  induction fuel as [|fuel IH]; intros f st st'; simpl; [done|].
  destruct (st_known st !! Name (st_heap st f)) as [b|] eqn:K.
  - intros [= <-]. apply extends_refl.
  - intros H. apply visitStmts_extends in H; [|exact IH].
    eapply extends_trans; [|exact H].
    repeat split; simpl; try done.
    + rewrite dom_insert. set_solver.
    + exists [f]. repeat split.
      * unfold names. simpl. apply NoDup_singleton.
      * apply list_elem_of_singleton in H0. subst q.
        by apply not_elem_of_dom.
      * apply list_elem_of_singleton in H0. subst q.
        rewrite dom_insert. set_solver.
Qed.
End Analysis.

Section Termination.
Variable p : Program.
Implicit Types (st : astate) (f q : ptr).

Lemma size_list_to_set_le (l : list string) :
  (size (list_to_set l : gset string) <= length l)%nat.
Proof.
  induction l as [|x l IH].
  - rewrite list_to_set_nil, size_empty. simpl. lia.
  - rewrite list_to_set_cons, size_union_alt, size_singleton. simpl.
    assert (size (list_to_set l ∖ {[x]} : gset string)
            <= size (list_to_set l : gset string))%nat
      by (apply subseteq_size; set_solver).
    lia.
Qed.

Lemma unvisited_mono st st' :
  extends st st' -> (size (unvisited p st') <= size (unvisited p st))%nat.
Proof.
  intros (N & _ & _ & D & _). apply subseteq_size. unfold unvisited.
  rewrite (names_ext _ _ _ N). set_solver.
Qed.

Lemma unvisited_enter st f :
  f ∈ Funcs p ->
  st_known st !! Name (st_heap st f) = None ->
  (size (unvisited p
           {| st_heap := st_heap st;
              st_known := <[Name (st_heap st f) := HasComm (st_heap st f)]>
                            (st_known st);
              st_entered := f :: st_entered st |})
   < size (unvisited p st))%nat.
Proof.
  intros Hf K. apply subset_size. unfold unvisited. simpl.
  rewrite dom_insert_L.
  assert (Name (st_heap st f) ∈
            (list_to_set (names (st_heap st) (Funcs p)) : gset string)).
  { apply elem_of_list_to_set. unfold names.
    apply list_elem_of_fmap. by exists f. }
  apply not_elem_of_dom in K. set_solver.
Qed.

Lemma visitStmts_total rec (m : nat) f stmts :
  (forall c s s', rec c s = Some s' -> extends s s') ->
  (forall c s, c ∈ Funcs p -> (size (unvisited p s) <= m)%nat ->
               is_Some (rec c s)) ->
  forall st, (size (unvisited p st) <= m)%nat ->
             is_Some (visitStmts rec p f stmts st).
Proof.
  intros Hext Htot. induction stmts as [|stmt rest IH]; intros st Hm; simpl.
  - by eexists.
  - assert (is_Some (visitStmt rec p f stmt st)) as [st1 V].
    { unfold visitStmt.
      destruct (callee_name stmt) as [name|]; [|by eexists].
      destruct (Program_Function (st_heap st) p name) as [child|] eqn:L;
        [|by eexists].
      destruct (st_known st !! Name (st_heap st child)); [by eexists|].
      apply lookup_func_Some in L as [Hc _].
      destruct (Htot child st Hc Hm) as [s' ->]. by eexists. }
    rewrite V. apply IH.
    pose proof (unvisited_mono _ _ (visitStmt_extends p _ _ _ _ _ Hext V)).
    lia.
Qed.

Lemma findEmptyFunc_total fuel : forall f st,
  f ∈ Funcs p -> (size (unvisited p st) < fuel)%nat ->
  is_Some (findEmptyFunc fuel p f st).
Proof.
  induction fuel as [|fuel IH]; intros f st Hf Hm; [lia|]. simpl.
  destruct (st_known st !! Name (st_heap st f)) eqn:K; [by eexists|].
  pose proof (unvisited_enter st f Hf K) as Hlt.
  apply (visitStmts_total _ (fuel - 1)).
  - apply findEmptyFunc_extends.
  - intros c s Hc Hs. apply IH; [done|lia].
  - lia.
Qed.

Lemma findEmptyFunc_total_root fuel f st :
  (size (unvisited p st) + 1 < fuel)%nat ->
  is_Some (findEmptyFunc fuel p f st).
Proof.
  destruct fuel as [|fuel]; [lia|]. intros Hm. simpl.
  destruct (st_known st !! Name (st_heap st f)) eqn:K; [by eexists|].
  apply (visitStmts_total _ (size (unvisited p st))).
  - apply findEmptyFunc_extends.
  - intros c s Hc Hs. apply findEmptyFunc_total; [done|lia].
  - apply subseteq_size. unfold unvisited. simpl. rewrite dom_insert_L.
    set_solver.
Qed.

Lemma visitStmts_rec_mono rec rec' f stmts : forall st st',
  (forall c s s', rec c s = Some s' -> rec' c s = Some s') ->
  visitStmts rec p f stmts st = Some st' ->
  visitStmts rec' p f stmts st = Some st'.
Proof.
  induction stmts as [|stmt rest IH]; intros st st' Hrec; simpl; [done|].
  destruct (visitStmt rec p f stmt st) as [st1|] eqn:V; [|done].
  assert (visitStmt rec' p f stmt st = Some st1) as ->.
  { revert V. unfold visitStmt.
    destruct (callee_name stmt); [|done].
    destruct (Program_Function (st_heap st) p s); [|done].
    destruct (st_known st !! Name (st_heap st p0)); [done|].
    destruct (rec p0 st) as [s1|] eqn:R; [|done].
    by rewrite (Hrec _ _ _ R). }
  by apply IH.
Qed.

Lemma findEmptyFunc_fuel_mono fuel (k : nat) : forall f st st',
  findEmptyFunc fuel p f st = Some st' ->
  findEmptyFunc (fuel + k) p f st = Some st'.
Proof.
  induction fuel as [|fuel IH]; intros f st st'; simpl; [done|].
  destruct (st_known st !! Name (st_heap st f)); [done|].
  apply visitStmts_rec_mono. exact IH.
Qed.
End Termination.

Lemma findEmptyFuncMain_total (h : heap) (p : Program) (root : ptr) (k : nat) :
  is_Some (findEmptyFuncMain (enough_fuel p + k) h p root).
Proof.
  unfold findEmptyFuncMain.
  destruct (findEmptyFunc_total_root p (enough_fuel p + k) root
              {| st_heap := h; st_known := ∅; st_entered := [] |}) as [st E].
  - unfold unvisited, enough_fuel. simpl.
    pose proof (size_list_to_set_le (names h (Funcs p))) as Hle.
    unfold names in Hle. rewrite length_fmap in Hle.
    assert (size (list_to_set (names h (Funcs p)) ∖ dom (∅ : gmap string bool))
            <= size (list_to_set (names h (Funcs p)) : gset string))%nat
      by (apply subseteq_size; set_solver).
    unfold names in *. lia.
  - rewrite E. by eexists.
Qed.

Lemma findEmptyFuncMain_extends (fuel : nat) (h : heap) (p : Program)
    (root : ptr) (st : astate) :
  findEmptyFuncMain fuel h p root = Some st ->
  exists st0,
    extends {| st_heap := h; st_known := ∅; st_entered := [] |} st0 /\
    st_heap st = upd (st_heap st0) root (set_HasComm (st_heap st0 root) true) /\
    st_entered st = st_entered st0.
Proof.
  unfold findEmptyFuncMain.
  destruct (findEmptyFunc fuel p root _) as [st0|] eqn:E; [|done].
  intros [= <-]. exists st0. split; [|done].
  by apply findEmptyFunc_extends in E.
Qed.

(** C4. The analysis terminates on every program and every root, cycles in
    the call graph or not: with the fuel [enough_fuel p], or any larger
    amount, [findEmptyFuncMain] returns.  The functions whose body was
    entered are distinct, by address and even by name.  A function whose name
    the memo map holds is not entered: the call on it returns at once, with
    nothing changed, and a call or spawn statement that targets it takes the
    value from the memo map without making the recursive call. *)
Theorem findEmptyFuncMain_terminates (h : heap) (p : Program) (root : ptr)
    (k fuel : nat) (f child : ptr) (st : astate) (stmt : Statement)
    (name : string) (b : bool)
    (rec : ptr -> astate -> option astate) :
  (exists st',
     findEmptyFuncMain (enough_fuel p + k) h p root = Some st' /\
     findEmptyFuncMain (enough_fuel p) h p root = Some st' /\
     NoDup (names h (st_entered st')) /\
     NoDup (st_entered st')) /\
  (st_known st !! Name (st_heap st child) = Some b ->
   findEmptyFunc (S fuel) p child st = Some st) /\
  (callee_name stmt = Some name ->
   Program_Function (st_heap st) p name = Some child ->
   st_known st !! Name (st_heap st child) = Some b ->
   visitStmt rec p f stmt st = Some (absorb f b st)).
Proof.
  split; [|split].
  - destruct (findEmptyFuncMain_total h p root 0) as [st' E].
    rewrite Nat.add_0_r in E. exists st'.
    assert (NoDup (names h (st_entered st'))) as Hnd.
    { apply findEmptyFuncMain_extends in E
        as (st0 & (_ & _ & _ & _ & new & E1 & U & _) & _ & ->).
      simpl in *. rewrite app_nil_r in E1. by rewrite E1. }
    repeat split; [|done|done|by eapply NoDup_fmap_1].
    revert E. unfold findEmptyFuncMain.
    destruct (findEmptyFunc (enough_fuel p) p root _) as [st0|] eqn:E0; [|done].
    by rewrite (findEmptyFunc_fuel_mono p _ k _ _ _ E0).
  - intros K. simpl. by rewrite K.
  - intros Hc Hl K. unfold visitStmt. by rewrite Hc, Hl, K.
Qed.

Lemma findEmptyFuncMain_terminates_witness :
  (exists st',
     findEmptyFuncMain (enough_fuel cyc_prog) cyc_heap cyc_prog 1%nat = Some st' /\
     NoDup (st_entered st')) /\
  findEmptyFunc 1 cyc_prog 0%nat cyc_memo = Some cyc_memo /\
  visitStmt (fun _ _ => None) cyc_prog 1%nat
    (CallStatement "A" [] (at_line 5)) cyc_memo
  = Some (absorb 1%nat false cyc_memo).
Proof.
  destruct (findEmptyFuncMain_terminates cyc_heap cyc_prog 1%nat 0 0
              1%nat 0%nat cyc_memo (CallStatement "A" [] (at_line 5)) "A"
              false (fun _ _ => None)) as ((st' & _ & E & _ & Hnd) & H2 & H3).
  split; [|split].
  - exists st'. split; [exact E|exact Hnd].
  - apply H2. reflexivity.
  - apply H3; reflexivity.
Defined.

Lemma findEmptyFuncMain_root (fuel : nat) (h : heap) (p : Program)
    (root : ptr) (st : astate) :
  findEmptyFuncMain fuel h p root = Some st ->
  HasComm (st_heap st root) = true.
Proof.
  intros H. apply findEmptyFuncMain_extends in H as (st0 & _ & -> & _).
  by rewrite upd_same.
Qed.

Lemma findEmptyFuncMain_sticky (fuel : nat) (h : heap) (p : Program)
    (root q : ptr) (st : astate) :
  findEmptyFuncMain fuel h p root = Some st ->
  HasComm (h q) = true -> HasComm (st_heap st q) = true.
Proof.
  intros H Hq.
  apply findEmptyFuncMain_extends in H as (st0 & (_ & _ & C & _) & -> & _).
  destruct (decide (q = root)) as [->|Hne].
  - by rewrite upd_same.
  - rewrite upd_other by done. by apply C.
Qed.

(** C3. A set [HasComm] stays set: [AddStmts] keeps it, and so do the two
    renderers, which go through [AddStmts]; a run of the analysis, from any
    root and in any state of the memo map, leaves it set on every function
    of the store. *)
Theorem HasComm_sticky (f : Function) (stmts : list Statement)
    (props : Properties) (fuel : nat) (h : heap) (p : Program)
    (root q : ptr) (st st' : astate) :
  (HasComm f = true ->
   HasComm (AddStmts f stmts) = true /\
   HasComm (snd (Function_String f)) = true /\
   HasComm (snd (fst (Function_PrintWithProperties f props))) = true) /\
  (HasComm (h q) = true ->
   findEmptyFuncMain fuel h p root = Some st ->
   HasComm (st_heap st q) = true) /\
  (HasComm (st_heap st q) = true ->
   findEmptyFunc fuel p root st = Some st' ->
   HasComm (st_heap st' q) = true).
Proof.
  split; [|split].
  - intros H. split; [by apply AddStmts_sticky|].
    split; [by apply materialize_sticky|].
    unfold Function_PrintWithProperties.
    destruct (GetProperties props (Pos f)) as [found props1].
    destruct (annotated_lines _ props1) as [body props2]. simpl.
    by apply materialize_sticky.
  - intros Hq H. by eapply findEmptyFuncMain_sticky.
  - intros Hq H. apply findEmptyFunc_extends in H as (_ & _ & C & _).
    by apply C.
Qed.

Lemma HasComm_sticky_witness :
  HasComm (AddStmts cyc_C [TauStatement; TauStatement]) = true /\
  (exists st,
     findEmptyFuncMain (enough_fuel cyc_prog) cyc_heap cyc_prog 1%nat = Some st /\
     HasComm (st_heap st 2%nat) = true) /\
  (exists st',
     findEmptyFunc (enough_fuel cyc_prog) cyc_prog 0%nat
       {| st_heap := cyc_heap; st_known := ∅; st_entered := [] |} = Some st' /\
     HasComm (st_heap st' 2%nat) = true).
Proof.
  destruct (findEmptyFuncMain (enough_fuel cyc_prog) cyc_heap cyc_prog 1%nat)
    as [st|] eqn:E; [|vm_compute in E; discriminate].
  destruct (findEmptyFunc (enough_fuel cyc_prog) cyc_prog 0%nat
              {| st_heap := cyc_heap; st_known := ∅; st_entered := [] |})
    as [st'|] eqn:E'; [|vm_compute in E'; discriminate].
  destruct (HasComm_sticky cyc_C [TauStatement; TauStatement] ∅
              (enough_fuel cyc_prog) cyc_heap cyc_prog 1%nat 2%nat st st)
    as (H1 & H2 & _).
  destruct (HasComm_sticky cyc_C [] ∅
              (enough_fuel cyc_prog) cyc_heap cyc_prog 0%nat 2%nat
              {| st_heap := cyc_heap; st_known := ∅; st_entered := [] |} st')
    as (_ & _ & H3).
  split; [|split].
  - apply H1. reflexivity.
  - exists st. split; [reflexivity|]. apply H2; [reflexivity|exact E].
  - exists st'. split; [reflexivity|]. apply H3; [reflexivity|exact E'].
Defined.

(** C2, on the cyclic call graph [cyc_prog] with [B] as the root.  [A] is
    reached from the root, [A] reaches [C], and [C] calls [A] back: the three
    lie on one cycle, and [C] holds a send and has [HasComm] set from the
    start.  The run ends with the flag of the root and of [C] set and the
    flag of [A] still clear.  [A] is entered while [B] is in progress, reads
    the value [false] that the memo map holds for [B] at that time, and is
    never looked at again after [B] has seen [C]. *)
Theorem findEmptyFuncMain_misses_cycle_member :
  reaches cyc_heap cyc_prog 1%nat 0%nat /\
  reaches cyc_heap cyc_prog 0%nat 2%nat /\
  reaches cyc_heap cyc_prog 2%nat 0%nat /\
  SendStatement "ch" (at_line 9) ∈ Stmts (cyc_heap 2%nat) /\
  HasComm (cyc_heap 2%nat) = true /\
  exists st,
    findEmptyFuncMain (enough_fuel cyc_prog) cyc_heap cyc_prog 1%nat = Some st /\
    HasComm (st_heap st 1%nat) = true /\
    HasComm (st_heap st 2%nat) = true /\
    HasComm (st_heap st 0%nat) = false /\
    st_entered st = [2; 0; 1]%nat.
Proof.
  assert (call_edge cyc_heap cyc_prog 1%nat 0%nat) as E10.
  { exists (CallStatement "A" [] (at_line 5)), "A".
    split; [vm_compute; apply list_elem_of_here|]. split; reflexivity. }
  assert (call_edge cyc_heap cyc_prog 1%nat 2%nat) as E12.
  { exists (CallStatement "C" [] (at_line 6)), "C".
    split; [vm_compute; apply list_elem_of_further, list_elem_of_here|].
    split; reflexivity. }
  assert (call_edge cyc_heap cyc_prog 0%nat 1%nat) as E01.
  { exists (CallStatement "B" [] (at_line 2)), "B".
    split; [vm_compute; apply list_elem_of_here|]. split; reflexivity. }
  assert (call_edge cyc_heap cyc_prog 2%nat 0%nat) as E20.
  { exists (CallStatement "A" [] (at_line 10)), "A".
    split; [vm_compute; apply list_elem_of_further, list_elem_of_here|].
    split; reflexivity. }
  split; [|split; [|split; [|split; [|split]]]].
  - eapply reaches_step; [exact E10|apply reaches_refl].
  - eapply reaches_step; [exact E01|].
    eapply reaches_step; [exact E12|apply reaches_refl].
  - eapply reaches_step; [exact E20|apply reaches_refl].
  - vm_compute. apply list_elem_of_here.
  - reflexivity.
  - destruct (findEmptyFuncMain (enough_fuel cyc_prog) cyc_heap cyc_prog 1%nat)
      as [st|] eqn:E; [|vm_compute in E; discriminate].
    exists st. split; [reflexivity|].
    vm_compute in E. injection E as <-. repeat split; reflexivity.
Qed.

(** With [A] as the root of the same program the run sets all three flags:
    the outcome for a member of the cycle depends on where the traversal
    starts. *)
Example findEmptyFuncMain_from_A :
  exists st,
    findEmptyFuncMain (enough_fuel cyc_prog) cyc_heap cyc_prog 0%nat = Some st /\
    HasComm (st_heap st 0%nat) = true /\
    HasComm (st_heap st 1%nat) = true /\
    HasComm (st_heap st 2%nat) = true.
Proof.
  destruct (findEmptyFuncMain (enough_fuel cyc_prog) cyc_heap cyc_prog 0%nat)
    as [st|] eqn:E; [|vm_compute in E; discriminate].
  exists st. split; [reflexivity|].
  vm_compute in E. injection E as <-. repeat split; reflexivity.
Qed.

(** ** The annotation registry in the annotated rendering *)

Section Registry.
Implicit Types (ps props : Properties) (f : Function) (h : heap).

Lemma Properties_IsEmpty_true ps : Properties_IsEmpty ps = true <-> ps = ∅.
Proof.
  unfold Properties_IsEmpty. rewrite Nat.eqb_eq. apply map_size_empty_iff.
Qed.

Lemma annotated_lines_registry (stmts : list Statement) : forall ps,
  snd (annotated_lines stmts ps)
  = foldl (fun acc l => delete l acc) ps
      ((fun s => Line (Statement_Position s)) <$> stmts).
Proof.
  induction stmts as [|s rest IH]; intros ps; simpl; [done|].
  specialize (IH (delete (Line (Statement_Position s)) ps)).
  destruct (annotated_lines rest _) as [more ps2]. simpl in *. done.
Qed.

Lemma Function_PrintWithProperties_registry f ps :
  snd (Function_PrintWithProperties f ps)
  = foldl (fun acc l => delete l acc) ps (consumed_lines f).
Proof.
  unfold Function_PrintWithProperties, consumed_lines. simpl.
  rewrite <- annotated_lines_registry.
  by destruct (annotated_lines _ _).
Qed.

Lemma foldl_delete_subseteq (ls : list Z) : forall ps,
  foldl (fun acc l => delete l acc) ps ls ⊆ ps.
Proof.
  induction ls as [|l ls IH]; intros ps; simpl; [done|].
  etrans; [apply IH|apply delete_subseteq].
Qed.

Lemma Function_PrintWithProperties_subseteq f ps :
  snd (Function_PrintWithProperties f ps) ⊆ ps.
Proof.
  rewrite Function_PrintWithProperties_registry. apply foldl_delete_subseteq.
Qed.

Lemma annotated_loop_subseteq (fs : list ptr) : forall h ps,
  snd (annotated_loop h fs ps) ⊆ ps.
Proof.
  induction fs as [|f fs IH]; intros h ps; simpl; [done|].
  destruct (printed_in_loop (h f)); [|apply IH].
  pose proof (Function_PrintWithProperties_subseteq (h f) ps) as H1.
  destruct (Function_PrintWithProperties (h f) ps) as [[text f'] ps1].
  specialize (IH (upd h f f') ps1).
  destruct (annotated_loop (upd h f f') fs ps1) as [[more h'] ps2].
  simpl in *. by etrans.
Qed.

Lemma render_annotated_subseteq h (p : Program) (main : ptr) ps :
  snd (render_annotated h p main ps) ⊆ ps.
Proof.
  unfold render_annotated.
  pose proof (Function_PrintWithProperties_subseteq (h main) ps) as H1.
  destruct (Function_PrintWithProperties (h main) ps) as [[text f'] ps1].
  pose proof (annotated_loop_subseteq (Funcs p) (upd h main f') ps1) as H2.
  destruct (annotated_loop _ _ ps1) as [[more h'] ps2].
  simpl in *. by etrans.
Qed.
End Registry.

(** ** The simplification pipeline *)

(** C6. Whatever the three passes do: when a function named [mainName] is
    registered, [SimplifyProgram] runs the tau-function reduction with that
    function excepted, then the removal of unused functions from it, then
    the removal of dead calls; when none is, it runs the tau-function
    reduction with nothing excepted and then the removal of dead calls, and
    the removal of unused functions is not run.  Each pass works on what the
    one before it left, and the program that comes back is the one the last
    pass left. *)
Theorem SimplifyProgram_order
    (taufunc_Find : heap * Program -> strategy -> heap * Program)
    (unused_Remove : heap * Program -> ptr -> heap * Program)
    (deadcall_Remove : heap * Program -> heap * Program)
    (h : heap) (p : Program) :
  (mainName ∈ names h (Funcs p) ->
   exists mainmain,
     Program_Function h p mainName = Some mainmain /\
     SimplifyProgram taufunc_Find unused_Remove deadcall_Remove (h, p)
     = deadcall_Remove
         (unused_Remove (taufunc_Find (h, p) (RemoveExcept mainmain))
            mainmain)) /\
  (mainName ∉ names h (Funcs p) ->
   SimplifyProgram taufunc_Find unused_Remove deadcall_Remove (h, p)
   = deadcall_Remove (taufunc_Find (h, p) Remove)).
Proof.
  unfold SimplifyProgram, Program_Function. simpl. split.
  - intros H. destruct (lookup_func h (Funcs p) mainName) as [m|] eqn:L.
    + by exists m.
    + by apply lookup_func_None in L.
  - intros H. apply lookup_func_None in H. by rewrite H.
Qed.

Lemma SimplifyProgram_order_witness :
  (model_Simplify (scn_heap, scn_prog)
   = model_deadcall_Remove
       (model_unused_Remove
          (model_taufunc_Find (scn_heap, scn_prog) (RemoveExcept 0%nat))
          0%nat) /\
   Funcs (snd (model_Simplify (scn_heap, scn_prog))) = [0%nat] /\
   Stmts (fst (model_Simplify (scn_heap, scn_prog)) 0%nat) = [TauStatement]) /\
  (model_Simplify (scn_heap, scn_prog_noroot)
   = model_deadcall_Remove
       (model_taufunc_Find (scn_heap, scn_prog_noroot) Remove) /\
   Funcs (snd (model_Simplify (scn_heap, scn_prog_noroot))) = [2%nat]).
Proof.
  destruct (SimplifyProgram_order model_taufunc_Find model_unused_Remove
              model_deadcall_Remove scn_heap scn_prog) as [H1 _].
  destruct (SimplifyProgram_order model_taufunc_Find model_unused_Remove
              model_deadcall_Remove scn_heap scn_prog_noroot) as [_ H2].
  split.
  - destruct H1 as (m & Hm & E).
    { apply (bool_decide_unpack _). vm_compute. exact I. }
    injection Hm as <-.
    split; [exact E|]. split; reflexivity.
  - split; [|reflexivity].
    apply H2. apply (bool_decide_unpack _). vm_compute. exact I.
Defined.

(** * Further properties of the code *)

(** ** Classification of a batch *)

Lemma hasComm_stmt_stepped_over (s : Statement) :
  stepped_over s = true <-> hasComm_stmt s = None.
Proof. destruct s; simpl; split; intros H; done. Qed.

Lemma hasComm_app_stepped_over (pre rest : list Statement) :
  forallb stepped_over pre = true -> hasComm (pre ++ rest) = hasComm rest.
Proof.
  induction pre as [|x pre IH]; simpl; [done|].
  intros H. apply andb_true_iff in H as [Hx Hpre].
  apply hasComm_stmt_stepped_over in Hx. rewrite Hx. by apply IH.
Qed.

(** [hasComm] steps over inaction, memory and lock statements: a batch made
    of them only is not communicating, and in front of other statements they
    change nothing.  The first statement of another kind decides, whatever
    follows it. *)
Theorem hasComm_first_decides (pre rest : list Statement) (s : Statement)
    (b : bool) :
  forallb stepped_over pre = true ->
  hasComm pre = false /\
  hasComm (pre ++ rest) = hasComm rest /\
  (hasComm_stmt s = Some b -> hasComm (pre ++ s :: rest) = b).
Proof.
  intros H. split; [|split].
  - rewrite <- (app_nil_r pre). by rewrite hasComm_app_stepped_over.
  - by apply hasComm_app_stepped_over.
  - intros Hs. rewrite hasComm_app_stepped_over by done. simpl. by rewrite Hs.
Qed.

Lemma hasComm_first_decides_witness :
  hasComm [TauStatement; lock_stmt] = false /\
  hasComm ([TauStatement; lock_stmt] ++ [send_stmt]) = true /\
  hasComm ([TauStatement; lock_stmt]
             ++ CallStatement "g" [] noPosition :: [send_stmt]) = false.
Proof.
  destruct (hasComm_first_decides [TauStatement; lock_stmt] [send_stmt]
              (CallStatement "g" [] noPosition) false eq_refl)
    as (H1 & H2 & H3).
  split; [exact H1|]. split; [rewrite H2; reflexivity|].
  apply H3. reflexivity.
Defined.

(** A branch statement ends the scan.  After any number of statements that
    are stepped over, a batch that goes on with an [If] or an [IfFor] is
    communicating exactly when one of the two branches is, and what follows
    the branch is not looked at; one that goes on with a call or a spawn is
    communicating exactly when that statement carries a parameter; one that
    goes on with a channel statement is communicating. *)
Theorem hasComm_head_decides (pre thn els rest : list Statement)
    (c name : string) (params : list Parameter_) (pos : Position)
    (cases : list (list Statement)) (v : NamedVar) (size : Z) :
  forallb stepped_over pre = true ->
  hasComm (pre ++ IfStatement thn els :: rest) = hasComm thn || hasComm els /\
  hasComm (pre ++ IfForStatement c thn els :: rest)
    = hasComm thn || hasComm els /\
  hasComm (pre ++ CallStatement name params pos :: rest)
    = negb (bool_decide (params = [])) /\
  hasComm (pre ++ SpawnStatement name params pos :: rest)
    = negb (bool_decide (params = [])) /\
  hasComm (pre ++ SendStatement c pos :: rest) = true /\
  hasComm (pre ++ RecvStatement c pos :: rest) = true /\
  hasComm (pre ++ CloseStatement c pos :: rest) = true /\
  hasComm (pre ++ SelectStatement cases pos :: rest) = true /\
  hasComm (pre ++ NewChanStatement v c size pos :: rest) = true.
Proof.
  intros H. rewrite !(hasComm_app_stepped_over pre) by done.
  repeat split; try reflexivity; destruct params; reflexivity.
Qed.

Lemma hasComm_head_decides_witness :
  hasComm ([lock_stmt] ++ IfStatement [TauStatement] [] :: [send_stmt])
  = false.
Proof.
  destruct (hasComm_head_decides [lock_stmt] [TauStatement] [] [send_stmt]
              "c" "g" [] noPosition [] var_x 0 eq_refl) as [H _].
  rewrite H. reflexivity.
Defined.

(** ** Sequences of AddStmts calls *)

Lemma AddStmts_other_fields (f : Function) (stmts : list Statement) :
  Pos (AddStmts f stmts) = Pos f /\
  stack (AddStmts f stmts) = stack f /\
  varIdx (AddStmts f stmts) = varIdx f.
Proof. unfold AddStmts. repeat case_match; done. Qed.

Lemma AddStmts_flag_cases (f : Function) (stmts : list Statement) :
  HasComm (AddStmts f stmts) = HasComm f \/
  (HasComm (AddStmts f stmts) = true /\ hasComm stmts = true).
Proof.
  unfold AddStmts. destruct (_ && is_Tau _); [by left|].
  destruct (HasComm f) eqn:E; simpl; [left; by rewrite E|].
  destruct (hasComm stmts) eqn:B; simpl; [by right|left; by rewrite E].
Qed.

Lemma AddStmts_Tau_free (f : Function) (stmts : list Statement) :
  Tau_free (Stmts f) = true ->
  HasComm (AddStmts f stmts) = HasComm f || hasComm stmts.
Proof.
  intros H. unfold AddStmts.
  assert (is_Tau (nth (length (Stmts f) - 1) (Stmts f) TauStatement) = true ->
          Stmts f = []) as Hnth.
  { destruct (Stmts f) as [|x l] eqn:E; [done|]. intros HT. exfalso.
    unfold Tau_free in H. rewrite forallb_forall in H.
    assert (In (nth (length (x :: l) - 1) (x :: l) TauStatement) (x :: l))
      as Hin by (apply nth_In; simpl; lia).
    apply H in Hin. rewrite HT in Hin. done. }
  destruct (is_Tau _) eqn:HT.
  - rewrite (Hnth eq_refl). simpl.
    destruct (HasComm f) eqn:E; simpl; [by rewrite E|].
    destruct (hasComm stmts); simpl; [done|by rewrite E].
  - rewrite andb_false_r.
    destruct (HasComm f) eqn:E; simpl; [by rewrite E|].
    destruct (hasComm stmts); simpl; [done|by rewrite E].
Qed.

(** However the statements of a function are handed to [AddStmts], batch by
    batch, the body ends up as the old body followed by all batches in
    order, nothing dropped and nothing moved; the name, the parameters and
    the position are those of the function the calls started from. *)
Theorem AddStmts_all_appends (batches : list (list Statement)) (f : Function) :
  Stmts (AddStmts_all f batches) = Stmts f ++ concat batches /\
  Name (AddStmts_all f batches) = Name f /\
  Params (AddStmts_all f batches) = Params f /\
  Pos (AddStmts_all f batches) = Pos f.
Proof.
  unfold AddStmts_all. revert f.
  induction batches as [|b batches IH]; intros f; simpl.
  - by rewrite app_nil_r.
  - destruct (IH (AddStmts f b)) as (H1 & H2 & H3 & H4).
    rewrite H1, H2, H3, H4, AddStmts_Stmts, AddStmts_Name, AddStmts_Params.
    destruct (AddStmts_other_fields f b) as (-> & _).
    by rewrite app_assoc.
Qed.

(** The flag is never set without a reason: after any sequence of
    [AddStmts] calls [HasComm] is set only if it was set before or one of the
    batches is classified as communicating.  When neither the old body nor a
    batch holds a [Tau] at its top level, the test is never skipped and the
    flag is exactly the old flag or-ed with the classification of the
    batches. *)
Theorem AddStmts_all_flag (batches : list (list Statement)) (f : Function) :
  (HasComm (AddStmts_all f batches) = true ->
   HasComm f = true \/ exists b, b ∈ batches /\ hasComm b = true) /\
  (Tau_free (Stmts f) = true -> forallb Tau_free batches = true ->
   HasComm (AddStmts_all f batches) = HasComm f || existsb hasComm batches).
Proof.
  unfold AddStmts_all. revert f.
  induction batches as [|b batches IH]; intros f; simpl.
  - split; [by left|]. intros _ _. by rewrite orb_false_r.
  - destruct (IH (AddStmts f b)) as [IH1 IH2]. split.
    + intros H. destruct (IH1 H) as [H1|(b' & Hb' & Hc)].
      * destruct (AddStmts_flag_cases f b) as [E|[_ E]].
        -- left. by rewrite <- E.
        -- right. exists b. split; [left|done].
      * right. exists b'. split; [by right|done].
    + intros HT HB. apply andb_true_iff in HB as [Hb HB].
      rewrite IH2; [|by rewrite AddStmts_Stmts; unfold Tau_free in *;
                        rewrite forallb_app, HT, Hb|done].
      by rewrite AddStmts_Tau_free, orb_assoc.
Qed.

Lemma AddStmts_all_flag_witness :
  (HasComm (AddStmts_all (NewFunction "f" noPosition)
              [[lock_stmt]; [send_stmt]]) = true /\
   (HasComm (NewFunction "f" noPosition) = true \/
    exists b, b ∈ [[lock_stmt]; [send_stmt]] /\ hasComm b = true)) /\
  HasComm (AddStmts_all (NewFunction "f" noPosition) [[lock_stmt]; [send_stmt]])
  = HasComm (NewFunction "f" noPosition)
    || existsb hasComm [[lock_stmt]; [send_stmt]].
Proof.
  destruct (AddStmts_all_flag [[lock_stmt]; [send_stmt]]
              (NewFunction "f" noPosition)) as [H1 H2].
  split; [split; [reflexivity|apply H1; reflexivity]|].
  apply H2; reflexivity.
Defined.


(** ** Strings in the output *)

Lemma str_app_cons (a : ascii) (s t : string) :
  String a s +:+ t = String a (s +:+ t).
Proof. reflexivity. Qed.

Lemma str_app_nil_r (s : string) : s +:+ EmptyString = s.
Proof. induction s as [|a s IH]; [done|]. by rewrite str_app_cons, IH. Qed.

Lemma str_app_assoc (s t u : string) : (s +:+ t) +:+ u = s +:+ (t +:+ u).
Proof. induction s as [|a s IH]; [done|]. by rewrite !str_app_cons, IH. Qed.

Lemma str_app_length (s t : string) :
  String.length (s +:+ t) = (String.length s + String.length t)%nat.
Proof.
  induction s as [|a s IH]; [done|]. rewrite str_app_cons. simpl. by rewrite IH.
Qed.

Lemma paramString_from_shift (proj : Parameter_ -> string) (params : list Parameter_) :
  forall i j : nat, paramString_from proj (S i) params = paramString_from proj (S j) params.
Proof.
  induction params as [|q params IH]; intros i j; simpl; [done|].
  by rewrite (IH (S i) (S j)).
Qed.

Lemma paramString_from_join (proj : Parameter_ -> string) (params : list Parameter_) (q : Parameter_) :
  String.concat ", " (proj <$> q :: params)
  = proj q +:+ paramString_from proj 1 params.
Proof.
  revert q. induction params as [|r params IH]; intros q.
  - simpl. by rewrite str_app_nil_r.
  - change (String.concat ", " (proj <$> q :: r :: params))
      with (proj q +:+ ", " +:+ String.concat ", " (proj <$> r :: params)).
    rewrite IH. simpl paramString_from.
    rewrite (paramString_from_shift proj params 1 0).
    by rewrite !str_app_assoc.
Qed.

(** The two parameter strings are the names joined by a comma and a space:
    nothing before the first name, nothing after the last, and the empty
    string for no parameters. *)
Theorem ParameterString_join (params : list Parameter_) :
  CalleeParameterString params
  = String.concat ", " ((fun p => nv_Name (Callee p)) <$> params) /\
  CallerParameterString params
  = String.concat ", " ((fun p => nv_Name (Caller p)) <$> params).
Proof.
  unfold CalleeParameterString, CallerParameterString.
  destruct params as [|q params]; [done|].
  rewrite !paramString_from_join. done.
Qed.

Lemma nameFilter_app (s t : string) :
  nameFilter (s +:+ t) = nameFilter s +:+ nameFilter t.
Proof.
  induction s as [|a s IH]; [done|].
  rewrite str_app_cons. simpl. by rewrite IH, str_app_assoc.
Qed.

Lemma nameFilter_fixed (s : string) :
  (forall c, is_excluded c = true -> string_mem c s = false) ->
  nameFilter s = s.
Proof.
  induction s as [|a s IH]; intros H; [done|]. simpl.
  rewrite IH.
  2:{ intros c Hc. specialize (H c Hc). simpl in H.
      by apply orb_false_iff in H as [_ ?]. }
  assert (is_excluded a = false) as Ha.
  { destruct (is_excluded a) eqn:E; [|done].
    specialize (H a E). simpl in H. by rewrite Ascii.eqb_refl in H. }
  unfold is_excluded, excluded_chars in Ha. simpl in Ha.
  repeat (apply orb_false_iff in Ha as [? Ha]).
  unfold nameFilter_byte.
  repeat match goal with H : Ascii.eqb a _ = false |- _ => rewrite H; clear H end.
  reflexivity.
Qed.

Lemma nameFilter_byte_length (a : ascii) :
  (String.length (nameFilter_byte a) <= 1)%nat.
Proof. unfold nameFilter_byte. repeat case_match; simpl; lia. Qed.

(** Filtering a name twice is filtering it once; the filter works on each
    part of a name by itself; and it never makes a name longer. *)
Theorem nameFilter_idempotent (s t : string) :
  nameFilter (nameFilter s) = nameFilter s /\
  nameFilter (s +:+ t) = nameFilter s +:+ nameFilter t /\
  (String.length (nameFilter s) <= String.length s)%nat.
Proof.
  split; [|split].
  - apply nameFilter_fixed. intros c Hc. by apply nameFilter_clean.
  - apply nameFilter_app.
  - clear t. induction s as [|a s IH]; [done|]. simpl.
    rewrite str_app_length. pose proof (nameFilter_byte_length a). lia.
Qed.

(** ** The plain renderers *)

Lemma materialize_Stmts_nonempty (f : Function) : Stmts (materialize f) <> [].
Proof.
  destruct (Stmts f) eqn:E.
  - by rewrite (materialize_empty _ E).
  - rewrite materialize_nonempty; by rewrite E.
Qed.

Lemma materialize_header (f : Function) : header (materialize f) = header f.
Proof.
  unfold materialize. case_match; [|done].
  unfold header, SimpleName. by rewrite AddStmts_Name, AddStmts_Params.
Qed.

Lemma Function_String_nonempty (f : Function) :
  Stmts f <> [] -> Function_String f = (function_text f, f).
Proof.
  intros H. unfold Function_String. by rewrite (materialize_nonempty _ H).
Qed.

(** Rendering a function twice gives the same text twice, and the second
    call changes nothing: the [Tau] that the first call may have put into an
    empty body is what both calls print.  A function with a body is left as
    it is by the first call already. *)
Theorem Function_String_again (f : Function) :
  Function_String (snd (Function_String f)) = Function_String f /\
  (Stmts f <> [] -> Function_String f = (function_text f, f)).
Proof.
  split; [|apply Function_String_nonempty].
  unfold Function_String. simpl. rewrite materialize_header.
  by rewrite (materialize_nonempty _ (materialize_Stmts_nonempty f)).
Qed.

Lemma Function_String_again_witness :
  Function_String fn_lock = (function_text fn_lock, fn_lock).
Proof.
  apply (proj2 (Function_String_again fn_lock)). vm_compute. discriminate.
Defined.

Lemma Program_String_loop_spec (fs : list ptr) : forall h h' : heap,
  (forall q, h' q = h q) ->
  fst (Program_String_loop h' fs)
  = join_texts
      ((fun f => function_text (h f))
         <$> filter (fun f => IsEmpty (h f) = false) fs) /\
  forall q, snd (Program_String_loop h' fs) q = h q.
Proof.
  induction fs as [|f fs IH]; intros h h' Hh; [done|].
  rewrite filter_cons. cbn [Program_String_loop]. rewrite Hh.
  destruct (decide (IsEmpty (h f) = false)) as [E|E].
  - rewrite E. cbn [negb].
    assert (Stmts (h f) <> []) as Hne.
    { unfold IsEmpty in E. apply Nat.eqb_neq in E.
      by destruct (Stmts (h f)). }
    rewrite (Function_String_nonempty _ Hne).
    destruct (IH h (upd h' f (h f))) as [IH1 IH2].
    { intros q. destruct (decide (q = f)) as [->|Hq];
        [by rewrite upd_same|by rewrite upd_other]. }
    destruct (Program_String_loop (upd h' f (h f)) fs) as [more h''].
    simpl in *. rewrite IH1. split; [reflexivity|exact IH2].
  - apply not_false_is_true in E. rewrite E. cbn [negb]. by apply IH.
Qed.

(** The plain rendering of a program is read-only: every function is after
    the call what it was before, and a function without statements stays
    without statements.  The text is made of the functions that have a body,
    in registration order; the others leave no trace in it.  Rendering again
    gives the same text. *)
Theorem Program_String_readonly (h : heap) (p : Program) :
  (forall q, snd (Program_String h p) q = h q) /\
  fst (Program_String h p)
  = join_texts
      ((fun f => function_text (h f))
         <$> filter (fun f => IsEmpty (h f) = false) (Funcs p)) /\
  fst (Program_String (snd (Program_String h p)) p) = fst (Program_String h p).
Proof.
  unfold Program_String.
  destruct (Program_String_loop_spec (Funcs p) h h) as [H1 H2]; [done|].
  split; [exact H2|]. split; [exact H1|].
  destruct (Program_String_loop_spec (Funcs p) h
              (snd (Program_String_loop h (Funcs p)))) as [H3 _]; [exact H2|].
  by rewrite H3, H1.
Qed.

(** ** The registry and the annotated renderer of a function *)

(** Reading a line hands out what was added for it, in the order of the
    additions, and removes it: a second read of the same line finds nothing.
    A line that was never added reads as the empty list and leaves the
    registry as it is, and a read never touches another line. *)
Theorem Properties_read_once (ps : Properties) (prop : list string)
    (position : Position) (l : Z) :
  GetProperties (AddProperties ps prop (Line position)) position
  = (default [] (ps !! Line position) ++ prop, delete (Line position) ps) /\
  fst (GetProperties (snd (GetProperties ps position)) position) = [] /\
  (ps !! Line position = None -> GetProperties ps position = ([], ps)) /\
  (l <> Line position ->
   snd (GetProperties ps position) !! l = ps !! l).
Proof.
  unfold GetProperties, AddProperties. simpl. repeat split.
  - by rewrite lookup_insert_eq, delete_insert_eq.
  - by rewrite lookup_delete_eq.
  - intros H. rewrite H. simpl. by rewrite delete_id.
  - intros H. by rewrite lookup_delete_ne.
Qed.

Lemma Properties_read_once_witness :
  GetProperties props_stray (at_line 7) = ([], props_stray) /\
  snd (GetProperties props_stray (at_line 99)) !! 10
  = Some ["// reviewed"].
Proof.
  destruct (Properties_read_once props_stray [] (at_line 7) 10)
    as (_ & _ & H3 & _).
  destruct (Properties_read_once props_stray [] (at_line 99) 10)
    as (_ & _ & _ & H4).
  split; [apply H3; reflexivity|].
  rewrite H4 by done. reflexivity.
Defined.

Lemma lookup_foldl_delete (ls : list Z) : forall (ps : Properties) (l : Z),
  foldl (fun acc k => delete k acc) ps ls !! l
  = if bool_decide (l ∈ ls) then None else ps !! l.
Proof.
  induction ls as [|k ls IH]; intros ps l; simpl; [done|].
  rewrite IH. destruct (decide (l ∈ ls)) as [Hin|Hin].
  - rewrite !bool_decide_eq_true_2; [done| |done]. by right.
  - rewrite (bool_decide_eq_false_2 (l ∈ ls)) by done.
    destruct (decide (l = k)) as [->|Hne].
    + rewrite bool_decide_eq_true_2 by left. apply lookup_delete_eq.
    + rewrite bool_decide_eq_false_2.
      * by apply lookup_delete_ne.
      * intros H. apply elem_of_cons in H as [?|?]; done.
Qed.

(** The annotated rendering of a function takes from the registry the line
    of the function and the lines of its top-level statements, and leaves
    every other line as it was.  The statements without a position of their
    own ([Tau], the two branch statements) stand on line 0: rendering a
    function without statements, which gets a [Tau], takes line 0 too. *)
Theorem Function_PrintWithProperties_consumes (f : Function)
    (props : Properties) (l : Z) :
  snd (Function_PrintWithProperties f props) !! l
  = (if bool_decide (l ∈ consumed_lines f) then None else props !! l) /\
  snd (Function_PrintWithProperties f props) !! Line (Pos f) = None /\
  (Stmts f = [] -> snd (Function_PrintWithProperties f props) !! 0 = None).
Proof.
  rewrite Function_PrintWithProperties_registry. split; [|split].
  - apply lookup_foldl_delete.
  - rewrite lookup_foldl_delete, bool_decide_eq_true_2; [done|].
    unfold consumed_lines. left.
  - intros H. rewrite lookup_foldl_delete, bool_decide_eq_true_2; [done|].
    unfold consumed_lines. rewrite (materialize_empty _ H). simpl.
    right. left.
Qed.

Lemma Function_PrintWithProperties_consumes_witness :
  snd (Function_PrintWithProperties (NewFunction "f" (at_line 4))
         {[ 0 := ["// top"] ]}) !! 0 = None.
Proof.
  apply (Function_PrintWithProperties_consumes
           (NewFunction "f" (at_line 4)) {[ 0 := ["// top"] ]} 0).
  reflexivity.
Defined.

Lemma annotated_lines_plain (stmts : list Statement) (props : Properties) :
  (forall s, s ∈ stmts -> props !! Line (Statement_Position s) = None) ->
  annotated_lines stmts props = (body_lines stmts, props).
Proof.
  induction stmts as [|s rest IH]; intros H; simpl; [done|].
  rewrite (H s) by left. simpl. rewrite delete_id by (apply H; left).
  rewrite IH by (intros s' Hs'; apply H; by right). done.
Qed.

(** When the registry holds nothing for the line of a function and for the
    lines of its statements, the annotated rendering of the function is its
    plain rendering: the same text, the same effect on the function, and the
    registry untouched. *)
Theorem Function_PrintWithProperties_plain (f : Function)
    (props : Properties) :
  (forall l, l ∈ consumed_lines f -> props !! l = None) ->
  Function_PrintWithProperties f props
  = (fst (Function_String f), snd (Function_String f), props).
Proof.
  intros H. unfold Function_PrintWithProperties, Function_String, GetProperties.
  rewrite (H (Line (Pos f))) by left. simpl.
  rewrite delete_id by (apply H; left).
  rewrite annotated_lines_plain; [done|].
  intros s Hs. apply H. right. apply list_elem_of_fmap. by exists s.
Qed.

Lemma Function_PrintWithProperties_plain_witness :
  Function_PrintWithProperties scn_helper props_matching
  = (fst (Function_String scn_helper), snd (Function_String scn_helper),
     props_matching).
Proof.
  apply (Function_PrintWithProperties_plain scn_helper props_matching).
  intros l Hl. vm_compute in Hl.
  apply elem_of_cons in Hl as [->|Hl]; [reflexivity|].
  apply elem_of_cons in Hl as [->|Hl]; [reflexivity|].
  by apply elem_of_nil in Hl.
Defined.

(** ** Parameters *)

Section AddParams_facts.
Context {P : Type}.
Variable clash : P -> P -> bool.
Implicit Types (present params : list P).

Lemma found_in_true present param :
  found_in clash present param = true <->
  exists p, p ∈ present /\ clash p param = true.
Proof.
  unfold found_in. rewrite existsb_exists. split.
  - intros (p & Hp & Hc). exists p. split; [by apply list_elem_of_In|done].
  - intros (p & Hp & Hc). exists p. split; [by apply list_elem_of_In|done].
Qed.

Lemma clash_free_snoc present param :
  clash_free clash present ->
  found_in clash present param = false ->
  clash_free clash (present ++ [param]).
Proof.
  intros Hfree Hnot i j p q Hij Hi Hj.
  pose proof (lookup_lt_Some _ _ _ Hj) as Hlen.
  rewrite length_app in Hlen. simpl in Hlen.
  rewrite lookup_app_l in Hi by lia.
  destruct (decide (j < length present)%nat) as [Hlt|Hge].
  - rewrite lookup_app_l in Hj by lia. exact (Hfree i j p q Hij Hi Hj).
  - rewrite lookup_app_r in Hj by lia.
    replace (j - length present)%nat with 0%nat in Hj by lia.
    injection Hj as <-.
    destruct (clash p param) eqn:E; [|done].
    assert (found_in clash present param = true) as Hf; [|congruence].
    apply found_in_true. exists p. split; [|done].
    by eapply list_elem_of_lookup_2.
Qed.

Lemma AddParams_loop_prefix params : forall present,
  present `prefix_of` AddParams_loop clash present params.
Proof.
  induction params as [|param rest IH]; intros present; simpl; [done|].
  etrans; [|apply IH]. case_match; [done|]. by apply prefix_app_r.
Qed.

Lemma AddParams_loop_sublist params : forall present,
  AddParams_loop clash present params `sublist_of` present ++ params.
Proof.
  induction params as [|param rest IH]; intros present; simpl.
  - by rewrite app_nil_r.
  - etrans; [apply IH|].
    replace (present ++ param :: rest) with ((present ++ [param]) ++ rest)
      by (by rewrite <- app_assoc).
    apply sublist_app; [|done]. case_match; [|done].
    by apply sublist_inserts_r.
Qed.

Lemma AddParams_loop_clash_free params : forall present,
  clash_free clash present ->
  clash_free clash (AddParams_loop clash present params).
Proof.
  induction params as [|param rest IH]; intros present H; simpl; [done|].
  apply IH. destruct (found_in clash present param) eqn:E; [done|].
  by apply clash_free_snoc.
Qed.

Lemma AddParams_loop_covers params : forall present param,
  param ∈ params ->
  param ∈ AddParams_loop clash present params \/
  exists p, p ∈ AddParams_loop clash present params /\ clash p param = true.
Proof.
  induction params as [|x rest IH]; intros present param Hin;
    [by apply elem_of_nil in Hin|].
  simpl. apply elem_of_cons in Hin as [->|Hin]; [|by apply IH].
  pose proof (AddParams_loop_prefix rest
                (if found_in clash present x then present
                 else present ++ [x])) as [k Hk].
  rewrite Hk. destruct (found_in clash present x) eqn:E.
  - right. apply found_in_true in E as (p & Hp & Hc).
    exists p. split; [|done]. apply elem_of_app. by left.
  - left. rewrite !elem_of_app. left. right. left.
Qed.

Lemma AddParams_loop_settled params : forall present present',
  (forall param, param ∈ params ->
     found_in clash present' param = true) ->
  present `prefix_of` present' ->
  AddParams_loop clash present' params = present'.
Proof.
  induction params as [|x rest IH]; intros present present' H Hp; simpl;
    [done|].
  rewrite (H x) by left. apply (IH present); [|done].
  intros param Hin. apply H. by right.
Qed.
End AddParams_facts.

(** The loop shared by the three [AddParams] methods, for any comparison.
    The parameters that were present stay at the front, in their order, and
    the result keeps the order of the call.  Every parameter offered is in
    the result or clashes with one that is.  If no parameter present clashed
    with a later one, the same holds of the result.  When the comparison
    makes every parameter clash with itself, offering the same parameters
    once more changes nothing. *)
Theorem AddParams_loop_unique {P : Type} (clash : P -> P -> bool)
    (present params : list P) :
  present `prefix_of` AddParams_loop clash present params /\
  AddParams_loop clash present params `sublist_of` present ++ params /\
  (forall param, param ∈ params ->
     param ∈ AddParams_loop clash present params \/
     exists p, p ∈ AddParams_loop clash present params /\
               clash p param = true) /\
  (clash_free clash present ->
   clash_free clash (AddParams_loop clash present params)) /\
  ((forall p, clash p p = true) ->
   AddParams_loop clash (AddParams_loop clash present params) params
   = AddParams_loop clash present params).
Proof.
  split; [apply AddParams_loop_prefix|].
  split; [apply AddParams_loop_sublist|].
  split; [apply AddParams_loop_covers|].
  split; [apply AddParams_loop_clash_free|].
  intros Hrefl. apply (AddParams_loop_settled clash params present);
    [|apply AddParams_loop_prefix].
  intros param Hin. apply found_in_true.
  destruct (AddParams_loop_covers clash params present param Hin)
    as [H|(p & Hp & Hc)]; [by exists param|by exists p].
Qed.

Lemma eqv_names_refl (x : NamedVar) : eqv_names x x = true.
Proof. unfold eqv_names. by rewrite !String.eqb_refl. Qed.

Lemma clash_free_singleton {P : Type} (clash : P -> P -> bool) (p : P) :
  clash_free clash [p].
Proof.
  intros i j a b Hij Hi Hj. apply lookup_lt_Some in Hj. simpl in Hj.
  apply lookup_lt_Some in Hi. simpl in Hi. lia.
Qed.

Lemma AddParams_loop_unique_witness :
  AddParams_loop (sides_clash eqv_names) [bind_xy] [bind_zy; bind_zx]
  = [bind_xy; bind_zx] /\
  clash_free (sides_clash eqv_names)
    (AddParams_loop (sides_clash eqv_names) [bind_xy] [bind_zy; bind_zx]) /\
  AddParams_loop (sides_clash eqv_names)
    (AddParams_loop (sides_clash eqv_names) [bind_xy] [bind_zy; bind_zx])
    [bind_zy; bind_zx]
  = AddParams_loop (sides_clash eqv_names) [bind_xy] [bind_zy; bind_zx].
Proof.
  destruct (AddParams_loop_unique (sides_clash eqv_names) [bind_xy]
              [bind_zy; bind_zx]) as (_ & _ & _ & H4 & H5).
  split; [reflexivity|]. split.
  - apply H4. apply clash_free_singleton.
  - apply H5. intros p. unfold sides_clash. by rewrite eqv_names_refl.
Defined.

(** ** Lookup by name *)

Lemma lookup_func_first (h : heap) (fs : list ptr) (name : string) (g : ptr) :
  lookup_func h fs name = Some g ->
  exists i : nat, fs !! i = Some g /\
    forall (j : nat) (q : ptr), (j < i)%nat -> fs !! j = Some q ->
                                Name (h q) <> name.
Proof.
  induction fs as [|x fs IH]; simpl; [done|].
  destruct (String.eqb (Name (h x)) name) eqn:E.
  - intros [= <-]. exists 0%nat. split; [done|]. intros j q Hj. lia.
  - intros H. destruct (IH H) as (i & Hi & Hfirst). exists (S i).
    split; [done|]. intros [|j] q Hj Hq; simpl in Hq.
    + injection Hq as <-. by apply String.eqb_neq.
    + apply (Hfirst j); [lia|done].
Qed.

(** [Program.Function] finds a registered function that carries the name,
    and of several the one registered first; it fails exactly when no
    registered function carries the name.  After [AddFunction] the name of
    the function offered is always found, and every other name is looked up
    as before. *)
Theorem Program_Function_first (h : heap) (p : Program) (name : string)
    (f g : ptr) :
  (Program_Function h p name = Some g ->
   Name (h g) = name /\
   exists i : nat, Funcs p !! i = Some g /\
     forall (j : nat) (q : ptr), (j < i)%nat -> Funcs p !! j = Some q ->
                                 Name (h q) <> name) /\
  (Program_Function h p name = None <-> name ∉ names h (Funcs p)) /\
  (exists g', Program_Function h (AddFunction h p f) (Name (h f)) = Some g' /\
              Name (h g') = Name (h f)) /\
  (name <> Name (h f) ->
   Program_Function h (AddFunction h p f) name = Program_Function h p name).
Proof.
  unfold Program_Function. split; [|split; [|split]].
  - intros H. split; [by apply lookup_func_Some in H as [_ ?]|].
    by apply lookup_func_first.
  - apply lookup_func_None.
  - destruct (lookup_func h (Funcs (AddFunction h p f)) (Name (h f)))
      as [g'|] eqn:E.
    + exists g'. split; [done|]. by apply lookup_func_Some in E as [_ ?].
    + exfalso. rewrite AddFunction_lookup, lookup_func_app in E.
      destruct (lookup_func h (Funcs p) (Name (h f))); [done|].
      simpl in E. by rewrite String.eqb_refl in E.
  - intros Hne. rewrite AddFunction_lookup, lookup_func_app.
    destruct (lookup_func h (Funcs p) name); [done|]. simpl.
    apply not_eq_sym in Hne. apply String.eqb_neq in Hne. by rewrite Hne.
Qed.

Lemma Program_Function_first_witness :
  Program_Function reg_heap (AddFunction reg_heap reg_prog 2%nat) "f"
  = Some 0%nat /\
  Program_Function reg_heap (AddFunction reg_heap reg_prog 3%nat) "g"
  = Some 1%nat.
Proof.
  destruct (Program_Function_first reg_heap
              (AddFunction reg_heap reg_prog 2%nat) "f" 2%nat 0%nat)
    as (H1 & _).
  destruct (Program_Function_first reg_heap reg_prog "g" 3%nat 1%nat)
    as (_ & _ & _ & H4).
  split.
  - destruct (H1 eq_refl) as [_ _]. reflexivity.
  - rewrite H4 by done. reflexivity.
Defined.

(** ** The functions left out of the annotated rendering *)

Lemma printed_in_loop_Name (f g : Function) :
  Name f = Name g -> printed_in_loop f = printed_in_loop g.
Proof. intros H. unfold printed_in_loop, SimpleName. by rewrite H. Qed.

Lemma Function_PrintWithProperties_Name (f : Function) (props : Properties) :
  Name (snd (fst (Function_PrintWithProperties f props))) = Name f.
Proof.
  unfold Function_PrintWithProperties.
  destruct (GetProperties props (Pos f)) as [found props1].
  destruct (annotated_lines _ props1) as [body props2]. simpl.
  unfold materialize. case_match; [apply AddStmts_Name|done].
Qed.

Lemma annotated_loop_filter (fs : list ptr) : forall (h : heap) props,
  annotated_loop h fs props
  = annotated_loop h (filter (fun f => printed_in_loop (h f) = true) fs) props.
Proof.
  induction fs as [|f fs IH]; intros h props; [done|].
  rewrite filter_cons. cbn [annotated_loop].
  destruct (decide (printed_in_loop (h f) = true)) as [E|E].
  - cbn [annotated_loop]. rewrite E.
    pose proof (Function_PrintWithProperties_Name (h f) props) as HN.
    destruct (Function_PrintWithProperties (h f) props) as [[text f'] props1].
    simpl in HN. rewrite IH.
    replace (filter (fun f0 => printed_in_loop (upd h f f' f0) = true) fs)
      with (filter (fun f0 => printed_in_loop (h f0) = true) fs); [done|].
    apply list_filter_iff. intros q.
    destruct (decide (q = f)) as [->|Hq].
    + rewrite upd_same. by rewrite (printed_in_loop_Name f' (h f)).
    + by rewrite upd_other.
  - apply not_true_is_false in E. rewrite E. apply IH.
Qed.

(** The loop of the annotated rendering of a program passes over every
    function whose filtered name is [main.main] or begins with [os],
    [syscall], [internal_poll] or [sync.o]: the text, the functions and the
    registry come out as if those functions were not registered.  The test
    is on the first characters of the name only, so a function of the
    program itself whose name begins with [os] is passed over as well. *)
Theorem annotated_loop_passes_over (h : heap) (fs : list ptr)
    (props : Properties) (f : Function) (rest : string) :
  annotated_loop h fs props
  = annotated_loop h (filter (fun g => printed_in_loop (h g) = true) fs)
      props /\
  (SimpleName f = "os" +:+ rest -> printed_in_loop f = false).
Proof.
  split; [apply annotated_loop_filter|].
  intros H. unfold printed_in_loop. rewrite H.
  assert (String.prefix "os" ("os" +:+ rest) = true) as ->
    by (by destruct rest).
  cbn [negb]. by rewrite andb_false_r.
Qed.

Lemma annotated_loop_passes_over_witness :
  printed_in_loop (NewFunction "oscillate" noPosition) = false.
Proof.
  apply (annotated_loop_passes_over scn_heap [] ∅
           (NewFunction "oscillate" noPosition) "cillate").
  reflexivity.
Defined.

(** ** What the traversal reaches *)

Section Traversal.
Variable p : Program.
Variable h0 : heap.
Implicit Types (st : astate) (f q : ptr).

Lemma shaped_extends st st' :
  shaped h0 st -> extends st st' -> shaped h0 st'.
Proof.
  intros H (N & S & _) q. destruct (H q) as [H1 H2].
  by rewrite N, S.
Qed.

Lemma shaped_lookup st name :
  shaped h0 st ->
  Program_Function (st_heap st) p name = Program_Function h0 p name.
Proof.
  intros H. unfold Program_Function. apply lookup_func_ext.
  intros q. apply H.
Qed.

Lemma reaches_trans (h : heap) a b c :
  reaches h p a b -> reaches h p b c -> reaches h p a c.
Proof.
  induction 1 as [|a b b' E R IH]; [done|].
  intros H. eapply reaches_step; [exact E|by apply IH].
Qed.

Lemma call_edge_target (h : heap) a b :
  call_edge h p a b -> registered_first h p b.
Proof.
  intros (s & name & _ & _ & L). unfold registered_first.
  unfold Program_Function in *.
  destruct (lookup_func_Some h _ _ _ L) as [_ <-]. done.
Qed.

Lemma absorb_heap_other f b st q :
  q <> f -> st_heap (absorb f b st) q = st_heap st q.
Proof. intros H. unfold absorb. simpl. by rewrite upd_other. Qed.

Lemma absorb_known f b st :
  st_known (absorb f b st)
  = <[Name (st_heap st f) := HasComm (st_heap st f) || b]> (st_known st).
Proof. unfold absorb. simpl. by rewrite upd_same. Qed.

Lemma loops_over_skip f stmt st :
  (forall name c, callee_name stmt = Some name ->
                  Program_Function h0 p name = Some c ->
                  Name (h0 c) ∈ dom (st_known st)) ->
  loops_over h0 p f [stmt] st st.
Proof.
  intros H. exists []. simpl. repeat split; try done.
  - by apply elem_of_nil in H0.
  - by apply elem_of_nil in H0.
  - intros Hn. by left.
  - intros [Hn|Hn]; [done|]. by apply elem_of_nil in Hn.
  - intros q c Hq. by apply elem_of_nil in Hq.
  - intros s name c Hs. apply list_elem_of_singleton in Hs. subst s.
    apply H.
Qed.

Lemma loops_over_absorb f stmt b st :
  shaped h0 st ->
  Name (h0 f) ∈ dom (st_known st) ->
  (forall name c, callee_name stmt = Some name ->
                  Program_Function h0 p name = Some c ->
                  Name (h0 c) ∈ dom (st_known st)) ->
  loops_over h0 p f [stmt] st (absorb f b st).
Proof.
  intros Hs Hf H. destruct (Hs f) as [HN _].
  exists []. repeat split.
  - by apply elem_of_nil in H0.
  - by apply elem_of_nil in H0.
  - intros q _ Hq. by apply absorb_heap_other.
  - rewrite absorb_known, dom_insert, HN. intros Hn.
    apply elem_of_union in Hn as [Hn|Hn]; [|by left].
    apply elem_of_singleton in Hn. subst n. by left.
  - intros [Hn|Hn]; [|by apply elem_of_nil in Hn].
    rewrite absorb_known, dom_insert. apply elem_of_union. by right.
  - intros n _ Hn. rewrite absorb_known, HN. by rewrite lookup_insert_ne.
  - intros q c Hq. by apply elem_of_nil in Hq.
  - intros s name c Hin. apply list_elem_of_singleton in Hin. subst s.
    intros Hc Hl. rewrite absorb_known, dom_insert. apply elem_of_union.
    right. by eapply H.
Qed.

Lemma loops_over_app f l1 l2 st st1 st2 :
  loops_over h0 p f l1 st st1 ->
  loops_over h0 p f l2 st1 st2 ->
  loops_over h0 p f (l1 ++ l2) st st2.
Proof.
  intros (new1 & E1 & R1 & F1 & D1 & K1 & C1 & S1)
         (new2 & E2 & R2 & F2 & D2 & K2 & C2 & S2).
  assert (forall n, n ∈ names h0 (new2 ++ new1) <->
                    n ∈ names h0 new2 \/ n ∈ names h0 new1) as Hnames.
  { intros n. unfold names. rewrite fmap_app. apply elem_of_app. }
  exists (new2 ++ new1). repeat split.
  - by rewrite E2, E1, app_assoc.
  - apply elem_of_app in H as [H|H]; [by apply R2|by apply R1].
  - apply elem_of_app in H as [H|H]; [by apply R2|by apply R1].
  - intros q Hq Hf. rewrite F2, F1; [done| |done| |done].
    + intros H. apply Hq, elem_of_app. by right.
    + intros H. apply Hq, elem_of_app. by left.
  - intros Hn. apply D2 in Hn as [Hn|Hn].
    + apply D1 in Hn as [Hn|Hn]; [by left|]. right. apply Hnames. by right.
    + right. apply Hnames. by left.
  - intros [Hn|Hn].
    + apply D2. left. apply D1. by left.
    + apply Hnames in Hn as [Hn|Hn]; [apply D2; by right|].
      apply D2. left. apply D1. by right.
  - intros n Hn Hf. rewrite K2, K1; [done| |done| |done].
    + intros H. apply Hn, Hnames. by right.
    + intros H. apply Hn, Hnames. by left.
  - intros q c Hq Hc. apply elem_of_app in Hq as [Hq|Hq]; [by eapply C2|].
    apply D2. left. by eapply C1.
  - intros s name c Hs Hc Hl. apply elem_of_app in Hs as [Hs|Hs].
    + apply D2. left. by eapply S1.
    + by eapply S2.
Qed.

Lemma visitStmt_loops rec f stmt st st' :
  (forall c s s', rec c s = Some s' -> extends s s') ->
  (forall c s s', rec c s = Some s' -> shaped h0 s ->
                  registered_first h0 p c -> traverses h0 p c s s') ->
  shaped h0 st ->
  Name (h0 f) ∈ dom (st_known st) ->
  stmt ∈ Stmts (h0 f) ->
  visitStmt rec p f stmt st = Some st' ->
  loops_over h0 p f [stmt] st st'.
Proof.
  intros Hext Hrec Hs Hf Hin. unfold visitStmt.
  destruct (callee_name stmt) as [name|] eqn:Hc;
    [|intros [= <-]; apply loops_over_skip; intros ? ? ?; congruence].
  rewrite (shaped_lookup st name Hs).
  destruct (Program_Function h0 p name) as [child|] eqn:L;
    [|intros [= <-]; apply loops_over_skip; intros ? ? ? ?; congruence].
  assert (registered_first h0 p child) as Hreg.
  { apply (call_edge_target h0 f). by exists stmt, name. }
  destruct (Hs child) as [HNc _]. rewrite HNc.
  destruct (st_known st !! Name (h0 child)) as [b|] eqn:K.
  - intros [= <-]. apply loops_over_absorb; [done..|].
    intros name' c' Hc' L'. rewrite Hc in Hc'. injection Hc' as <-.
    rewrite L in L'. injection L' as <-.
    apply elem_of_dom. by eexists.
  - destruct (rec child st) as [st1|] eqn:R; [|done]. intros [= <-].
    destruct (Hrec _ _ _ R Hs Hreg)
      as (new & E & Rn & F & D & Kf & C & Hchild & _).
    pose proof (shaped_extends _ _ Hs (Hext _ _ _ R)) as Hs1.
    destruct (Hs1 f) as [HN1 _].
    assert (call_edge h0 p f child) as Hedge by (by exists stmt, name).
    exists new. repeat split.
    + exact E.
    + eapply reaches_step; [exact Hedge|]. by apply Rn.
    + destruct (Rn q H) as [_ [->|?]]; done.
    + intros q Hq Hqf. rewrite absorb_heap_other by done. by apply F.
    + rewrite absorb_known, dom_insert, HN1. intros Hn.
      apply elem_of_union in Hn as [Hn|Hn]; [|by apply D].
      apply elem_of_singleton in Hn. subst n. by left.
    + intros Hn. rewrite absorb_known, dom_insert. apply elem_of_union.
      right. by apply D.
    + intros n Hn Hnf. rewrite absorb_known, HN1.
      rewrite lookup_insert_ne by done. by apply Kf.
    + intros q c Hq Hc'. rewrite absorb_known, dom_insert.
      apply elem_of_union. right. by eapply C.
    + intros s name' c' Hin'. apply list_elem_of_singleton in Hin'. subst s.
      intros Hc' L'. rewrite Hc in Hc'. injection Hc' as <-.
      rewrite L in L'. injection L' as <-.
      rewrite absorb_known, dom_insert. apply elem_of_union. by right.
Qed.

Lemma visitStmts_loops rec f stmts : forall st st',
  (forall c s s', rec c s = Some s' -> extends s s') ->
  (forall c s s', rec c s = Some s' -> shaped h0 s ->
                  registered_first h0 p c -> traverses h0 p c s s') ->
  shaped h0 st ->
  Name (h0 f) ∈ dom (st_known st) ->
  (forall s, s ∈ stmts -> s ∈ Stmts (h0 f)) ->
  visitStmts rec p f stmts st = Some st' ->
  loops_over h0 p f stmts st st'.
Proof.
  induction stmts as [|stmt rest IH]; intros st st' Hext Hrec Hs Hf Hin; simpl.
  - intros [= <-]. exists []. repeat split; try done.
    + by apply elem_of_nil in H.
    + by apply elem_of_nil in H.
    + intros Hn. by left.
    + intros [Hn|Hn]; [done|]. by apply elem_of_nil in Hn.
    + intros q c Hq. by apply elem_of_nil in Hq.
    + intros s name c Hq. by apply elem_of_nil in Hq.
  - destruct (visitStmt rec p f stmt st) as [st1|] eqn:V; [|done].
    intros H.
    pose proof (visitStmt_extends p _ _ _ _ _ Hext V) as Hext1.
    pose proof (visitStmt_loops rec f stmt st st1 Hext Hrec Hs Hf
                  ltac:(apply Hin; left) V) as L1.
    change (stmt :: rest) with ([stmt] ++ rest).
    eapply loops_over_app; [exact L1|].
    apply IH; [done|done|by eapply shaped_extends|
               |intros s Hs'; apply Hin; by right|done].
    destruct L1 as (new & _ & _ & _ & D & _). apply D. by left.
Qed.
Lemma findEmptyFunc_traverses fuel : forall f st st',
  shaped h0 st ->
  findEmptyFunc fuel p f st = Some st' ->
  traverses h0 p f st st'.
Proof.
  induction fuel as [|fuel IH]; intros f st st' Hs; simpl; [done|].
  destruct (Hs f) as [HN HS]. rewrite HN, HS.
  destruct (st_known st !! Name (h0 f)) as [b|] eqn:K.
  - intros [= <-]. exists []. repeat split; try done.
    + by apply elem_of_nil in H.
    + by apply elem_of_nil in H.
    + intros Hn. by left.
    + intros [Hn|Hn]; [done|]. by apply elem_of_nil in Hn.
    + intros q c Hq. by apply elem_of_nil in Hq.
    + apply elem_of_dom. by eexists.
    + congruence.
  - intros V.
    set (st1 := {| st_heap := st_heap st;
                   st_known := <[Name (h0 f) := HasComm (st_heap st f)]>
                                 (st_known st);
                   st_entered := f :: st_entered st |}) in *.
    assert (Name (h0 f) ∈ dom (st_known st1)) as Hf1.
    { unfold st1. simpl. rewrite dom_insert. apply elem_of_union. left.
      by apply elem_of_singleton. }
    assert (loops_over h0 p f (Stmts (h0 f)) st1 st')
      as (new & E & Rn & F & D & Kf & C & S).
    { apply (visitStmts_loops (findEmptyFunc fuel p)); try done.
      - apply findEmptyFunc_extends.
      - intros c s s' R Hs' _. by apply IH. }
    unfold st1 in *. clear st1.
    + assert (forall n, n ∈ names h0 (new ++ [f]) <->
                        n ∈ names h0 new \/ n = Name (h0 f)) as Hnames.
      { intros n. unfold names. rewrite fmap_app, elem_of_app. simpl.
        by rewrite list_elem_of_singleton. }
      simpl in *. exists (new ++ [f]). repeat split.
      * by rewrite E, <- app_assoc.
      * apply elem_of_app in H as [H|H].
        -- by apply Rn.
        -- apply list_elem_of_singleton in H. subst q. apply reaches_refl.
      * apply elem_of_app in H as [H|H].
        -- right. by apply Rn.
        -- apply list_elem_of_singleton in H. by left.
      * intros q Hq. apply F.
        -- intros H. apply Hq, elem_of_app. by left.
        -- intros ->. apply Hq, elem_of_app. right. left.
      * intros Hn. apply D in Hn as [Hn|Hn].
        -- rewrite dom_insert in Hn. apply elem_of_union in Hn as [Hn|Hn].
           ++ apply elem_of_singleton in Hn. right. apply Hnames. by right.
           ++ by left.
        -- right. apply Hnames. by left.
      * intros [Hn|Hn].
        -- apply D. left. rewrite dom_insert. apply elem_of_union. by right.
        -- apply Hnames in Hn as [Hn| ->]; [apply D; by right|].
           apply D. left. rewrite dom_insert. apply elem_of_union. left.
           by apply elem_of_singleton.
      * intros n Hn. rewrite Kf.
        -- apply lookup_insert_ne. intros <-. apply Hn, Hnames. by right.
        -- intros H. apply Hn, Hnames. by left.
        -- intros ->. apply Hn, Hnames. by right.
      * intros q c Hq Hc. apply elem_of_app in Hq as [Hq|Hq];
          [by eapply C|].
        apply list_elem_of_singleton in Hq. subst q.
        destruct Hc as (s & name & Hin & Hc & L). by eapply S.
      * by apply D; left.
      * intros _. rewrite elem_of_app. right. left.
Qed.
End Traversal.

Section Flag_only.
Variable p : Program.
Implicit Types (st : astate) (f q : ptr).

Lemma set_HasComm_same (g : Function) : set_HasComm g (HasComm g) = g.
Proof. by destruct g. Qed.

Lemma flag_only_refl st : flag_only st st.
Proof. intros q. by rewrite set_HasComm_same. Qed.

Lemma flag_only_trans st1 st2 st3 :
  flag_only st1 st2 -> flag_only st2 st3 -> flag_only st1 st3.
Proof. intros H1 H2 q. rewrite (H2 q), (H1 q). done. Qed.

Lemma flag_only_absorb f b st : flag_only st (absorb f b st).
Proof.
  intros q. unfold absorb. simpl. destruct (decide (q = f)) as [->|Hq].
  - by rewrite upd_same.
  - rewrite upd_other by done. by rewrite set_HasComm_same.
Qed.

Lemma visitStmts_flag_only rec f stmts : forall st st',
  (forall c s s', rec c s = Some s' -> flag_only s s') ->
  visitStmts rec p f stmts st = Some st' -> flag_only st st'.
Proof.
  induction stmts as [|stmt rest IH]; intros st st' Hrec; simpl.
  - intros [= <-]. apply flag_only_refl.
  - destruct (visitStmt rec p f stmt st) as [st1|] eqn:V; [|done].
    intros H. apply (flag_only_trans _ st1); [|by eapply IH].
    revert V. unfold visitStmt.
    destruct (callee_name stmt); [|intros [= <-]; apply flag_only_refl].
    destruct (Program_Function (st_heap st) p s) as [child|];
      [|intros [= <-]; apply flag_only_refl].
    destruct (st_known st !! Name (st_heap st child)).
    + intros [= <-]. apply flag_only_absorb.
    + destruct (rec child st) as [s1|] eqn:R; [|done]. intros [= <-].
      eapply flag_only_trans; [by eapply Hrec|apply flag_only_absorb].
Qed.

Lemma findEmptyFunc_flag_only fuel : forall f st st',
  findEmptyFunc fuel p f st = Some st' -> flag_only st st'.
Proof.
  induction fuel as [|fuel IH]; intros f st st'; simpl; [done|].
  destruct (st_known st !! Name (st_heap st f)).
  - intros [= <-]. apply flag_only_refl.
  - intros V. apply visitStmts_flag_only in V; [|exact IH].
    intros q. by rewrite (V q).
Qed.
End Flag_only.

Lemma findEmptyFuncMain_traverses (fuel : nat) (h : heap) (p : Program)
    (root : ptr) (st : astate) :
  findEmptyFuncMain fuel h p root = Some st ->
  exists st0,
    findEmptyFunc fuel p root
      {| st_heap := h; st_known := ∅; st_entered := [] |} = Some st0 /\
    st_heap st = upd (st_heap st0) root (set_HasComm (st_heap st0 root) true) /\
    st_entered st = st_entered st0 /\
    st_known st = st_known st0 /\
    root ∈ st_entered st0 /\
    (forall q, q ∈ st_entered st0 ->
       reaches h p root q /\ (q = root \/ registered_first h p q)) /\
    (forall q, q ∉ st_entered st0 -> st_heap st0 q = h q) /\
    (forall n, n ∈ dom (st_known st0) <-> n ∈ names h (st_entered st0)) /\
    (forall q c, q ∈ st_entered st0 -> call_edge h p q c ->
                 Name (h c) ∈ dom (st_known st0)).
Proof.
  unfold findEmptyFuncMain.
  destruct (findEmptyFunc fuel p root _) as [st0|] eqn:E; [|done].
  intros [= <-]. simpl. exists st0.
  assert (shaped h {| st_heap := h; st_known := ∅; st_entered := [] |})
    as Hs by done.
  destruct (findEmptyFunc_traverses p h _ _ _ _ Hs E)
    as (new & En & Rn & F & D & _ & C & _ & Hroot).
  simpl in *. rewrite app_nil_r in En. rewrite En.
  repeat split; try done.
  - by apply Hroot.
  - by apply Rn.
  - by apply Rn.
  - intros Hn. apply D in Hn as [Hn|Hn]; [|done].
    by rewrite dom_empty in Hn.
  - intros Hn. apply D. by right.
Qed.

(** A run of the analysis writes to [HasComm] and to nothing else: every
    function keeps its name, parameters, body and position.  It enters only
    functions that the root reaches over call and spawn statements, the root
    among them, and a function that it does not enter, so every function
    that the root does not reach, is after the run exactly what it was. *)
Theorem findEmptyFuncMain_frame (fuel : nat) (h : heap) (p : Program)
    (root q : ptr) (st : astate) :
  findEmptyFuncMain fuel h p root = Some st ->
  st_heap st q = set_HasComm (h q) (HasComm (st_heap st q)) /\
  root ∈ st_entered st /\
  (q ∈ st_entered st -> reaches h p root q) /\
  (q ∉ st_entered st -> st_heap st q = h q) /\
  (~ reaches h p root q -> st_heap st q = h q).
Proof.
  intros H.
  destruct (findEmptyFuncMain_traverses _ _ _ _ _ H)
    as (st0 & E & -> & -> & _ & Hroot & Rn & F & _).
  pose proof (findEmptyFunc_flag_only p _ _ _ _ E q) as Hflag.
  simpl in Hflag.
  assert (q ∉ st_entered st0 -> upd (st_heap st0) root
            (set_HasComm (st_heap st0 root) true) q = h q) as Hout.
  { intros Hq. rewrite upd_other; [by apply F|]. by intros ->. }
  split; [|split; [done|split; [by apply Rn|split; [done|]]]].
  - destruct (decide (q = root)) as [->|Hq].
    + rewrite upd_same. rewrite Hflag. done.
    + by rewrite upd_other.
  - intros Hnr. apply Hout. intros Hq. by apply Hnr, Rn.
Qed.

Lemma findEmptyFuncMain_frame_witness :
  exists st,
    findEmptyFuncMain (enough_fuel scn_prog) scn_heap scn_prog 0%nat = Some st /\
    st_heap st 2%nat = scn_heap 2%nat.
Proof.
  destruct (findEmptyFuncMain (enough_fuel scn_prog) scn_heap scn_prog 0%nat)
    as [st|] eqn:E; [|vm_compute in E; discriminate].
  exists st. split; [reflexivity|].
  destruct (findEmptyFuncMain_frame _ _ _ _ 2%nat _ E) as (_ & _ & _ & H & _).
  apply H. vm_compute in E. injection E as <-. simpl.
  intros Hin. apply elem_of_cons in Hin as [Hin|Hin]; [done|].
  apply elem_of_cons in Hin as [Hin|Hin]; [done|].
  by apply elem_of_nil in Hin.
Defined.

(** When no other function is registered under the name of the root, the
    functions that a run enters are exactly the functions that the root
    reaches over edges, an edge being a call or spawn statement at the top
    level of a body whose target the program finds ([call_edge]); each of
    them is entered once.  Calls and spawns nested in a branch are not
    followed, so a function called only from inside a branch is not
    entered. *)
Theorem findEmptyFuncMain_covers (fuel : nat) (h : heap) (p : Program)
    (root q : ptr) (st : astate) :
  owns_name h p root ->
  findEmptyFuncMain fuel h p root = Some st ->
  (reaches h p root q <-> q ∈ st_entered st) /\ NoDup (st_entered st).
Proof.
  intros Hown H. split.
  - destruct (findEmptyFuncMain_traverses _ _ _ _ _ H)
      as (st0 & E & _ & -> & _ & Hroot & Rn & _ & D & C).
    split; [|by apply Rn].
    assert (forall a b, reaches h p a b -> a ∈ st_entered st0 ->
                        b ∈ st_entered st0) as Hclosed; [|by eauto].
    induction 1 as [|a b c Hedge Hreach IH]; [done|].
    intros Ha. apply IH.
    pose proof (C a b Ha Hedge) as Hb. apply D in Hb.
    unfold names in Hb. apply list_elem_of_fmap in Hb as (g & Hg & Hgin).
    pose proof (call_edge_target p h a b Hedge) as Hregb.
    unfold registered_first in *.
    destruct (Rn g Hgin) as [_ [->|Hregg]].
    + rewrite Hg in Hregb. by rewrite (Hown b Hregb).
    + rewrite Hg, Hregg in Hregb. by injection Hregb as <-.
  - apply findEmptyFuncMain_extends in H
      as (st0 & (_ & _ & _ & _ & new & E1 & U & _) & _ & ->).
    simpl in *. rewrite app_nil_r in E1. rewrite E1.
    by eapply NoDup_fmap_1.
Qed.

Lemma findEmptyFuncMain_covers_witness :
  exists st,
    findEmptyFuncMain (enough_fuel cyc_prog) cyc_heap cyc_prog 1%nat = Some st /\
    (reaches cyc_heap cyc_prog 1%nat 2%nat <-> 2%nat ∈ st_entered st).
Proof.
  destruct (findEmptyFuncMain (enough_fuel cyc_prog) cyc_heap cyc_prog 1%nat)
    as [st|] eqn:E; [|vm_compute in E; discriminate].
  exists st. split; [reflexivity|].
  apply (proj1 (findEmptyFuncMain_covers (enough_fuel cyc_prog) cyc_heap
                  cyc_prog 1%nat 2%nat st ltac:(intros c Hc; vm_compute in Hc;
                                                by injection Hc as <-) E)).
Defined.

(** ** The flags on a call graph without cycles *)

Section Acyclic.
Variable p : Program.
Variable h0 : heap.
Variable root : ptr.
Hypothesis Hacyc : acyclic h0 p.
Hypothesis Hown : owns_name h0 p root.
Implicit Types (st : astate) (f q c : ptr) (anc : list ptr).

Lemma entrant_inj q1 q2 :
  entrant h0 p root q1 -> entrant h0 p root q2 ->
  Name (h0 q1) = Name (h0 q2) -> q1 = q2.
Proof.
  unfold entrant, registered_first.
  intros [->|H1] [->|H2] E; [done| | |].
  - rewrite <- E in H2. by rewrite (Hown _ H2).
  - rewrite E in H1. by rewrite (Hown _ H1).
  - rewrite E, H2 in H1. by injection H1.
Qed.

Lemma extends_fresh st st' new :
  shaped h0 st -> extends st st' ->
  st_entered st' = new ++ st_entered st ->
  forall x, x ∈ new -> Name (h0 x) ∉ dom (st_known st).
Proof.
  intros Hs (_ & _ & _ & _ & new' & E & _ & F) E' x Hx.
  rewrite E in E'. apply app_inv_tail in E'. subst new'.
  destruct (F x Hx) as [Hn _]. destruct (Hs x) as [HN _]. by rewrite <- HN.
Qed.

Lemma touches_only_absorb f b st :
  shaped h0 st -> touches_only h0 f st (absorb f b st).
Proof.
  intros Hs. destruct (Hs f) as [HN _]. exists []. repeat split.
  - intros x Hx. by apply elem_of_nil in Hx.
  - intros x _ Hx. by apply absorb_heap_other.
  - intros n _ Hn. rewrite absorb_known, HN. by rewrite lookup_insert_ne.
Qed.

Lemma touches_only_traverses f c st st' :
  shaped h0 st -> extends st st' -> traverses h0 p c st st' ->
  touches_only h0 f st st'.
Proof.
  intros Hs Hext (new & E & _ & F & _ & K & _). exists new.
  split; [done|]. split; [by eapply extends_fresh|].
  split; [intros x Hx _; by apply F|intros n Hn _; by apply K].
Qed.

Lemma touches_only_loops f stmts st st' :
  shaped h0 st -> extends st st' -> loops_over h0 p f stmts st st' ->
  touches_only h0 f st st'.
Proof.
  intros Hs Hext (new & E & _ & F & _ & K & _). exists new.
  split; [done|]. split; [by eapply extends_fresh|]. by split.
Qed.

(** A function entered and not in progress is not touched. *)
Lemma settled_untouched anc f st st' q :
  settled h0 p root anc st -> touches_only h0 f st st' ->
  f ∈ anc -> f ∈ st_entered st ->
  q ∈ st_entered st -> q ∉ anc ->
  st_heap st' q = st_heap st q /\
  st_known st' !! Name (h0 q) = st_known st !! Name (h0 q) /\
  q ∈ st_entered st'.
Proof.
  intros (I1 & I2 & I3) (new & E & Fr & Fh & Fk) Hfa Hfe Hq Hqa.
  destruct (I1 q Hq) as [Hdom Hent]. destruct (I1 f Hfe) as [_ Hentf].
  assert (q <> f) as Hqf by (by intros ->).
  assert (Name (h0 q) ∉ names h0 new) as Hnames.
  { intros H. unfold names in H.
    apply list_elem_of_fmap in H as (x & Hx & Hxin).
    apply (Fr x Hxin). by rewrite <- Hx. }
  assert (q ∉ new) as Hnew.
  { intros H. by apply (Fr q H). }
  split; [by apply Fh|]. split.
  - apply Fk; [done|]. intros H. by apply Hqf, entrant_inj.
  - rewrite E. apply elem_of_app. by right.
Qed.
Lemma settled_old anc f st st' q :
  settled h0 p root anc st -> touches_only h0 f st st' ->
  f ∈ anc -> f ∈ st_entered st ->
  q ∈ st_entered st -> q ∉ anc ->
  st_known st' !! Name (h0 q) = Some (HasComm (st_heap st' q)) /\
  forall c, call_edge h0 p q c ->
    c ∈ st_entered st' /\ (c ∉ anc) /\
    (HasComm (st_heap st' c) = true -> HasComm (st_heap st' q) = true).
Proof.
  intros Hset Ht Hfa Hfe Hq Hqa.
  destruct (settled_untouched _ _ _ _ _ Hset Ht Hfa Hfe Hq Hqa)
    as (Hh & Hk & _).
  destruct Hset as (I1 & I2 & I3). destruct (I3 q Hq Hqa) as [K C].
  split; [by rewrite Hk, Hh|].
  intros c Hc. destruct (C c Hc) as (Hce & Hca & Himp).
  destruct (settled_untouched anc f st st' c) as (Hhc & _ & Hce');
    [done..|].
  split; [done|]. split; [done|]. by rewrite Hh, Hhc.
Qed.

Lemma settled_absorb anc f b st :
  shaped h0 st -> settled h0 p root anc st ->
  f ∈ anc -> f ∈ st_entered st ->
  settled h0 p root anc (absorb f b st).
Proof.
  intros Hs Hset Hfa Hfe. pose proof Hset as (I1 & I2 & I3).
  destruct (Hs f) as [HN _].
  assert (dom (st_known (absorb f b st)) = dom (st_known st)) as Hdom.
  { rewrite absorb_known, dom_insert_L, HN.
    destruct (I1 f Hfe) as [Hd _]. set_solver. }
  split; [|split].
  - intros q Hq. rewrite Hdom. by apply I1.
  - intros n. rewrite Hdom. apply I2.
  - intros q Hq Hqa.
    by apply (settled_old anc f st);
      [|apply touches_only_absorb|..].
Qed.

Lemma absorbed_step anc f stmt rec st st1 :
  (forall c s s', rec c s = Some s' -> extends s s') ->
  (forall c s s', rec c s = Some s' -> shaped h0 s ->
                  registered_first h0 p c -> traverses h0 p c s s') ->
  (forall c s s' anc', rec c s = Some s' -> shaped h0 s ->
     entrant h0 p root c -> st_known s !! Name (h0 c) = None ->
     (forall a, a ∈ anc' -> reaches h0 p a c) ->
     (forall a, a ∈ anc' -> a ∈ st_entered s) ->
     settled h0 p root anc' s ->
     settled h0 p root anc' s' /\ c ∈ st_entered s' /\ (c ∉ anc')) ->
  visitStmt rec p f stmt st = Some st1 ->
  shaped h0 st -> f ∈ anc ->
  (forall a, a ∈ anc -> reaches h0 p a f) ->
  (forall a, a ∈ anc -> a ∈ st_entered st) ->
  settled h0 p root anc st ->
  st_known st !! Name (h0 f) = Some (HasComm (st_heap st f)) ->
  stmt ∈ Stmts (h0 f) ->
  settled h0 p root anc st1 /\ absorbed h0 p anc f [stmt] st1.
Proof.
  intros Hext Htrav Hval V Hs Hfa Hreach Hanc Hset Hkf Hin.
  pose proof (Hanc f Hfa) as Hfe.
  revert V. unfold visitStmt.
  destruct (callee_name stmt) as [name|] eqn:Hc.
  2:{ intros [= <-]. split; [done|]. split; [done|].
      intros s name c Hs' Hc'. apply list_elem_of_singleton in Hs'.
      subst s. congruence. }
  rewrite (shaped_lookup p h0 st name Hs).
  destruct (Program_Function h0 p name) as [child|] eqn:L.
  2:{ intros [= <-]. split; [done|]. split; [done|].
      intros s name' c Hs' Hc' L'. apply list_elem_of_singleton in Hs'.
      subst s. congruence. }
  assert (call_edge h0 p f child) as Hedge by (by exists stmt, name).
  pose proof (call_edge_target p h0 f child Hedge) as Hreg.
  destruct (Hs child) as [HNc _]. rewrite HNc.
  destruct (Hs f) as [HNf _].
  assert (forall st2 b,
            shaped h0 st2 -> settled h0 p root anc st2 ->
            f ∈ st_entered st2 ->
            child ∈ st_entered st2 -> child ∉ anc ->
            b = HasComm (st_heap st2 child) ->
            settled h0 p root anc (absorb f b st2) /\
            absorbed h0 p anc f [stmt] (absorb f b st2)) as Hfinish.
  { intros st2 b Hs2 Hset2 Hfe2 Hce Hca ->. destruct (Hs2 f) as [HN2 _].
    split; [by apply settled_absorb|]. split.
    - rewrite absorb_known, HN2, lookup_insert_eq. by rewrite absorb_HasComm.
    - intros s name' c Hs' Hc' L'. apply list_elem_of_singleton in Hs'.
      subst s. rewrite Hc in Hc'. injection Hc' as <-.
      rewrite L in L'. injection L' as <-.
      split; [done|]. split; [done|].
      rewrite absorb_HasComm, absorb_heap_other by (by intros ->).
      intros ->. apply orb_true_r. }
  destruct (st_known st !! Name (h0 child)) as [b|] eqn:K.
  - intros [= <-].
    destruct Hset as (I1 & I2 & I3).
    assert (child ∈ st_entered st) as Hce.
    { destruct (I2 (Name (h0 child))) as (q & Hq & Hqn);
        [apply elem_of_dom; by eexists|].
      destruct (I1 q Hq) as [_ Hent].
      rewrite (entrant_inj child q); [done|by right|done|done]. }
    assert (child ∉ anc) as Hca.
    { intros H. by apply (Hacyc f child Hedge), Hreach. }
    apply Hfinish; [done|done|done|done|done|].
    destruct (I3 child Hce Hca) as [Kc _]. congruence.
  - destruct (rec child st) as [st2|] eqn:R; [|done]. intros [= <-].
    destruct (Hval child st st2 anc R Hs ltac:(by right) K) as (Hset2 & Hce & Hca);
      [|done|done|].
    { intros a Ha. eapply reaches_trans; [by apply Hreach|].
      eapply reaches_step; [exact Hedge|apply reaches_refl]. }
    pose proof (Hext _ _ _ R) as Hext2.
    apply Hfinish; [by eapply shaped_extends|done| |done|done|done].
    destruct Hext2 as (_ & _ & _ & _ & new & E & _). rewrite E.
    apply elem_of_app. by right.
Qed.
Lemma absorbed_loop anc f rec stmts :
  (forall c s s', rec c s = Some s' -> extends s s') ->
  (forall c s s', rec c s = Some s' -> shaped h0 s ->
                  registered_first h0 p c -> traverses h0 p c s s') ->
  (forall c s s' anc', rec c s = Some s' -> shaped h0 s ->
     entrant h0 p root c -> st_known s !! Name (h0 c) = None ->
     (forall a, a ∈ anc' -> reaches h0 p a c) ->
     (forall a, a ∈ anc' -> a ∈ st_entered s) ->
     settled h0 p root anc' s ->
     settled h0 p root anc' s' /\ c ∈ st_entered s' /\ (c ∉ anc')) ->
  forall st st',
  visitStmts rec p f stmts st = Some st' ->
  shaped h0 st -> f ∈ anc ->
  (forall a, a ∈ anc -> reaches h0 p a f) ->
  (forall a, a ∈ anc -> a ∈ st_entered st) ->
  settled h0 p root anc st ->
  st_known st !! Name (h0 f) = Some (HasComm (st_heap st f)) ->
  (forall s, s ∈ stmts -> s ∈ Stmts (h0 f)) ->
  settled h0 p root anc st' /\ absorbed h0 p anc f stmts st'.
Proof.
  intros Hext Htrav Hval.
  induction stmts as [|stmt rest IH];
    intros st st' V Hs Hfa Hreach Hanc Hset Hkf Hin; simpl in V.
  - injection V as <-. split; [done|]. split; [done|].
    intros s name c Hs'. by apply elem_of_nil in Hs'.
  - destruct (visitStmt rec p f stmt st) as [st1|] eqn:V1; [|done].
    destruct (absorbed_step anc f stmt rec st st1 Hext Htrav Hval V1 Hs Hfa
                Hreach Hanc Hset Hkf ltac:(apply Hin; left))
      as [Hset1 [Hk1 Habs1]].
    pose proof (visitStmt_extends p _ _ _ _ _ Hext V1) as Hext1.
    pose proof (shaped_extends h0 _ _ Hs Hext1) as Hs1.
    assert (forall a, a ∈ anc -> a ∈ st_entered st1) as Hanc1.
    { intros a Ha. destruct Hext1 as (_ & _ & _ & _ & new & E & _).
      rewrite E. apply elem_of_app. right. by apply Hanc. }
    destruct (IH st1 st' V Hs1 Hfa Hreach Hanc1 Hset1 Hk1
                ltac:(intros s Hs'; apply Hin; by right))
      as [Hset' [Hk' Habs']].
    split; [done|]. split; [done|].
    intros s name c Hs' Hc L. apply elem_of_cons in Hs' as [->|Hs'];
      [|by eapply Habs'].
    destruct (Habs1 stmt name c ltac:(left) Hc L) as (Hce & Hca & Himp).
    pose proof (visitStmts_extends p _ _ _ _ _ Hext V) as Hext'.
    assert (touches_only h0 f st1 st') as Ht.
    { apply (touches_only_loops f rest); [done|done|].
      apply (visitStmts_loops p h0 rec); try done.
      - apply elem_of_dom. by eexists.
      - intros s Hs'. apply Hin. by right. }
    destruct (settled_untouched anc f st1 st' c Hset1 Ht Hfa (Hanc1 f Hfa)
                Hce Hca) as (Hhc & _ & Hce').
    split; [done|]. split; [done|].
    rewrite Hhc. intros Hc1.
    destruct Hext' as (_ & _ & Hmono & _). by apply Hmono, Himp.
Qed.

Lemma settled_rec fuel : forall f st st' anc,
  findEmptyFunc fuel p f st = Some st' ->
  shaped h0 st -> entrant h0 p root f ->
  st_known st !! Name (h0 f) = None ->
  (forall a, a ∈ anc -> reaches h0 p a f) ->
  (forall a, a ∈ anc -> a ∈ st_entered st) ->
  settled h0 p root anc st ->
  settled h0 p root anc st' /\ f ∈ st_entered st' /\ (f ∉ anc).
Proof.
  induction fuel as [|fuel IH];
    intros f st st' anc V Hs Hent K Hreach Hanc Hset; simpl in V; [done|].
  destruct (Hs f) as [HN HS]. rewrite HN, HS, K in V.
  pose proof Hset as (I1 & I2 & I3).
  set (st1 := {| st_heap := st_heap st;
                 st_known := <[Name (h0 f) := HasComm (st_heap st f)]>
                               (st_known st);
                 st_entered := f :: st_entered st |}) in *.
  assert (f ∉ st_entered st) as Hfresh.
  { intros H. destruct (I1 f H) as [Hd _]. by apply not_elem_of_dom in K. }
  assert (f ∉ anc) as Hfa by (intros H; by apply Hfresh, Hanc).
  assert (forall q, q ∈ st_entered st -> Name (h0 q) <> Name (h0 f)) as Hne.
  { intros q Hq E. destruct (I1 q Hq) as [Hd _]. rewrite E in Hd.
    by apply not_elem_of_dom in K. }
  assert (settled h0 p root (f :: anc) st1) as Hset1.
  { split; [|split].
    - intros q Hq. simpl in *. rewrite dom_insert.
      apply elem_of_cons in Hq as [->|Hq].
      + split; [|done]. apply elem_of_union. left. by apply elem_of_singleton.
      + destruct (I1 q Hq). split; [|done]. apply elem_of_union. by right.
    - intros n Hn. simpl in *. rewrite dom_insert in Hn.
      apply elem_of_union in Hn as [Hn|Hn].
      + apply elem_of_singleton in Hn. exists f. split; [left|done].
      + destruct (I2 n Hn) as (q & Hq & Hqn). exists q. split; [by right|done].
    - intros q Hq Hqa. simpl in *. apply not_elem_of_cons in Hqa as [Hqf Hqa].
      apply elem_of_cons in Hq as [->|Hq]; [done|].
      destruct (I3 q Hq Hqa) as [Kq C]. split.
      + rewrite lookup_insert_ne; [done|]. apply not_eq_sym. by apply Hne.
      + intros c Hc. destruct (C c Hc) as (Hce & Hca & Himp).
        split; [by right|]. split; [|done].
        apply not_elem_of_cons. split; [|done]. by intros ->. }
  destruct (absorbed_loop (f :: anc) f (findEmptyFunc fuel p) (Stmts (h0 f))
              (findEmptyFunc_extends p fuel)
              ltac:(intros c s s' R Hs' _; by apply (findEmptyFunc_traverses p h0 fuel))
              IH st1 st' V) as [Hset' [Hk' Habs']]; try done.
  - left.
  - intros a Ha. apply elem_of_cons in Ha as [->|Ha];
      [apply reaches_refl|by apply Hreach].
  - intros a Ha. simpl. apply elem_of_cons in Ha as [->|Ha];
      [left|right; by apply Hanc].
  - simpl. by rewrite lookup_insert_eq.
  - pose proof (visitStmts_extends p _ _ _ _ _
                  (findEmptyFunc_extends p fuel) V)
      as (_ & _ & _ & _ & new & E & _).
    assert (f ∈ st_entered st') as Hfe.
    { rewrite E. simpl. apply elem_of_app. right. left. }
    split; [|done]. destruct Hset' as (I1' & I2' & I3').
    split; [done|]. split; [done|].
    intros q Hq Hqa. destruct (decide (q = f)) as [->|Hqf].
    + split; [done|]. intros c (s & name & Hin & Hc & L).
      destruct (Habs' s name c Hin Hc L) as (Hce & Hca & Himp).
      apply not_elem_of_cons in Hca as [_ Hca]. done.
    + destruct (I3' q Hq) as [Kq C].
      { apply not_elem_of_cons. by split. }
      split; [done|]. intros c Hc. destruct (C c Hc) as (Hce & Hca & Himp).
      apply not_elem_of_cons in Hca as [_ Hca]. done.
Qed.
End Acyclic.

Lemma ranked_acyclic (h : heap) (p : Program) (rank : ptr -> nat) :
  (forall a b, call_edge h p a b -> (rank b < rank a)%nat) ->
  acyclic h p.
Proof.
  intros Hrank.
  assert (forall a b, reaches h p a b -> (rank b <= rank a)%nat) as Hle.
  { induction 1 as [|a b c E R IH]; [lia|].
    pose proof (Hrank a b E). lia. }
  intros a b E R. pose proof (Hrank a b E). pose proof (Hle b a R). lia.
Qed.

Lemma settled_start (h : heap) (p : Program) (root : ptr) :
  settled h p root [] {| st_heap := h; st_known := ∅; st_entered := [] |}.
Proof.
  split; [|split]; simpl.
  - intros q Hq. by apply elem_of_nil in Hq.
  - intros n Hn. by rewrite dom_empty in Hn.
  - intros q Hq. by apply elem_of_nil in Hq.
Qed.

(** The graph whose edges are the calls and spawns at the top level of a
    body whose target the program finds ([call_edge]); calls and spawns
    nested in a branch are no edges.  Let this graph have no cycle and let no
    other function be registered under the name of the root.  Then every
    function that the root reaches in this graph, and that itself reaches in
    this graph a function whose [HasComm] was set before the run, has
    [HasComm] set after the run. *)
Theorem findEmptyFuncMain_acyclic (fuel : nat) (h : heap) (p : Program)
    (root q c : ptr) (st : astate) :
  acyclic h p -> owns_name h p root ->
  findEmptyFuncMain fuel h p root = Some st ->
  reaches h p root q -> reaches h p q c -> HasComm (h c) = true ->
  HasComm (st_heap st q) = true.
Proof.
  intros Hacyc Hown H Hrq Hqc Hc. unfold findEmptyFuncMain in H.
  destruct (findEmptyFunc fuel p root _) as [st0|] eqn:E; [|done].
  injection H as <-. simpl.
  destruct (decide (q = root)) as [->|Hq]; [by rewrite upd_same|].
  rewrite upd_other by done.
  pose proof (findEmptyFunc_extends p _ _ _ _ E) as (_ & _ & Hmono & _).
  simpl in Hmono.
  assert (forall a : ptr, a ∈ [] -> reaches h p a root) as Hn1
    by (intros a Ha; by apply elem_of_nil in Ha).
  assert (forall a : ptr, a ∈ [] -> a ∈ []) as Hn2 by done.
  destruct (settled_rec p h root Hacyc Hown fuel root _ st0 [] E
              ltac:(done) ltac:(by left) (lookup_empty _) Hn1 Hn2
              (settled_start h p root))
    as ((I1 & I2 & I3) & Hroot & _).
  assert (forall a b, reaches h p a b -> a ∈ st_entered st0 ->
                      b ∈ st_entered st0) as Hclosed.
  { induction 1 as [|a b d Hedge Hreach IH]; [done|].
    intros Ha. apply IH.
    destruct (I3 a Ha (not_elem_of_nil a)) as [_ C]. by apply C. }
  assert (forall a b, reaches h p a b -> a ∈ st_entered st0 ->
                      HasComm (h b) = true ->
                      HasComm (st_heap st0 a) = true) as Hflag.
  { induction 1 as [|a b d Hedge Hreach IH]; [by auto|].
    intros Ha Hd. destruct (I3 a Ha (not_elem_of_nil a)) as [_ C].
    destruct (C b Hedge) as (Hb & _ & Himp). by apply Himp, IH. }
  apply (Hflag q c); [done| |done]. by apply (Hclosed root).
Qed.

Lemma dag_acyclic : acyclic dag_heap dag_prog.
Proof.
  apply (ranked_acyclic _ _ dag_rank).
  intros a b (s & name & Hin & Hc & L).
  do 4 (destruct a as [|a];
        [vm_compute in Hin;
         repeat (apply elem_of_cons in Hin as [->|Hin];
                 [simpl in Hc;
                  first [discriminate
                        |injection Hc as <-; vm_compute in L;
                         injection L as <-; simpl; lia]|]);
         by apply elem_of_nil in Hin|]).
  vm_compute in Hin. destruct a; by apply elem_of_nil in Hin.
Qed.

Lemma findEmptyFuncMain_acyclic_witness :
  exists st,
    findEmptyFuncMain (enough_fuel dag_prog) dag_heap dag_prog 0%nat = Some st /\
    HasComm (st_heap st 2%nat) = true.
Proof.
  destruct (findEmptyFuncMain (enough_fuel dag_prog) dag_heap dag_prog 0%nat)
    as [st|] eqn:E; [|vm_compute in E; discriminate].
  exists st. split; [reflexivity|].
  apply (findEmptyFuncMain_acyclic (enough_fuel dag_prog) dag_heap dag_prog
           0%nat 2%nat 3%nat st dag_acyclic).
  - intros c Hc. vm_compute in Hc. by injection Hc as <-.
  - exact E.
  - eapply reaches_step; [|apply reaches_refl].
    exists (SpawnStatement "B" [] (at_line 3)), "B".
    split; [vm_compute; apply list_elem_of_further, list_elem_of_here|].
    split; reflexivity.
  - eapply reaches_step; [|apply reaches_refl].
    exists (CallStatement "C" [] (at_line 9)), "C".
    split; [vm_compute; apply list_elem_of_here|]. split; reflexivity.
  - reflexivity.
Defined.

(** ** No flag without a reason *)

Section Justified.
Variable p : Program.
Variable h0 : heap.
Variable root : ptr.
Hypothesis Hown : owns_name h0 p root.
Implicit Types (st : astate) (f q c : ptr).

Lemma entrant_lookup f c :
  entrant h0 p root f ->
  Program_Function h0 p (Name (h0 f)) = Some c -> c = f.
Proof.
  intros [->|Hreg] L; [by apply Hown|].
  unfold registered_first in Hreg. rewrite Hreg in L. by injection L.
Qed.

Lemma justified_absorb f child b st :
  shaped h0 st -> entrant h0 p root f ->
  call_edge h0 p f child ->
  (b = true -> reaches_comm h0 p child) ->
  justified h0 p st -> justified h0 p (absorb f b st).
Proof.
  intros Hs Hent Hedge Hb [J1 J2]. destruct (Hs f) as [HN _].
  assert (HasComm (st_heap st f) || b = true -> reaches_comm h0 p f) as Hf.
  { intros H. apply orb_true_iff in H as [H|H]; [by apply J1|].
    destruct (Hb H) as (c & Hr & Hc). exists c. split; [|done].
    by eapply reaches_step. }
  split.
  - intros q. destruct (decide (q = f)) as [->|Hq].
    + by rewrite absorb_HasComm.
    + rewrite absorb_heap_other by done. apply J1.
  - intros n c. rewrite absorb_known, HN.
    destruct (decide (n = Name (h0 f))) as [->|Hn].
    + rewrite lookup_insert_eq. intros [= H] L.
      rewrite (entrant_lookup f c Hent L). by apply Hf.
    + rewrite lookup_insert_ne by done. apply J2.
Qed.

Lemma visitStmts_justified rec f stmts : forall st st',
  (forall c s s', rec c s = Some s' -> extends s s') ->
  (forall c s s', rec c s = Some s' -> shaped h0 s ->
                  entrant h0 p root c -> justified h0 p s ->
                  justified h0 p s') ->
  shaped h0 st -> entrant h0 p root f ->
  (forall s, s ∈ stmts -> s ∈ Stmts (h0 f)) ->
  justified h0 p st ->
  visitStmts rec p f stmts st = Some st' ->
  justified h0 p st'.
Proof.
  induction stmts as [|stmt rest IH];
    intros st st' Hext Hrec Hs Hent Hin HJ; simpl.
  - by intros [= <-].
  - destruct (visitStmt rec p f stmt st) as [st1|] eqn:V; [|done].
    intros H.
    apply (IH st1 st'); try done.
    + eapply shaped_extends; [done|]. by eapply visitStmt_extends.
    + intros s Hs'. apply Hin. by right.
    + revert V. unfold visitStmt.
      destruct (callee_name stmt) as [name|] eqn:Hc; [|by intros [= <-]].
      rewrite (shaped_lookup p h0 st name Hs).
      destruct (Program_Function h0 p name) as [child|] eqn:L;
        [|by intros [= <-]].
      assert (call_edge h0 p f child) as Hedge.
      { exists stmt, name. split; [apply Hin; left|done]. }
      pose proof (call_edge_target p h0 f child Hedge) as Hreg.
      destruct (Hs child) as [HNc _]. rewrite HNc.
      destruct (st_known st !! Name (h0 child)) as [b|] eqn:K.
      * intros [= <-]. apply (justified_absorb f child); try done.
        intros ->. destruct HJ as [_ J2]. by apply (J2 (Name (h0 child))).
      * destruct (rec child st) as [st2|] eqn:R; [|done]. intros [= <-].
        assert (justified h0 p st2) as [J1 J2]
          by (apply (Hrec child st); [done|done|by right|done]).
        apply (justified_absorb f child); try done.
        -- eapply shaped_extends; [done|]. by eapply Hext.
        -- apply J1.
Qed.

Lemma findEmptyFunc_justified fuel : forall f st st',
  findEmptyFunc fuel p f st = Some st' ->
  shaped h0 st -> entrant h0 p root f -> justified h0 p st ->
  justified h0 p st'.
Proof.
  induction fuel as [|fuel IH]; intros f st st' V Hs Hent HJ; simpl in V;
    [done|].
  destruct (Hs f) as [HN HS]. rewrite HN, HS in V.
  destruct (st_known st !! Name (h0 f)) eqn:K; [by injection V as <-|].
  refine (visitStmts_justified (findEmptyFunc fuel p) f _ _ _
            (findEmptyFunc_extends p fuel) _ _ Hent _ _ V).
  - intros c s s' R Hs' Hent' HJ'. by apply (IH c s).
  - done.
  - done.
  - destruct HJ as [J1 J2]. split; [done|]. intros n c. simpl.
    destruct (decide (n = Name (h0 f))) as [->|Hn].
    + rewrite lookup_insert_eq. intros [= H] L.
      rewrite (entrant_lookup f c Hent L). by apply J1.
    + rewrite lookup_insert_ne by done. apply J2.
Qed.
End Justified.

(** The analysis sets no flag without a reason.  Let no other function be
    registered under the name of the root.  Then a function other than the
    root has [HasComm] set after the run only if it reaches, over call and
    spawn statements, a function whose [HasComm] was set before the run
    (which may be the function itself). *)
Theorem findEmptyFuncMain_justified (fuel : nat) (h : heap) (p : Program)
    (root q : ptr) (st : astate) :
  owns_name h p root ->
  findEmptyFuncMain fuel h p root = Some st ->
  q <> root -> HasComm (st_heap st q) = true ->
  exists c, reaches h p q c /\ HasComm (h c) = true.
Proof.
  intros Hown H Hq Hflag. unfold findEmptyFuncMain in H.
  destruct (findEmptyFunc fuel p root _) as [st0|] eqn:E; [|done].
  injection H as <-. simpl in Hflag. rewrite upd_other in Hflag by done.
  assert (justified h p {| st_heap := h; st_known := ∅; st_entered := [] |})
    as Hinit.
  { split; simpl.
    - intros x Hx. exists x. split; [apply reaches_refl|done].
    - intros n c Hn. by rewrite lookup_empty in Hn. }
  destruct (findEmptyFunc_justified p h root Hown fuel root _ st0 E
              ltac:(done) ltac:(by left) Hinit) as [J1 _].
  by apply J1.
Qed.

Lemma findEmptyFuncMain_justified_witness :
  exists st,
    findEmptyFuncMain (enough_fuel dag_prog) dag_heap dag_prog 0%nat = Some st /\
    exists c, reaches dag_heap dag_prog 1%nat c /\ HasComm (dag_heap c) = true.
Proof.
  destruct (findEmptyFuncMain (enough_fuel dag_prog) dag_heap dag_prog 0%nat)
    as [st|] eqn:E; [|vm_compute in E; discriminate].
  exists st. split; [reflexivity|].
  apply (findEmptyFuncMain_justified (enough_fuel dag_prog) dag_heap dag_prog
           0%nat 1%nat st).
  - intros c Hc. vm_compute in Hc. by injection Hc as <-.
  - exact E.
  - done.
  - vm_compute in E. injection E as <-. reflexivity.
Defined.

(** ** Direct callers of communicating functions *)

Section Informed.
Variable p : Program.
Variable h0 : heap.
Variable root : ptr.
Hypothesis Hown : owns_name h0 p root.
Implicit Types (st : astate) (f q c : ptr).

Lemma heeds_extends q st st' :
  extends st st' -> heeds h0 p q st -> heeds h0 p q st'.
Proof.
  intros (_ & _ & Hmono & _) H c Hc Hflag. by apply Hmono, (H c).
Qed.

Lemma informed_absorb f b st :
  shaped h0 st -> entrant h0 p root f ->
  informed h0 p st -> informed h0 p (absorb f b st).
Proof.
  intros Hs Hent [M V]. destruct (Hs f) as [HN _]. split.
  - intros q Hq. destruct (decide (q = f)) as [->|Hne].
    + rewrite absorb_HasComm, (M f Hq). done.
    + rewrite absorb_heap_other by done. by apply M.
  - intros n c b'. rewrite absorb_known, HN.
    destruct (decide (n = Name (h0 f))) as [->|Hn].
    + rewrite lookup_insert_eq. intros [= <-] L Hc.
      rewrite (entrant_lookup p h0 root Hown f c Hent L) in Hc.
      by rewrite (M f Hc).
    + rewrite lookup_insert_ne by done. apply V.
Qed.

Lemma visitStmts_informed rec f stmts : forall st st',
  (forall c s s', rec c s = Some s' -> extends s s') ->
  (forall c s s', rec c s = Some s' -> shaped h0 s ->
     entrant h0 p root c -> informed h0 p s ->
     informed h0 p s' /\
     forall q, q ∈ st_entered s' -> q ∈ st_entered s \/ heeds h0 p q s') ->
  shaped h0 st -> entrant h0 p root f ->
  (forall s, s ∈ stmts -> s ∈ Stmts (h0 f)) ->
  informed h0 p st ->
  visitStmts rec p f stmts st = Some st' ->
  informed h0 p st' /\
  (forall q, q ∈ st_entered st' -> q ∈ st_entered st \/ heeds h0 p q st') /\
  (forall s name c, s ∈ stmts -> callee_name s = Some name ->
     Program_Function h0 p name = Some c -> HasComm (h0 c) = true ->
     HasComm (st_heap st' f) = true).
Proof.
  induction stmts as [|stmt rest IH];
    intros st st' Hext Hrec Hs Hent Hin Hinf; simpl.
  - intros [= <-]. split; [done|]. split; [by left|].
    intros s name c Hs'. by apply elem_of_nil in Hs'.
  - destruct (visitStmt rec p f stmt st) as [st1|] eqn:V; [|done].
    intros Vrest.
    pose proof (visitStmt_extends p _ _ _ _ _ Hext V) as Hext1.
    pose proof (visitStmts_extends p _ _ _ _ _ Hext Vrest) as Hext2.
    assert (informed h0 p st1 /\
            (forall q, q ∈ st_entered st1 ->
                       q ∈ st_entered st \/ heeds h0 p q st1) /\
            (forall name c, callee_name stmt = Some name ->
               Program_Function h0 p name = Some c -> HasComm (h0 c) = true ->
               HasComm (st_heap st1 f) = true)) as (Hinf1 & Hent1 & Hthis).
    { revert V. unfold visitStmt.
      destruct (callee_name stmt) as [name|] eqn:Hc.
      2:{ intros [= <-]. split; [done|]. split; [by left|]. done. }
      rewrite (shaped_lookup p h0 st name Hs).
      destruct (Program_Function h0 p name) as [child|] eqn:L.
      2:{ intros [= <-]. split; [done|]. split; [by left|].
          intros name' c [= <-]. congruence. }
      assert (call_edge h0 p f child) as Hedge.
      { exists stmt, name. split; [apply Hin; left|done]. }
      pose proof (call_edge_target p h0 f child Hedge) as Hreg.
      destruct (Hs child) as [HNc _]. rewrite HNc.
      destruct (st_known st !! Name (h0 child)) as [b|] eqn:K.
      - intros [= <-]. split; [by apply informed_absorb|].
        split; [by left|].
        intros name' c [= <-] L' Hflag. rewrite L in L'. injection L' as <-.
        destruct Hinf as [_ Vk].
        rewrite absorb_HasComm, (Vk _ _ _ K Hreg Hflag). apply orb_true_r.
      - destruct (rec child st) as [st2|] eqn:R; [|done]. intros [= <-].
        destruct (Hrec child st st2 R Hs ltac:(by right) Hinf)
          as [Hinf2 Hent2].
        pose proof (shaped_extends h0 _ _ Hs (Hext _ _ _ R)) as Hs2.
        split; [by apply informed_absorb|]. split.
        + intros q Hq. destruct (Hent2 q Hq) as [?|Hh]; [by left|right].
          eapply heeds_extends; [apply extends_absorb|done].
        + intros name' c [= <-] L' Hflag. rewrite L in L'.
          injection L' as <-. destruct Hinf2 as [M2 _].
          rewrite absorb_HasComm, (M2 child Hflag). apply orb_true_r. }
    destruct (IH st1 st' Hext Hrec (shaped_extends h0 _ _ Hs Hext1) Hent
                ltac:(intros s Hs'; apply Hin; by right) Hinf1 Vrest)
      as (Hinf' & Hent' & Hrest).
    split; [done|]. split.
    + intros q Hq. destruct (Hent' q Hq) as [Hq1|?]; [|by right].
      destruct (Hent1 q Hq1) as [?|Hh]; [by left|right].
      by eapply heeds_extends.
    + intros s name c Hs' Hc L Hflag.
      apply elem_of_cons in Hs' as [->|Hs']; [|by eapply Hrest].
      destruct Hext2 as (_ & _ & Hmono & _). by eapply Hmono, Hthis.
Qed.

Lemma findEmptyFunc_informed fuel : forall f st st',
  findEmptyFunc fuel p f st = Some st' ->
  shaped h0 st -> entrant h0 p root f -> informed h0 p st ->
  informed h0 p st' /\
  forall q, q ∈ st_entered st' -> q ∈ st_entered st \/ heeds h0 p q st'.
Proof.
  induction fuel as [|fuel IH]; intros f st st' V Hs Hent Hinf; simpl in V;
    [done|].
  destruct (Hs f) as [HN HS]. rewrite HN, HS in V.
  destruct (st_known st !! Name (h0 f)) eqn:K.
  { injection V as <-. split; [done|]. by left. }
  assert (informed h0 p
            {| st_heap := st_heap st;
               st_known := <[Name (h0 f) := HasComm (st_heap st f)]>
                             (st_known st);
               st_entered := f :: st_entered st |}) as Hinf1.
  { destruct Hinf as [M Vk]. split; [done|]. intros n c b. simpl.
    destruct (decide (n = Name (h0 f))) as [->|Hn].
    - rewrite lookup_insert_eq. intros [= <-] L Hc.
      rewrite (entrant_lookup p h0 root Hown f c Hent L) in Hc. by apply M.
    - rewrite lookup_insert_ne by done. apply Vk. }
  assert (forall c s s', findEmptyFunc fuel p c s = Some s' -> shaped h0 s ->
            entrant h0 p root c -> informed h0 p s ->
            informed h0 p s' /\
            forall q, q ∈ st_entered s' ->
                      q ∈ st_entered s \/ heeds h0 p q s') as Hrec
    by (intros c s s' R Hs' He Hi; by apply (IH c s)).
  assert (forall s, s ∈ Stmts (h0 f) -> s ∈ Stmts (h0 f)) as Hin by done.
  set (st1 := {| st_heap := st_heap st;
                 st_known := <[Name (h0 f) := HasComm (st_heap st f)]>
                               (st_known st);
                 st_entered := f :: st_entered st |}) in *.
  destruct (visitStmts_informed (findEmptyFunc fuel p) f (Stmts (h0 f)) st1 st'
              (findEmptyFunc_extends p fuel) Hrec (Hs : shaped h0 st1) Hent
              Hin Hinf1 V)
    as (Hinf' & Hent' & Hstmts).
  split; [done|]. intros q Hq. destruct (Hent' q Hq) as [Hq1|?]; [|by right].
  simpl in Hq1. apply elem_of_cons in Hq1 as [->|?]; [right|by left].
  intros c (s & name & Hs' & Hc & L) Hflag. by eapply Hstmts.
Qed.
End Informed.

Lemma findEmptyFuncMain_reached (fuel : nat) (h : heap) (p : Program)
    (root q : ptr) (st : astate) :
  owns_name h p root ->
  findEmptyFuncMain fuel h p root = Some st ->
  reaches h p root q -> q ∈ st_entered st.
Proof.
  intros Hown H.
  destruct (findEmptyFuncMain_traverses _ _ _ _ _ H)
    as (st0 & E & _ & -> & _ & Hroot & Rn & _ & D & C).
  assert (forall a b, reaches h p a b -> a ∈ st_entered st0 ->
                      b ∈ st_entered st0) as Hclosed; [|by eauto].
  induction 1 as [|a b c Hedge Hreach IH]; [done|].
  intros Ha. apply IH.
  pose proof (C a b Ha Hedge) as Hb. apply D in Hb.
  unfold names in Hb. apply list_elem_of_fmap in Hb as (g & Hg & Hgin).
  pose proof (call_edge_target p h a b Hedge) as Hregb.
  unfold registered_first in *.
  destruct (Rn g Hgin) as [_ [->|Hregg]].
  - rewrite Hg in Hregb. by rewrite (Hown b Hregb).
  - rewrite Hg, Hregg in Hregb. by injection Hregb as <-.
Qed.

(** Cycles or not: let no other function be registered under the name of
    the root.  Then every function that the root reaches over top-level
    calls and spawns ([call_edge]), and that has at the top level of its body
    a call or spawn of a function whose [HasComm] was set before the run, has
    [HasComm] set after the run.  A call or spawn nested in a branch does not
    count.  What a cycle can spoil is the step from there to the callers of
    the caller. *)
Theorem findEmptyFuncMain_direct_caller (fuel : nat) (h : heap) (p : Program)
    (root q c : ptr) (st : astate) :
  owns_name h p root ->
  findEmptyFuncMain fuel h p root = Some st ->
  reaches h p root q -> call_edge h p q c -> HasComm (h c) = true ->
  HasComm (st_heap st q) = true.
Proof.
  intros Hown H Hrq Hedge Hc.
  pose proof (findEmptyFuncMain_reached _ _ _ _ _ _ Hown H Hrq) as Hq.
  unfold findEmptyFuncMain in H.
  destruct (findEmptyFunc fuel p root _) as [st0|] eqn:E; [|done].
  injection H as <-. simpl in *.
  destruct (decide (q = root)) as [->|Hne]; [by rewrite upd_same|].
  rewrite upd_other by done.
  assert (informed h p {| st_heap := h; st_known := ∅; st_entered := [] |})
    as Hinit.
  { split; [done|]. intros n c' b Hn. simpl in Hn.
    by rewrite lookup_empty in Hn. }
  destruct (findEmptyFunc_informed p h root Hown fuel root _ st0 E
              ltac:(done) ltac:(by left) Hinit) as [_ Hheeds].
  destruct (Hheeds q Hq) as [Hnil|Hh]; [by apply elem_of_nil in Hnil|].
  by apply (Hh c).
Qed.

Lemma findEmptyFuncMain_direct_caller_witness :
  exists st,
    findEmptyFuncMain (enough_fuel cyc_prog) cyc_heap cyc_prog 0%nat = Some st /\
    HasComm (st_heap st 1%nat) = true.
Proof.
  destruct (findEmptyFuncMain (enough_fuel cyc_prog) cyc_heap cyc_prog 0%nat)
    as [st|] eqn:E; [|vm_compute in E; discriminate].
  exists st. split; [reflexivity|].
  apply (findEmptyFuncMain_direct_caller (enough_fuel cyc_prog) cyc_heap
           cyc_prog 0%nat 1%nat 2%nat st).
  - intros c Hc. vm_compute in Hc. by injection Hc as <-.
  - exact E.
  - eapply reaches_step; [|apply reaches_refl].
    exists (CallStatement "B" [] (at_line 2)), "B".
    split; [vm_compute; apply list_elem_of_here|]. split; reflexivity.
  - exists (CallStatement "C" [] (at_line 6)), "C".
    split; [vm_compute; apply list_elem_of_further, list_elem_of_here|].
    split; reflexivity.
  - reflexivity.
Defined.

(** ** Annotated rendering without annotations *)

(** The annotated rendering of a program returns only with an empty
    registry: whenever it returns, nothing is left in the registry.  With no
    annotations registered and the root present it always returns, and
    leaves the registry empty. *)
Theorem PrintWithProperties_returns_empty (h h' : heap) (p : Program)
    (props props' : Properties) (text : string) (range : list Z) :
  (Program_PrintWithProperties range h p props = Returned (text, h', props') ->
   props' = ∅) /\
  (mainName ∈ names h (Funcs p) ->
   exists text0 h0,
     Program_PrintWithProperties range h p ∅ = Returned (text0, h0, ∅)).
Proof.
  unfold Program_PrintWithProperties, Program_Function. split.
  - destruct (lookup_func h (Funcs p) mainName) as [main|]; [|done].
    destruct (render_annotated h p main props) as [[t hh] pp].
    destruct (Properties_IsEmpty pp) eqn:E; [|done].
    intros [= _ _ <-]. by apply Properties_IsEmpty_true.
  - intros Hin.
    destruct (lookup_func h (Funcs p) mainName) as [main|] eqn:L;
      [|by apply lookup_func_None in L].
    pose proof (render_annotated_subseteq h p main ∅) as Hsub.
    destruct (render_annotated h p main ∅) as [[t hh] pp]. simpl in Hsub.
    assert (pp = ∅) as ->.
    { apply map_empty. intros i. destruct (pp !! i) as [x|] eqn:Ei; [|done].
      pose proof (lookup_weaken _ _ _ _ Ei Hsub) as Hx.
      by rewrite lookup_empty in Hx. }
    by exists t, hh.
Qed.

Lemma PrintWithProperties_returns_empty_witness :
  exists text0 h0,
    Program_PrintWithProperties [] scn_heap scn_prog ∅
    = Returned (text0, h0, ∅).
Proof.
  apply (proj2 (PrintWithProperties_returns_empty scn_heap scn_heap scn_prog
                  ∅ ∅ EmptyString [])).
  apply (bool_decide_unpack _). vm_compute. exact I.
Defined.

(** ** The annotated rendering of a program *)

Section Annotated.
Variable props : Properties.
Implicit Types (cur : Properties) (seen : list Z) (f : Function).

Lemma reads_off_start : reads_off props [] props.
Proof. intros line. by rewrite bool_decide_eq_false_2 by apply not_elem_of_nil. Qed.

Lemma reads_off_ext seen seen' cur :
  (forall line, line ∈ seen <-> line ∈ seen') ->
  reads_off props seen cur -> reads_off props seen' cur.
Proof.
  intros H R line. rewrite (R line). by rewrite (bool_decide_ext _ _ (H line)).
Qed.

Lemma reads_off_delete seen cur (l : Z) :
  reads_off props seen cur -> reads_off props (l :: seen) (delete l cur).
Proof.
  intros R line. destruct (decide (line = l)) as [->|Hne].
  - rewrite lookup_delete_eq. by rewrite bool_decide_eq_true_2 by left.
  - rewrite lookup_delete_ne by done. rewrite (R line).
    apply (f_equal (fun b : bool => if b then None else props !! line)).
    apply bool_decide_ext. rewrite elem_of_cons. naive_solver.
Qed.

Lemma reads_off_get seen cur (line : Z) :
  reads_off props seen cur ->
  default [] (cur !! line) = annotations_at props seen line.
Proof.
  intros R. unfold annotations_at. rewrite (R line). by case_bool_decide.
Qed.

Lemma reads_off_foldl (ls : list Z) : forall seen cur,
  reads_off props seen cur ->
  reads_off props (ls ++ seen) (foldl (fun acc l => delete l acc) cur ls).
Proof.
  induction ls as [|l ls IH]; intros seen cur R; simpl; [done|].
  apply (reads_off_ext (ls ++ l :: seen));
    [|apply IH, (reads_off_delete seen cur l), R].
  intros line. rewrite !elem_of_app, !elem_of_cons, elem_of_app. naive_solver.
Qed.

Lemma annotated_lines_expected (stmts : list Statement) : forall seen cur,
  reads_off props seen cur ->
  fst (annotated_lines stmts cur) = expected_lines props seen stmts.
Proof.
  induction stmts as [|s rest IH]; intros seen cur R; [done|].
  cbn [annotated_lines expected_lines]. unfold GetProperties.
  rewrite (reads_off_get seen cur _ R).
  specialize (IH _ _ (reads_off_delete seen cur (Line (Statement_Position s)) R)).
  destruct (annotated_lines rest _) as [more cur2]. simpl in *. by rewrite IH.
Qed.

Lemma Function_PrintWithProperties_expected f seen cur :
  reads_off props seen cur ->
  exists cur',
    Function_PrintWithProperties f cur
    = (expected_function_text props seen f, materialize f, cur') /\
    reads_off props (consumed_lines f ++ seen) cur'.
Proof.
  intros R.
  exists (snd (Function_PrintWithProperties f cur)). split.
  - unfold Function_PrintWithProperties, expected_function_text, GetProperties.
    rewrite (reads_off_get seen cur _ R).
    pose proof (annotated_lines_expected (Stmts (materialize f)) _ _
                  (reads_off_delete seen cur (Line (Pos f)) R)) as Ht.
    destruct (annotated_lines _ _) as [body cur2]. simpl in *. by rewrite Ht.
  - rewrite Function_PrintWithProperties_registry. by apply reads_off_foldl.
Qed.

Lemma materialize_Name f : Name (materialize f) = Name f.
Proof. unfold materialize. case_match; [apply AddStmts_Name|done]. Qed.

Lemma materialize_Pos f : Pos (materialize f) = Pos f.
Proof. unfold materialize, AddStmts. by repeat case_match. Qed.

Lemma materialize_idem f : materialize (materialize f) = materialize f.
Proof.
  destruct (decide (Stmts f = [])) as [E|E].
  - rewrite (materialize_empty f E).
    by apply materialize_nonempty.
  - by rewrite !(materialize_nonempty f E).
Qed.

Lemma consumed_lines_materialize f :
  consumed_lines (materialize f) = consumed_lines f.
Proof. unfold consumed_lines. by rewrite materialize_idem, materialize_Pos. Qed.

Lemma expected_function_text_materialize seen f :
  expected_function_text props seen (materialize f)
  = expected_function_text props seen f.
Proof.
  unfold expected_function_text.
  by rewrite materialize_idem, materialize_Pos, materialize_header.
Qed.

(** The loop of the annotated rendering over functions that are all printed.
    [h] is the store when the rendering starts and [hc] the store the loop
    starts in, in which some functions may already have been rendered. *)
Lemma annotated_loop_expected (h : heap) (gs : list ptr) :
  (forall g, g ∈ gs -> printed_in_loop (h g) = true) ->
  forall (hc : heap) seen cur,
    (forall q, hc q = h q \/ hc q = materialize (h q)) ->
    reads_off props seen cur ->
    exists h' cur',
      annotated_loop hc gs cur = (expected_text props seen (h <$> gs), h', cur') /\
      reads_off props (flat_map (fun g => consumed_lines (h g)) gs ++ seen) cur' /\
      forall q, h' q = if bool_decide (q ∈ gs) then materialize (h q) else hc q.
Proof.
  induction gs as [|g gs IH]; intros Hpr hc seen cur Hhc R.
  - exists hc, cur. repeat split; try done.
  - assert (Hg : hc g = h g \/ hc g = materialize (h g)) by apply Hhc.
    assert (Ht : expected_function_text props seen (hc g)
                 = expected_function_text props seen (h g)).
    { destruct Hg as [->| ->]; [done|apply expected_function_text_materialize]. }
    assert (Hc : consumed_lines (hc g) = consumed_lines (h g)).
    { destruct Hg as [->| ->]; [done|apply consumed_lines_materialize]. }
    assert (Hm : materialize (hc g) = materialize (h g)).
    { destruct Hg as [->| ->]; [done|apply materialize_idem]. }
    assert (Hp : printed_in_loop (hc g) = true).
    { rewrite <- (Hpr g) by left. apply printed_in_loop_Name.
      destruct Hg as [->| ->]; [done|apply materialize_Name]. }
    destruct (Function_PrintWithProperties_expected (hc g) seen cur R)
      as (cur1 & E1 & R1).
    rewrite Ht, Hc, Hm in *.
    destruct (IH (fun q Hq => Hpr q (proj2 (elem_of_cons gs q g) (or_intror Hq)))
                 (upd hc g (materialize (h g)))
                 (consumed_lines (h g) ++ seen) cur1) as (h' & cur' & E2 & R2 & H2).
    { intros q. destruct (decide (q = g)) as [->|Hne].
      - right. apply upd_same.
      - rewrite upd_other by done. apply Hhc. }
    { exact R1. }
    exists h', cur'. split; [|split].
    + cbn [annotated_loop fmap list_fmap]. rewrite Hp, E1, E2. reflexivity.
    + revert R2. apply reads_off_ext. intros line. cbn [flat_map].
      rewrite !elem_of_app. naive_solver.
    + intros q. rewrite (H2 q).
      destruct (decide (q = g)) as [->|Hne].
      * rewrite (bool_decide_eq_true_2 (g ∈ g :: gs)) by left.
        case_bool_decide; [done|apply upd_same].
      * rewrite upd_other by done.
        apply (f_equal (fun b : bool => if b then materialize (h q) else hc q)).
        apply bool_decide_ext. rewrite elem_of_cons. naive_solver.
Qed.

(** What [render_annotated] computes: the text in terms of the registry and
    the store it starts from, the registry without the lines of what was
    printed, and the store with the printed functions no longer empty. *)
Lemma render_annotated_expected (h : heap) (p : Program) (main : ptr) :
  exists h',
    render_annotated h p main props
    = (expected_text props [] (h <$> rendered h p main), h',
       left_over props (lines_rendered h p main)) /\
    forall q, h' q = if bool_decide (q ∈ rendered h p main)
                     then materialize (h q) else h q.
Proof.
  unfold render_annotated.
  destruct (Function_PrintWithProperties_expected (h main) [] props
              reads_off_start) as (cur1 & E1 & R1).
  rewrite E1, annotated_loop_filter.
  set (h1 := upd h main (materialize (h main))).
  assert (Hh1 : forall q, h1 q = h q \/ h1 q = materialize (h q)).
  { intros q. unfold h1. destruct (decide (q = main)) as [->|Hne].
    - right. apply upd_same.
    - left. by apply upd_other. }
  assert (Hf : filter (fun g : ptr => printed_in_loop (h1 g) = true) (Funcs p)
               = filter (fun g : ptr => printed_in_loop (h g) = true) (Funcs p)).
  { apply list_filter_iff. intros q.
    replace (printed_in_loop (h1 q)) with (printed_in_loop (h q)); [done|].
    apply printed_in_loop_Name.
    destruct (Hh1 q) as [->| ->]; [done|symmetry; apply materialize_Name]. }
  rewrite Hf.
  set (gs := filter (fun g : ptr => printed_in_loop (h g) = true) (Funcs p)).
  destruct (annotated_loop_expected h gs) with (hc := h1)
    (seen := consumed_lines (h main) ++ []) (cur := cur1)
    as (h' & cur' & E2 & R2 & H2).
  { intros g Hg. by apply list_elem_of_filter in Hg as [Hg _]. }
  { exact Hh1. }
  { exact R1. }
  rewrite E2. exists h'. split.
  - f_equal. apply map_eq. intros line. rewrite lookup_foldl_delete.
    rewrite (R2 line).
    apply (f_equal (fun b : bool => if b then None else props !! line)).
    apply bool_decide_ext. unfold lines_rendered, rendered. fold gs.
    cbn [flat_map]. rewrite !elem_of_app. pose proof (not_elem_of_nil line).
    naive_solver.
  - intros q. rewrite (H2 q). unfold rendered. fold gs.
    destruct (decide (q = main)) as [->|Hne].
    + rewrite (bool_decide_eq_true_2 (main ∈ main :: gs)) by left.
      case_bool_decide; [done|apply upd_same].
    + unfold h1. rewrite upd_other by done.
      apply (f_equal (fun b : bool => if b then materialize (h q) else h q)).
      apply bool_decide_ext. rewrite elem_of_cons. naive_solver.
Qed.
End Annotated.

Lemma elem_of_Values (range : list Z) (ps : Properties) (v : string) :
  range_of ps range ->
  v ∈ Values range ps <-> exists line vals, ps !! line = Some vals /\ v ∈ vals.
Proof.
  intros Hr. unfold Values. rewrite list_elem_of_In, in_flat_map. split.
  - intros (line & _ & Hv). apply list_elem_of_In in Hv.
    destruct (ps !! line) as [vals|] eqn:E; simpl in Hv.
    + by exists line, vals.
    + by apply not_elem_of_nil in Hv.
  - intros (line & vals & E & Hv). exists line. split.
    + apply list_elem_of_In. rewrite Hr. apply list_elem_of_fmap.
      exists (line, vals). split; [done|]. by apply elem_of_map_to_list.
    + apply list_elem_of_In. by rewrite E.
Qed.

Lemma Properties_IsEmpty_false (ps : Properties) :
  ps <> ∅ -> Properties_IsEmpty ps = false.
Proof.
  intros H. destruct (Properties_IsEmpty ps) eqn:E; [|done].
  by apply Properties_IsEmpty_true in E.
Qed.

(** C7. The annotated rendering of a program whose root is registered, for
    every store, program, registry and order [range] of the final loop.  The
    functions printed are the root and then the registered functions that the
    loop does not pass over; [left], the registry the rendering leaves, is
    the registry it was given without the lines of these functions and of
    their statements.  Each annotation is printed once, before the first
    header or statement on its line ([expected_text]).  If [left] holds no
    line, the call returns that text, with an empty registry, and the printed
    functions are no longer empty in the store.  If [left] holds any line,
    the call is fatal and its message lists [Values] of [left]; when [range]
    visits each line of [left] once, the values listed are exactly the
    comments still registered, in the order of [range]. *)
Theorem PrintWithProperties_unconsumed (range : list Z) (h : heap)
    (p : Program) (props : Properties) (main : ptr) :
  Program_Function h p mainName = Some main ->
  let printed := rendered h p main in
  let left := left_over props (lines_rendered h p main) in
  (forall line,
     left !! line
     = if bool_decide (line ∈ lines_rendered h p main) then None
       else props !! line) /\
  (left = ∅ ->
   exists h',
     Program_PrintWithProperties range h p props
     = Returned (expected_text props [] (h <$> printed), h', ∅) /\
     forall q, h' q = if bool_decide (q ∈ printed) then materialize (h q)
                      else h q) /\
  (left <> ∅ ->
   Program_PrintWithProperties range h p props
   = Fatal ("Unable to find target location of properties: "
              +:+ format_values (Values range left))) /\
  (range_of left range ->
   forall v, v ∈ Values range left
             <-> exists line vals, left !! line = Some vals /\ v ∈ vals).
Proof.
  intros Hmain printed left.
  destruct (render_annotated_expected props h p main) as (h' & E & Hh').
  fold left printed in E, Hh'.
  split; [|split; [|split]].
  - intros line. apply lookup_foldl_delete.
  - intros Hl. exists h'. split; [|exact Hh'].
    unfold Program_PrintWithProperties. rewrite Hmain, E, Hl. reflexivity.
  - intros Hl. unfold Program_PrintWithProperties. rewrite Hmain, E.
    by rewrite (Properties_IsEmpty_false _ Hl).
  - intros Hr v. by apply elem_of_Values.
Qed.

Lemma PrintWithProperties_unconsumed_witness :
  (exists h',
     Program_PrintWithProperties [] scn_heap scn_prog props_matching
     = Returned (scn_text, h', ∅)) /\
  Program_PrintWithProperties [99] scn_heap scn_prog props_stray
  = Fatal "Unable to find target location of properties: [// lost // too]" /\
  "// lost"
    ∈ Values [99]
        (left_over props_stray (lines_rendered scn_heap scn_prog 0%nat)).
Proof.
  split; [|split].
  - destruct (PrintWithProperties_unconsumed [] scn_heap scn_prog
                props_matching 0%nat eq_refl) as (_ & Hret & _).
    destruct Hret as (h' & E & _).
    + apply map_eq. intros line. rewrite lookup_foldl_delete.
      rewrite lookup_empty. case_bool_decide as Hin; [done|].
      unfold props_matching. apply lookup_singleton_None. intros <-.
      apply Hin. apply (bool_decide_unpack _). vm_compute. exact I.
    + exists h'. exact E.
  - destruct (PrintWithProperties_unconsumed [99] scn_heap scn_prog
                props_stray 0%nat eq_refl) as (_ & _ & Hfatal & _).
    rewrite Hfatal.
    + f_equal.
    + intros Hl. apply (f_equal (fun m => m !! 99)) in Hl.
      rewrite lookup_foldl_delete, lookup_empty in Hl.
      rewrite bool_decide_eq_false_2 in Hl.
      * unfold props_stray in Hl. by rewrite lookup_insert_eq in Hl.
      * intros Hin. revert Hin. apply (bool_decide_unpack _). vm_compute. exact I.
  - destruct (PrintWithProperties_unconsumed [99] scn_heap scn_prog
                props_stray 0%nat eq_refl) as (_ & _ & _ & Hvals).
    apply Hvals.
    + unfold range_of. vm_compute. reflexivity.
    + exists 99, ["// lost"; "// too"]. split; [|left].
      rewrite lookup_foldl_delete. rewrite bool_decide_eq_false_2.
      * reflexivity.
      * intros Hin. revert Hin. apply (bool_decide_unpack _). vm_compute. exact I.
Defined.

(** A line registered without a comment.  No annotation value is left when
    the rendering is done, and none is reported, but the line is still in the
    registry and the call is fatal. *)
Lemma PrintWithProperties_blank_line :
  (forall v, ~ exists line vals,
     left_over props_blank (lines_rendered scn_heap scn_prog 0%nat) !! line
       = Some vals /\ v ∈ vals) /\
  Program_PrintWithProperties [99] scn_heap scn_prog props_blank
  = Fatal "Unable to find target location of properties: []".
Proof.
  split.
  - intros v (line & vals & E & Hv).
    rewrite lookup_foldl_delete in E. case_bool_decide; [done|].
    unfold props_blank, AddProperties in E.
    destruct (decide (line = 99)) as [->|Hne].
    + rewrite lookup_insert_eq in E. injection E as <-.
      rewrite lookup_empty in Hv. by apply not_elem_of_nil in Hv.
    + by rewrite lookup_insert_ne, lookup_empty in E.
  - vm_compute. reflexivity.
Qed.


(** ** Calls inside a branch *)

(** The traversal looks at the statement list of a function and not inside
    the statements.  Let no other function be registered under the name of
    the root.  A function other than the root that has no call or spawn at
    the top level of its body keeps the [HasComm] it had before the run,
    whatever is called or spawned in the branches of its [if], [ifFor] and
    [select] statements. *)
Theorem findEmptyFuncMain_top_level_only (fuel : nat) (h : heap) (p : Program)
    (root q : ptr) (st : astate) :
  owns_name h p root ->
  findEmptyFuncMain fuel h p root = Some st ->
  q <> root ->
  (forall s, s ∈ Stmts (h q) -> callee_name s = None) ->
  HasComm (st_heap st q) = HasComm (h q).
Proof.
  intros Hown H Hq Hflat. unfold findEmptyFuncMain in H.
  destruct (findEmptyFunc fuel p root _) as [st0|] eqn:E; [|done].
  injection H as <-. simpl. rewrite upd_other by done.
  destruct (HasComm (st_heap st0 q)) eqn:Hflag.
  - assert (justified h p {| st_heap := h; st_known := ∅; st_entered := [] |})
      as Hinit.
    { split; simpl.
      - intros x Hx. exists x. split; [apply reaches_refl|done].
      - intros n c Hn. by rewrite lookup_empty in Hn. }
    destruct (findEmptyFunc_justified p h root Hown fuel root _ st0 E
                ltac:(done) ltac:(by left) Hinit) as [J1 _].
    destruct (J1 q Hflag) as (c & Hreach & Hc).
    inversion Hreach as [|a b c' (s & name & Hs & Hn & _) _]; subst.
    + by rewrite Hc.
    + by rewrite (Hflat s Hs) in Hn.
  - pose proof (findEmptyFunc_extends p _ _ _ _ E) as (_ & _ & Hmono & _).
    simpl in Hmono. destruct (HasComm (h q)) eqn:Hh; [|done].
    by rewrite (Hmono q Hh) in Hflag.
Qed.

Lemma findEmptyFuncMain_top_level_only_witness :
  exists st,
    findEmptyFuncMain (enough_fuel nest_prog) nest_heap nest_prog 0%nat = Some st /\
    HasComm (nest_heap 2%nat) = true /\
    HasComm (st_heap st 1%nat) = false.
Proof.
  destruct (findEmptyFuncMain (enough_fuel nest_prog) nest_heap nest_prog 0%nat)
    as [st|] eqn:E; [|vm_compute in E; discriminate].
  exists st. split; [reflexivity|]. split; [reflexivity|].
  rewrite (findEmptyFuncMain_top_level_only (enough_fuel nest_prog) nest_heap
             nest_prog 0%nat 1%nat st).
  - reflexivity.
  - intros c Hc. vm_compute in Hc. by injection Hc as <-.
  - exact E.
  - done.
  - intros s Hs. vm_compute in Hs.
    apply elem_of_cons in Hs as [->|Hs]; [reflexivity|].
    by apply elem_of_nil in Hs.
Defined.
